(** * unidep: conflict resolution ([unidep/_conflicts.py])

    A shallow embedding of the conflict-resolution engine of [unidep]:
    the grouping of [Meta] records by platform and source, the selection of one
    [Meta] per (platform, source) bucket, the conda/pip reconciliation and the
    combination of version pinnings, followed by the properties of each.

    Conventions of the embedding.
    - A Python [str] is a [string]; pin strings are taken to be ASCII, where
      bytewise lexicographic order is Python's code-point order.
    - A Python [int] is a [Z].
    - A Python [dict] is an insertion-ordered association list ([odict]):
      iteration order is insertion order and decides the order in which
      warnings are emitted.
    - A raised exception is the [Raise] outcome of [result]; [warnings.warn]
      appends to the warning log threaded by the monad [W]. *)

From Stdlib Require Import List String Ascii ZArith NArith Bool Lia Arith.
From Stdlib Require Import Permutation Sorted.
Import ListNotations.

Local Open Scope string_scope.
Local Open Scope Z_scope.

(** ** Exceptions and results *)

(** The exceptions the modelled code can raise.  [InvalidLiteral],
    [Contradictory] and [EmptySequence] are Python [ValueError]s: the first is
    raised by [int()], the second by [combine_version_pinnings], the third by
    [min] on an empty list; [exn_message] renders their messages.
    [IndexError] is raised by [metas[0]] on an empty list. *)
Inductive exn : Type :=
| InvalidLiteral (literal : string)
| Contradictory (pin other_pin : string)
| EmptySequence
| IndexError.

Inductive result (A : Type) : Type :=
| Ok (a : A)
| Raise (e : exn).
Arguments Ok {A} a.
Arguments Raise {A} e.

Definition exn_message (e : exn) : string :=
  match e with
  | InvalidLiteral s => "invalid literal for int() with base 10: '" ++ s ++ "'"
  | Contradictory p q => "Contradictory version pinnings found: " ++ p ++ " and " ++ q
  | EmptySequence => "min() arg is an empty sequence"
  | IndexError => "list index out of range"
  end.

Definition rbind {A B : Type} (r : result A) (k : A -> result B) : result B :=
  match r with
  | Ok a => k a
  | Raise e => Raise e
  end.

Declare Scope result_scope.
Delimit Scope result_scope with result.
Notation "x <- r ;; k" := (rbind r (fun x => k))
  (at level 61, r at next level, right associativity) : result_scope.
Notation "' pat <- r ;; k" := (rbind r (fun x => match x with pat => k end))
  (at level 61, pat pattern, r at next level, right associativity) : result_scope.

(** ** Python string primitives *)

Module Py.

(** [old in s] for a non-empty [old]. *)
Fixpoint contains (old s : string) : bool :=
  match s with
  | EmptyString => prefix old s
  | String _ s' => prefix old s || contains old s'
  end.

(** [s.replace(old, "")] for a non-empty [old]: the non-overlapping
    occurrences of [old] are removed from left to right.  [skip] counts the
    characters of a matched occurrence still to be dropped. *)
Fixpoint remove_from (old : string) (skip : nat) (s : string) : string :=
  match s with
  | EmptyString => EmptyString
  | String c s' =>
      match skip with
      | S k => remove_from old k s'
      | O =>
          if prefix old s
          then remove_from old (Nat.pred (String.length old)) s'
          else String c (remove_from old O s')
      end
  end.

Definition remove (old s : string) : string := remove_from old O s.

(** [s[1:]] *)
Definition tail (s : string) : string :=
  match s with
  | EmptyString => EmptyString
  | String _ s' => s'
  end.

(** [s.startswith(p)] *)
Definition startswith (s p : string) : bool := prefix p s.

(** The ASCII characters Python's [int()] treats as white space. *)
Definition is_space (c : ascii) : bool :=
  let n := N_of_ascii c in
  (((9 <=? n) && (n <=? 13)) || (n =? 32))%N.

Definition digit_val (c : ascii) : option Z :=
  let n := N_of_ascii c in
  if ((48 <=? n) && (n <=? 57))%N then Some (Z.of_N n - 48) else None.

Definition is_underscore (c : ascii) : bool := Ascii.eqb c "_".

Fixpoint skip_spaces (s : string) : string :=
  match s with
  | EmptyString => EmptyString
  | String c s' => if is_space c then skip_spaces s' else s
  end.

Fixpoint all_spaces (s : string) : bool :=
  match s with
  | EmptyString => true
  | String c s' => is_space c && all_spaces s'
  end.

(** The digit scan of [int()] after the first digit: digits, with single
    underscores between digits, then optional trailing white space.
    [prev_us] tells that the previous character was an underscore. *)
Fixpoint scan_digits (prev_us : bool) (acc : Z) (s : string) : option Z :=
  match s with
  | EmptyString => if prev_us then None else Some acc
  | String c s' =>
      match digit_val c with
      | Some d => scan_digits false (10 * acc + d) s'
      | None =>
          if prev_us then None
          else if is_underscore c then scan_digits true acc s'
          else if all_spaces s then Some acc else None
      end
  end.

Definition split_sign (s : string) : bool * string :=
  match s with
  | String "+" r => (false, r)
  | String "-" r => (true, r)
  | _ => (false, s)
  end.

(** [int(s)] in base 10, as an option: white space, an optional sign, a
    digit, then digits and single underscores, then white space.  The limit
    that recent interpreters put on the number of digits is not modelled. *)
Definition parse_int (s : string) : option Z :=
  let '(neg, body) := split_sign (skip_spaces s) in
  match body with
  | EmptyString => None
  | String c r =>
      match digit_val c with
      | Some d =>
          option_map (fun v => if neg then - v else v) (scan_digits false d r)
      | None => None
      end
  end.

(** [int(s)]: the value, or [ValueError]. *)
Definition int (s : string) : result Z :=
  match parse_int s with
  | Some v => Ok v
  | None => Raise (InvalidLiteral s)
  end.

(** [x in xs] for a list of strings. *)
Definition str_in (x : string) (xs : list string) : bool :=
  existsb (String.eqb x) xs.
Arguments str_in : simpl never.

(** [sep.join(xs)] *)
Definition join (sep : string) (xs : list string) : string :=
  String.concat sep xs.

(** [min(xs, key=...)] over the pairs (key, item) of a non-empty list
    [best :: rest]: the first item whose key is minimal. *)
Fixpoint min_by (best : Z * string) (rest : list (Z * string)) : string :=
  match rest with
  | [] => snd best
  | x :: rest' => if fst x <? fst best then min_by x rest' else min_by best rest'
  end.

End Py.

(** ** The version-pinning combiner *)

Module Pinning.
Import Py.
Local Open Scope result_scope.

Definition operators : list string := ["<="; ">="; "<"; ">"].
Definition uppers : list string := ["<"; "<="].
Definition lowers : list string := [">"; ">="].

Fixpoint parse_with (ops : list string) (pinning : string) : result (string * Z) :=
  match ops with
  | [] => Ok ("", 0)
  | operator :: ops' =>
      if contains operator pinning
      then v <- int (remove operator pinning) ;; Ok (operator, v)
      else parse_with ops' pinning
  end.

(** [_parse_pinning]: separates the operator and the version number. *)
Definition _parse_pinning (pinning : string) : result (string * Z) :=
  parse_with operators pinning.

Fixpoint redundant_loop (pinning op : string) (version : Z)
    (other_pinnings : list string) : result bool :=
  match other_pinnings with
  | [] => Ok false
  | other :: rest =>
      if String.eqb other pinning then redundant_loop pinning op version rest
      else
        '(other_op, other_version) <- _parse_pinning other ;;
        if str_in op uppers && str_in other_op uppers && (version >=? other_version)
        then Ok true
        else if str_in op lowers && str_in other_op lowers && (version <=? other_version)
        then Ok true
        else redundant_loop pinning op version rest
  end.

(** [_is_redundant] *)
Definition _is_redundant (pinning : string) (other_pinnings : list string)
  : result bool :=
  '(op, version) <- _parse_pinning pinning ;;
  redundant_loop pinning op version other_pinnings.

(** [_is_valid_pinning]; the [ValueError] of [int()] is caught. *)
Definition _is_valid_pinning (pinning : string) : bool :=
  if contains "=" pinning && startswith pinning "="
  then match int (tail pinning) with
       | Ok _ => true
       | Raise _ => false
       end
  else if existsb (fun op => contains op pinning) operators
  then match _parse_pinning pinning with
       | Ok _ => true
       | Raise _ => false
       end
  else false.

(** The loop over [valid_pinnings] checking the exact pinning. *)
Fixpoint exact_check (exact : string) (exact_version : Z)
    (valid_pinnings : list string) : result unit :=
  match valid_pinnings with
  | [] => Ok tt
  | other_pin :: rest =>
      if negb (String.eqb other_pin exact)
      then
        '(op, ver) <- _parse_pinning other_pin ;;
        if (str_in op uppers && (exact_version >=? ver))
           || (str_in op lowers && (exact_version <=? ver))
        then Raise (Contradictory exact other_pin)
        else exact_check exact exact_version rest
      else exact_check exact exact_version rest
  end.

(** The list comprehension keeping the pinnings that are not redundant. *)
Fixpoint non_redundant (candidates valid_pinnings : list string)
  : result (list string) :=
  match candidates with
  | [] => Ok []
  | p :: rest =>
      r <- _is_redundant p valid_pinnings ;;
      keep <- non_redundant rest valid_pinnings ;;
      Ok (if r then keep else p :: keep)
  end.

(** The inner loop of the contradiction check: [pin] against the later
    pinnings. *)
Fixpoint contradiction_inner (pin : string) (later : list string) : result unit :=
  match later with
  | [] => Ok tt
  | other_pin :: rest =>
      '(op1, ver1) <- _parse_pinning pin ;;
      '(op2, ver2) <- _parse_pinning other_pin ;;
      if (str_in op1 uppers && str_in op2 lowers && (ver1 <? ver2))
         || (str_in op2 uppers && str_in op1 lowers && (ver2 <? ver1))
      then Raise (Contradictory pin other_pin)
      else contradiction_inner pin rest
  end.

Fixpoint contradiction_check (pins : list string) : result unit :=
  match pins with
  | [] => Ok tt
  | pin :: later =>
      _ <- contradiction_inner pin later ;;
      contradiction_check later
  end.

(** The keys [_parse_pinning(p)[1]] computed by [min]. *)
Fixpoint keyed (pins : list string) : result (list (Z * string)) :=
  match pins with
  | [] => Ok []
  | p :: rest =>
      '(_, ver) <- _parse_pinning p ;;
      ks <- keyed rest ;;
      Ok ((ver, p) :: ks)
  end.

(** [min(pins, key=lambda p: _parse_pinning(p)[1])] *)
Definition min_by_version (pins : list string) : result string :=
  ks <- keyed pins ;;
  match ks with
  | [] => Raise EmptySequence
  | k :: rest => Ok (min_by k rest)
  end.

Definition is_exact (p : string) : bool := startswith p "=".
Definition is_inclusive (p : string) : bool :=
  startswith p "<=" || startswith p ">=".

(** [combine_version_pinnings] *)
Definition combine_version_pinnings (pinnings : list string) : result string :=
  let valid_pinnings := filter _is_valid_pinning pinnings in
  match valid_pinnings with
  | [] => Ok ""
  | _ =>
      match filter is_exact valid_pinnings with
      | exact :: _ =>
          exact_version <- int (tail exact) ;;
          _ <- exact_check exact exact_version valid_pinnings ;;
          Ok exact
      | [] =>
          non_redundant_pinnings <- non_redundant valid_pinnings valid_pinnings ;;
          _ <- contradiction_check non_redundant_pinnings ;;
          match non_redundant_pinnings with
          | [] =>
              match filter is_inclusive valid_pinnings with
              | [] => min_by_version valid_pinnings
              | inclusive_pinnings => min_by_version inclusive_pinnings
              end
          | _ => Ok (join "," non_redundant_pinnings)
          end
      end
  end.

End Pinning.
Import Pinning.


(** ** Insertion-ordered dictionaries *)

Class EqDec (A : Type) : Type :=
  eq_dec : forall x y : A, {x = y} + {x <> y}.

#[export] Instance string_EqDec : EqDec string := string_dec.

#[export] Instance option_EqDec {A : Type} `{EqDec A} : EqDec (option A).
Proof. intros x y. decide equality. Defined.

#[export] Instance list_EqDec {A : Type} `{EqDec A} : EqDec (list A).
Proof. intros x y. decide equality. Defined.

Module Dict.
Section Ops.
Context {K V : Type} `{EqDec K}.

Definition odict : Type := list (K * V).

(** [d.get(k)] *)
Fixpoint get (d : odict) (k : K) : option V :=
  match d with
  | [] => None
  | (k', v) :: d' => if eq_dec k' k then Some v else get d' k
  end.

(** [d[k] = v]: an existing key keeps its position, a new key goes last. *)
Fixpoint set (d : odict) (k : K) (v : V) : odict :=
  match d with
  | [] => [(k, v)]
  | (k', v') :: d' =>
      if eq_dec k' k then (k', v) :: d' else (k', v') :: set d' k v
  end.

Definition keys (d : odict) : list K := map fst d.
Definition values (d : odict) : list V := map snd d.

(** The keys of a Python dict are pairwise distinct. *)
Definition wf (d : odict) : Prop := NoDup (keys d).
End Ops.
Arguments odict : clear implicits.
End Dict.
Import Dict.

(** ** The data model *)

Inductive CondaPip : Type := conda | pip.

#[export] Instance CondaPip_EqDec : EqDec CondaPip.
Proof. intros x y. decide equality. Defined.

Definition Platform : Type := string.

(** Modelled from the spec: the class [Meta] of
    [unidep/platform_definitions.py], which is not part of the sources at
    hand.  A record of the attributes the data model lists: package name,
    nullable version pin, source, nullable applicable platforms (the value of
    [meta.platforms()]) and rendering (the value of [meta.pprint()]);
    immutable and compared by value; as an object with fields it is truthy. *)
Record Meta : Type := mkMeta {
  name : string;
  pin : option string;
  which : CondaPip;
  platforms : option (list Platform);
  pprint : string
}.

#[export] Instance Meta_EqDec : EqDec Meta.
Proof.
  intros x y. decide equality; try apply string_dec.
  - apply (eq_dec (A := option (list Platform))).
  - apply CondaPip_EqDec.
  - apply (eq_dec (A := option string)).
Defined.

(** [m != selected_meta] *)
Definition Meta_neqb (m m' : Meta) : bool :=
  if eq_dec m m' then false else true.

(** ** Warnings *)

(** A call of [warn], recorded with the values its message is formatted
    from; [warning_message] renders the message. *)
Inductive Warning : Type :=
| PlatformConflict (_platform : option Platform) (selected_meta : Meta)
    (which_ : CondaPip) (discarded_metas : list Meta)
| PinConflict (conda_pin pip_pin : option string).

Definition newline : string := String (ascii_of_nat 10) EmptyString.

Definition CondaPip_str (w : CondaPip) : string :=
  match w with
  | conda => "conda"
  | pip => "pip"
  end.

(** [f"{pin}"] for a nullable string *)
Definition pin_str (p : option string) : string :=
  match p with
  | Some s => s
  | None => "None"
  end.

(** [_platform or "all platforms"] *)
Definition on_platform (_platform : option Platform) : string :=
  match _platform with
  | Some EmptyString | None => "all platforms"
  | Some p => p
  end.

Definition warning_message (w : Warning) : string :=
  match w with
  | PlatformConflict _platform selected_meta which_ discarded_metas =>
      let discarded_metas_str :=
        Py.join ", "
          (map (fun m => "`" ++ pprint m ++ "` (" ++ CondaPip_str (which m) ++ ")")
               discarded_metas) in
      "Platform Conflict Detected:" ++ newline
      ++ "On '" ++ on_platform _platform ++ "', '" ++ pprint selected_meta
      ++ "' (" ++ CondaPip_str which_ ++ ")"
      ++ " is retained. The following conflicting dependencies are"
      ++ " discarded: " ++ discarded_metas_str ++ "."
  | PinConflict conda_pin pip_pin =>
      "Version Pinning Conflict:" ++ newline
      ++ "Different version specifications for Conda ('" ++ pin_str conda_pin
      ++ "') and Pip" ++ " ('" ++ pin_str pip_pin ++ "'). Both versions are retained."
  end.

(** The monad of the code that warns: an outcome and the warnings emitted, in
    order, up to the outcome. *)
Definition W (A : Type) : Type := result A * list Warning.

Definition wret {A : Type} (a : A) : W A := (Ok a, []).
Definition wraise {A : Type} (e : exn) : W A := (Raise e, []).
Definition warn (w : Warning) : W unit := (Ok tt, [w]).

Definition wbind {A B : Type} (m : W A) (k : A -> W B) : W B :=
  match m with
  | (Ok a, ws) => let '(r, ws') := k a in (r, (ws ++ ws')%list)
  | (Raise e, ws) => (Raise e, ws)
  end.

Declare Scope warn_scope.
Delimit Scope warn_scope with warn.
Notation "x <- m ;; k" := (wbind m (fun x => k))
  (at level 61, m at next level, right associativity) : warn_scope.

(** ** Grouping, selection and reconciliation *)

Module Conflicts.
Local Open Scope warn_scope.

(** [meta.platforms()], with [None] replaced by [[None]]. *)
Definition platforms_or_null (meta : Meta) : list (option Platform) :=
  match platforms meta with
  | None => [None]
  | Some ps => map Some ps
  end.

Definition Grouped : Type :=
  odict (option Platform) (odict CondaPip (list Meta)).

(** [grouped_metas[_platform][meta.which].append(meta)] on a
    [defaultdict(lambda: defaultdict(list))]: a missing key is created
    with its default, last in the dictionary. *)
Definition append_meta (grouped_metas : Grouped) (_platform : option Platform)
    (meta : Meta) : Grouped :=
  let sources := match get grouped_metas _platform with
                 | Some d => d
                 | None => []
                 end in
  let metas := match get sources (which meta) with
               | Some l => l
               | None => []
               end in
  set grouped_metas _platform (set sources (which meta) (metas ++ [meta])%list).

(** The loop [for meta in meta_list] of the grouper. *)
Definition group_metas (meta_list : list Meta) : Grouped :=
  fold_left
    (fun grouped_metas meta =>
       fold_left (fun g _platform => append_meta g _platform meta)
                 (platforms_or_null meta) grouped_metas)
    meta_list [].

(** [_prepare_metas_for_conflict_resolution] *)
Definition _prepare_metas_for_conflict_resolution
    (requirements : odict string (list Meta)) : odict string Grouped :=
  fold_left
    (fun prepared_data '(package, meta_list) =>
       set prepared_data package (group_metas meta_list))
    requirements [].

(** The sort key [(m.pin is not None, m.pin)]. *)
Definition sort_key (m : Meta) : bool * option string :=
  (match pin m with Some _ => true | None => false end, pin m).

(** [k1 < k2] on sort keys, as Python compares tuples: the first differing
    component decides.  The second components are compared only when the
    first are equal, that is when both pins are strings or both are
    [None]. *)
Definition key_ltb (k1 k2 : bool * option string) : bool :=
  if Bool.eqb (fst k1) (fst k2)
  then match snd k1, snd k2 with
       | Some p1, Some p2 => String.ltb p1 p2
       | _, _ => false
       end
  else negb (fst k1) && fst k2.

(** [metas.sort(key=..., reverse=True)]: Python's sort is stable, also when
    reversed, so the outcome is the stable descending insertion sort. *)
Fixpoint insert_desc (m : Meta) (sorted : list Meta) : list Meta :=
  match sorted with
  | [] => [m]
  | x :: xs =>
      if key_ltb (sort_key m) (sort_key x)
      then x :: insert_desc m xs
      else m :: sorted
  end.

Definition sort_desc (metas : list Meta) : list Meta :=
  fold_right insert_desc [] metas.

(** The body of the loop over [packages.items()]: the [Meta] kept for one
    bucket.  The in-place sort only changes the bucket list of [data],
    which is not read again. *)
Definition select_bucket (_platform : option Platform) (which_ : CondaPip)
    (metas : list Meta) : W Meta :=
  if (1 <? List.length metas)%nat
  then
    match sort_desc metas with
    | [] => wraise IndexError
    | selected_meta :: rest =>
        let discarded_metas := filter (fun m => Meta_neqb m selected_meta) rest in
        _ <- match discarded_metas with
             | [] => wret tt
             | _ => warn (PlatformConflict _platform selected_meta which_
                                           discarded_metas)
             end ;;
        wret selected_meta
    end
  else
    match metas with
    | [] => wraise IndexError
    | m :: _ => wret m
    end.

Fixpoint select_sources (_platform : option Platform)
    (packages : odict CondaPip (list Meta)) (acc : odict CondaPip Meta)
  : W (odict CondaPip Meta) :=
  match packages with
  | [] => wret acc
  | (which_, metas) :: rest =>
      selected <- select_bucket _platform which_ metas ;;
      select_sources _platform rest (set acc which_ selected)
  end.

Definition Reduced : Type := odict (option Platform) (odict CondaPip Meta).

Fixpoint select_platforms (data : Grouped) (reduced_data : Reduced) : W Reduced :=
  match data with
  | [] => wret reduced_data
  | (_platform, packages) :: rest =>
      sources <- select_sources _platform packages [] ;;
      select_platforms rest (set reduced_data _platform sources)
  end.

(** [_select_preferred_version_within_platform] *)
Definition _select_preferred_version_within_platform (data : Grouped) : W Reduced :=
  select_platforms data [].

(** Truth value of a nullable string: [None] and the empty string are false. *)
Definition truthy (p : option string) : bool :=
  match p with
  | None | Some EmptyString => false
  | Some _ => true
  end.

(** [conda_meta.pin == pip_meta.pin] *)
Definition pin_eqb (p q : option string) : bool :=
  if eq_dec p q then true else false.

(** [_resolve_conda_pip_conflicts] *)
Definition _resolve_conda_pip_conflicts (sources : odict CondaPip Meta)
  : W (odict CondaPip Meta) :=
  match get sources conda, get sources pip with
  | Some conda_meta, Some pip_meta =>
      if truthy (pin conda_meta) && negb (truthy (pin pip_meta))
      then wret [(conda, conda_meta)]
      else if truthy (pin pip_meta) && negb (truthy (pin conda_meta))
      then wret [(pip, pip_meta)]
      else if pin_eqb (pin conda_meta) (pin pip_meta)
      then wret [(conda, conda_meta); (pip, pip_meta)]
      else
        _ <- warn (PinConflict (pin conda_meta) (pin pip_meta)) ;;
        wret [(conda, conda_meta); (pip, pip_meta)]
  | _, _ => wret sources
  end.

(** The dict comprehension
    [{pkg: _select_preferred_version_within_platform(data) ...}]. *)
Fixpoint select_all (prepared : odict string Grouped)
    (resolved : odict string Reduced) : W (odict string Reduced) :=
  match prepared with
  | [] => wret resolved
  | (pkg, data) :: rest =>
      reduced <- _select_preferred_version_within_platform data ;;
      select_all rest (set resolved pkg reduced)
  end.

(** [platforms[_platform] = _resolve_conda_pip_conflicts(sources)] for the
    items of one package: every value is replaced in place. *)
Fixpoint reconcile_platforms (platforms_ : Reduced) : W Reduced :=
  match platforms_ with
  | [] => wret []
  | (_platform, sources) :: rest =>
      sources' <- _resolve_conda_pip_conflicts sources ;;
      rest' <- reconcile_platforms rest ;;
      wret ((_platform, sources') :: rest')
  end.

Fixpoint reconcile_all (resolved : odict string Reduced) : W (odict string Reduced) :=
  match resolved with
  | [] => wret []
  | (pkg, platforms_) :: rest =>
      platforms' <- reconcile_platforms platforms_ ;;
      rest' <- reconcile_all rest ;;
      wret ((pkg, platforms') :: rest')
  end.

(** [resolve_conflicts] *)
Definition resolve_conflicts (requirements : odict string (list Meta))
  : W (odict string Reduced) :=
  let prepared := _prepare_metas_for_conflict_resolution requirements in
  resolved <- select_all prepared [] ;;
  reconcile_all resolved.

End Conflicts.
Import Conflicts.


(** ** Specification-side definitions for the combiner *)

Module PinningSpec.
Import Py.

Inductive direction : Type := Upper | Lower.

Definition direction_eqb (d d' : direction) : bool :=
  match d, d' with
  | Upper, Upper | Lower, Lower => true
  | _, _ => false
  end.

Definition direction_of (op : string) : option direction :=
  if str_in op uppers then Some Upper
  else if str_in op lowers then Some Lower
  else None.

(** The bound a comparison pin states, read through [_parse_pinning]. *)
Definition bound_of (p : string) : option (direction * Z) :=
  match _parse_pinning p with
  | Ok (op, v) => option_map (fun d => (d, v)) (direction_of op)
  | Raise _ => None
  end.

(** [_parse_pinning] returns on [p]. *)
Definition parses (p : string) : Prop :=
  exists op v, _parse_pinning p = Ok (op, v).

(** The test the exact branch applies to another pin. *)
Definition flagged (exact_version : Z) (op : string) (ver : Z) : bool :=
  (str_in op uppers && (exact_version >=? ver))
  || (str_in op lowers && (exact_version <=? ver)).

Definition flagged_pin (exact_version : Z) (other : string) : bool :=
  match _parse_pinning other with
  | Ok (op, ver) => flagged exact_version op ver
  | Raise _ => false
  end.

(** Following the spec's words: the version [n] satisfies the bound
    [op ver]. *)
Definition spec_satisfies (n : Z) (op : string) (ver : Z) : bool :=
  if String.eqb op "<" then n <? ver
  else if String.eqb op "<=" then n <=? ver
  else if String.eqb op ">" then ver <? n
  else if String.eqb op ">=" then ver <=? n
  else true.

(** Following the spec's words: some other valid comparison pin states a
    bound that the exact value does not satisfy. *)
Definition spec_exact_contradicted (exact : string) (exact_version : Z)
    (valid : list string) : Prop :=
  exists other op ver,
    In other valid /\ other <> exact /\
    _parse_pinning other = Ok (op, ver) /\ In op operators /\
    spec_satisfies exact_version op ver = false.

(** Following the spec's words: the bound [(d, v')] is of the same direction
    as [(d, v)] and at least as tight. *)
Definition spec_tighter (d : direction) (v : Z) (other : option (direction * Z))
  : bool :=
  match other with
  | Some (d', v') =>
      direction_eqb d d' &&
      match d with
      | Upper => v' <=? v
      | Lower => v <=? v'
      end
  | None => false
  end.

(** Following the spec's words: [p] is made redundant by another pin of
    [valid]. *)
Definition spec_redundant (valid : list string) (p : string) : bool :=
  match bound_of p with
  | Some (d, v) =>
      existsb (fun other => negb (String.eqb other p)
                            && spec_tighter d v (bound_of other)) valid
  | None => false
  end.

Definition spec_surviving (valid : list string) : list string :=
  filter (fun p => negb (spec_redundant valid p)) valid.

(** Following the spec's words: some upper bound is strictly less than
    some lower bound. *)
Definition spec_contradiction (pins : list string) : Prop :=
  exists u l vu vl,
    In u pins /\ In l pins /\
    bound_of u = Some (Upper, vu) /\ bound_of l = Some (Lower, vl) /\ vu < vl.

(** Two pins clash: one is an upper bound, the other a lower bound, and
    the upper bound is strictly less than the lower bound. *)
Definition clash (p q : string) : bool :=
  match bound_of p, bound_of q with
  | Some (Upper, a), Some (Lower, b) => a <? b
  | Some (Lower, a), Some (Upper, b) => b <? a
  | _, _ => false
  end.

(** The numeric threshold of a pin. *)
Definition threshold (p : string) : Z :=
  match _parse_pinning p with
  | Ok (_, v) => v
  | Raise _ => 0
  end.

(** [r] is a pin of [pins] with the smallest threshold. *)
Definition smallest_threshold (pins : list string) (r : string) : Prop :=
  In r pins /\ forall q, In q pins -> threshold r <= threshold q.

(** The pins the fallback chooses from: the inclusive pins if there are
    any, all valid pins otherwise. *)
Definition fallback_candidates (valid : list string) : list string :=
  match filter is_inclusive valid with
  | [] => valid
  | inclusive_pinnings => inclusive_pinnings
  end.

(** The claim on comparison-only inputs, as stated: redundant pins are
    dropped, a contradiction among the survivors raises, and otherwise the
    survivors are joined. *)
Definition joins_survivors (pinnings : list string) : Prop :=
  let valid := filter _is_valid_pinning pinnings in
  (forall p, In p valid -> is_exact p = false) ->
  (spec_contradiction (spec_surviving valid) ->
     exists e, combine_version_pinnings pinnings = Raise e)
  /\ (~ spec_contradiction (spec_surviving valid) ->
     combine_version_pinnings pinnings = Ok (join "," (spec_surviving valid))).

(** The claim on the exact branch, as stated. *)
Definition exact_iff_unsatisfied (pinnings : list string) : Prop :=
  let valid := filter _is_valid_pinning pinnings in
  forall exact rest exact_version,
    filter is_exact valid = exact :: rest ->
    int (tail exact) = Ok exact_version ->
    ((exists e, combine_version_pinnings pinnings = Raise e)
       <-> spec_exact_contradicted exact exact_version valid)
    /\ (~ spec_exact_contradicted exact exact_version valid ->
        combine_version_pinnings pinnings = Ok exact).

(** The claim on the redundancy filter, as stated: everything is
    eliminated only from a single-element list. *)
Definition empties_only_singletons (pinnings : list string) : Prop :=
  let valid := filter _is_valid_pinning pinnings in
  (forall p, In p valid -> is_exact p = false) ->
  valid <> [] ->
  non_redundant valid valid = Ok [] ->
  List.length valid = 1%nat.

(** A character that is neither [<] nor [>], and a string of such
    characters. *)
Definition plain (c : ascii) : bool :=
  negb (Ascii.eqb c "<") && negb (Ascii.eqb c ">").

Fixpoint all_plain (s : string) : bool :=
  match s with
  | EmptyString => true
  | String c s' => plain c && all_plain s'
  end.

End PinningSpec.
Import PinningSpec.

(** ** Specification-side definitions for grouping, selection and
    reconciliation *)

Module ConflictsSpec.

(** The bucket of a platform and source in a grouped structure; empty when
    absent. *)
Definition bucket (g : Grouped) (p : option Platform) (w : CondaPip) : list Meta :=
  match get g p with
  | Some sources => match get sources w with
                    | Some metas => metas
                    | None => []
                    end
  | None => []
  end.

(** The entry of a platform and source in a reduced structure. *)
Definition slot (r : Reduced) (p : option Platform) (w : CondaPip) : option Meta :=
  match get r p with
  | Some sources => get sources w
  | None => None
  end.

(** The entry of a package, platform and source in the output. *)
Definition slot_of (out : odict string Reduced) (pkg : string)
    (p : option Platform) (w : CondaPip) : option Meta :=
  match get out pkg with
  | Some r => slot r p w
  | None => None
  end.

(** The grouper's loop over the platforms of one [Meta], from an arbitrary
    grouped structure. *)
Definition add_meta (g : Grouped) (meta : Meta) : Grouped :=
  fold_left (fun g _platform => append_meta g _platform meta)
            (platforms_or_null meta) g.

(** The copies of [m] that the grouper appends to the bucket of [p] and
    [w]: one for every occurrence of [p] among the platforms of [m]. *)
Definition copies (p : option Platform) (w : CondaPip) (m : Meta) : list Meta :=
  if eq_dec (which m) w
  then repeat m (count_occ eq_dec (platforms_or_null m) p)
  else [].

(** Distinct keys at both levels and no empty bucket, through [get]. *)
Definition grouped_inv (g : Grouped) : Prop :=
  wf g
  /\ forall p sources, get g p = Some sources ->
       wf sources /\ forall w metas, get sources w = Some metas -> metas <> [].

(** [m] belongs to the bucket of platform [p] and source [w]. *)
Definition in_bucket (p : option Platform) (w : CondaPip) (m : Meta) : bool :=
  (if eq_dec (which m) w then true else false)
  && (if in_dec eq_dec p (platforms_or_null m) then true else false).

(** The [Meta] that [select_bucket] keeps. *)
Definition pick (metas : list Meta) : option Meta :=
  if (1 <? List.length metas)%nat
  then hd_error (sort_desc metas)
  else hd_error metas.

(** The warnings that [select_bucket] emits. *)
Definition bucket_warnings (p : option Platform) (w : CondaPip)
    (metas : list Meta) : list Warning :=
  if (1 <? List.length metas)%nat
  then match sort_desc metas with
       | selected_meta :: rest =>
           match filter (fun m => Meta_neqb m selected_meta) rest with
           | [] => []
           | discarded => [PlatformConflict p selected_meta w discarded]
           end
       | [] => []
       end
  else [].

(** The reduced sources hold, key by key, the pick of each bucket. *)
Definition picked_sources (sources : odict CondaPip (list Meta))
    (out : odict CondaPip Meta) : Prop :=
  Forall2 (fun x y => fst x = fst y /\ pick (snd x) = Some (snd y)) sources out.

Definition picked_platforms (data : Grouped) (out : Reduced) : Prop :=
  Forall2 (fun x y => fst x = fst y /\ picked_sources (snd x) (snd y)) data out.

Definition picked_all (prepared : odict string Grouped)
    (resolved : odict string Reduced) : Prop :=
  Forall2 (fun x y => fst x = fst y /\ picked_platforms (snd x) (snd y))
          prepared resolved.

(** The warnings of the buckets of one platform, of one package and of all
    packages, in iteration order. *)
Definition sources_warnings (p : option Platform)
    (sources : odict CondaPip (list Meta)) : list Warning :=
  flat_map (fun wm => bucket_warnings p (fst wm) (snd wm)) sources.

Definition platforms_warnings (data : Grouped) : list Warning :=
  flat_map (fun ps => sources_warnings (fst ps) (snd ps)) data.

Definition all_warnings (prepared : odict string Grouped) : list Warning :=
  flat_map (fun pd => platforms_warnings (snd pd)) prepared.

(** A grouped structure as the grouper builds it: distinct keys at both
    levels and no empty bucket. *)
Definition well_grouped (data : Grouped) : Prop :=
  wf data
  /\ forall p sources, In (p, sources) data ->
       wf sources /\ forall w metas, In (w, metas) sources -> metas <> [].

(** The reconciler maps the sources [s] to [s']. *)
Definition reconciled_sources (s s' : odict CondaPip Meta) : Prop :=
  exists ws, _resolve_conda_pip_conflicts s = (Ok s', ws).

Definition reconciled_platforms (r r' : Reduced) : Prop :=
  Forall2 (fun x y => fst x = fst y /\ reconciled_sources (snd x) (snd y)) r r'.

Definition reconciled_all (resolved out : odict string Reduced) : Prop :=
  Forall2 (fun x y => fst x = fst y /\ reconciled_platforms (snd x) (snd y))
          resolved out.

(** Warnings of the reconciler only. *)
Definition pin_conflicts_only (ws : list Warning) : Prop :=
  forall w, In w ws -> exists a b, w = PinConflict a b.

(** [a] does not sort after [b]: the key of [a] is not less than the key of
    [b]. *)
Definition not_below (a b : Meta) : Prop :=
  key_ltb (sort_key a) (sort_key b) = false.


(** [k1 <= k2] on sort keys. *)
Definition key_leb (k1 k2 : bool * option string) : bool :=
  negb (key_ltb k2 k1).

(** The warning [w] is a discard warning for platform [p] that names [m]. *)
Definition names (p : option Platform) (m : Meta) (w : Warning) : bool :=
  match w with
  | PlatformConflict p' _ _ discarded =>
      (if eq_dec p' p then true else false)
      && (if in_dec eq_dec m discarded then true else false)
  | PinConflict _ _ => false
  end.

(** The number of discard warnings for platform [p] that name [m]. *)
Definition named_count (p : option Platform) (m : Meta) (ws : list Warning) : nat :=
  List.length (filter (names p m) ws).

(** The number of discard warnings, for any platform, that name [m]. *)
Definition discard_count (m : Meta) (ws : list Warning) : nat :=
  List.length
    (filter (fun w => match w with
                      | PlatformConflict _ _ _ discarded =>
                          if in_dec eq_dec m discarded then true else false
                      | PinConflict _ _ => false
                      end) ws).

(** The number of (package, platform, source) slots of the output that
    hold [m]. *)
Definition surviving_count (m : Meta) (out : odict string Reduced) : nat :=
  List.length
    (filter (fun x => if eq_dec x m then true else false)
       (flat_map (fun pr => flat_map (fun ps => values (snd ps)) (snd pr)) out)).

(** Example input: [numpy] pinned and unpinned on two platforms from conda,
    and unpinned for all platforms from pip. *)
Definition numpy_pinned : Meta :=
  mkMeta "numpy" (Some ">=1.20") conda (Some ["linux-64"; "osx-64"]) "numpy >=1.20".
Definition numpy_unpinned : Meta :=
  mkMeta "numpy" None conda (Some ["linux-64"]) "numpy".
Definition numpy_pip : Meta :=
  mkMeta "numpy" None pip None "numpy".
Definition numpy_requirements : odict string (list Meta) :=
  [("numpy", [numpy_unpinned; numpy_pinned; numpy_pip; numpy_unpinned])].

(** A [Meta] for all platforms with the given pin and source. *)
Definition with_pin (p : option string) (w : CondaPip) : Meta :=
  mkMeta "requests" p w None "requests".

Definition other_source (w : CondaPip) : CondaPip :=
  match w with
  | conda => pip
  | pip => conda
  end.

(** Every bucket holds exactly one element: the reduced structure wrapped
    back into single-element buckets. *)
Definition singletons (r : Reduced) : Grouped :=
  map (fun ps => (fst ps, map (fun wm => (fst wm, [snd wm])) (snd ps))) r.

(** The claim on the reconciler with a single pin, as stated: when both
    sources are present and exactly one pin is non-null, only the pinned
    entry is kept. *)
Definition keeps_only_the_pinned (sources : odict CondaPip Meta) : Prop :=
  forall c p,
    get sources conda = Some c -> get sources pip = Some p ->
    (pin c <> None -> pin p = None ->
       fst (_resolve_conda_pip_conflicts sources) = Ok [(conda, c)])
    /\ (pin p <> None -> pin c = None ->
       fst (_resolve_conda_pip_conflicts sources) = Ok [(pip, p)]).

(** The claim on the reconciler with two different pins, as stated: when
    both pins are non-null and different, both entries are kept with a
    conflict warning. *)
Definition keeps_both_when_different (sources : odict CondaPip Meta) : Prop :=
  forall c p,
    get sources conda = Some c -> get sources pip = Some p ->
    pin c <> None -> pin p <> None -> pin c <> pin p ->
    _resolve_conda_pip_conflicts sources
    = (Ok [(conda, c); (pip, p)], [PinConflict (pin c) (pin p)]).

(** The claim on the whole resolution, as stated: every input [Meta] is in
    exactly one surviving slot and no discard warning, or in no surviving
    slot and exactly one discard warning. *)
Definition survives_or_is_discarded (requirements : odict string (list Meta)) : Prop :=
  forall out ws pkg metas m,
    resolve_conflicts requirements = (Ok out, ws) ->
    In (pkg, metas) requirements -> In m metas ->
    (surviving_count m out = 1%nat /\ discard_count m ws = 0%nat)
    \/ (surviving_count m out = 0%nat /\ discard_count m ws = 1%nat).

End ConflictsSpec.
Import ConflictsSpec.

(** ** Utilities ([unidep/utils.py]) *)

Module Utils.

(** The exceptions of the utilities: [ValueError] with its message, and the
    [TypeError] of an ordering comparison with [None]. *)
Inductive error : Type :=
| ValueError (msg : string)
| TypeError.

Inductive outcome (A : Type) : Type :=
| Returns (a : A)
| Raises (e : error).
Arguments Returns {A} a.
Arguments Raises {A} e.

Definition obind {A B : Type} (o : outcome A) (k : A -> outcome B) : outcome B :=
  match o with
  | Returns a => k a
  | Raises e => Raises e
  end.

(** [c.lower()] for an ASCII character. *)
Definition lower_char (c : ascii) : ascii :=
  let n := N_of_ascii c in
  if ((65 <=? n) && (n <=? 90))%N then ascii_of_N (n + 32) else c.

(** [s.lower()] *)
Fixpoint lower (s : string) : string :=
  match s with
  | EmptyString => EmptyString
  | String c s' => String (lower_char c) (lower s')
  end.

(** [identify_current_platform], as a function of the values of
    [platform.system()] and [platform.machine()]. *)
Definition identify_current_platform (system_name machine_name : string)
  : outcome Platform :=
  let system := lower system_name in
  let architecture := lower machine_name in
  if String.eqb system "linux" then
    if String.eqb architecture "x86_64" then Returns "linux-64"
    else if String.eqb architecture "aarch64" then Returns "linux-aarch64"
    else if String.eqb architecture "ppc64le" then Returns "linux-ppc64le"
    else Raises (ValueError "Unsupported Linux architecture")
  else if String.eqb system "darwin" then
    if String.eqb architecture "x86_64" then Returns "osx-64"
    else if String.eqb architecture "arm64" then Returns "osx-arm64"
    else Raises (ValueError "Unsupported macOS architecture")
  else if String.eqb system "windows" then
    if Py.contains "64" architecture then Returns "win-64"
    else Raises (ValueError "Unsupported Windows architecture")
  else Raises (ValueError "Unsupported operating system").

(** The platform identifiers [identify_current_platform] can return. *)
Definition identified_platforms : list Platform :=
  ["linux-64"; "linux-aarch64"; "linux-ppc64le"; "osx-64"; "osx-arm64"; "win-64"].

(** The ASCII characters [str.strip()] removes. *)
Definition is_strip_space (c : ascii) : bool :=
  let n := N_of_ascii c in
  (((9 <=? n) && (n <=? 13)) || ((28 <=? n) && (n <=? 32)))%N.

Fixpoint lstrip (s : string) : string :=
  match s with
  | EmptyString => EmptyString
  | String c s' => if is_strip_space c then lstrip s' else s
  end.

Fixpoint rstrip (s : string) : string :=
  match s with
  | EmptyString => EmptyString
  | String c s' =>
      match rstrip s' with
      | EmptyString => if is_strip_space c then EmptyString else String c EmptyString
      | r => String c r
      end
  end.

(** [s.strip()] *)
Definition strip (s : string) : string := rstrip (lstrip s).

(** [line.strip().startswith("#")] *)
Definition is_comment_line (line : string) : bool :=
  Py.startswith (strip line) "#".

(** [next((i for i, line in enumerate(lines) if not
    line.strip().startswith("#")), len(lines))] *)
Fixpoint first_non_comment (lines : list string) : nat :=
  match lines with
  | [] => O
  | line :: rest =>
      if is_comment_line line then S (first_non_comment rest) else O
  end.

(** [remove_top_comments], on the file seen as the list of its lines: what
    [readlines] returns is mapped to what [writelines] writes. *)
Definition remove_top_comments (lines : list string) : list string :=
  skipn (first_non_comment lines) lines.

(** [sorted(xs)] for a list of strings: the stable ascending insertion sort,
    using [<] only. *)
Fixpoint insert_str (x : string) (sorted : list string) : list string :=
  match sorted with
  | [] => [x]
  | z :: rest => if String.ltb z x then z :: insert_str x rest else x :: sorted
  end.

Definition sort_strings (xs : list string) : list string :=
  fold_right insert_str [] xs.

(** [x < y] on platform identifiers or [None]: an ordering comparison with
    [None] raises [TypeError]. *)
Definition platform_lt (x y : option Platform) : outcome bool :=
  match x, y with
  | Some a, Some b => Returns (String.ltb a b)
  | _, _ => Raises TypeError
  end.

(** [sorted(platforms)] for a list of platform identifiers or [None]: the
    same insertion sort, with the comparison that can raise. *)
Fixpoint insert_platform (x : option Platform) (sorted : list (option Platform))
  : outcome (list (option Platform)) :=
  match sorted with
  | [] => Returns [x]
  | z :: rest =>
      obind (platform_lt z x) (fun b =>
        if b
        then obind (insert_platform x rest) (fun r => Returns (z :: r))
        else Returns (x :: sorted))
  end.

Fixpoint sorted_platforms (platforms : list (option Platform))
  : outcome (list (option Platform)) :=
  match platforms with
  | [] => Returns []
  | x :: rest => obind (sorted_platforms rest) (insert_platform x)
  end.

(** A key of [PEP508_MARKERS]: a platform identifier or a tuple of them. *)
Inductive marker_key : Type :=
| Single (p : Platform)
| Combined (ps : list Platform).

#[export] Instance marker_key_EqDec : EqDec marker_key.
Proof. intros x y. decide equality; apply eq_dec. Defined.

(** The platform identifiers of a tuple, when none of its elements is
    [None]. *)
Fixpoint all_platforms (t : list (option Platform)) : option (list Platform) :=
  match t with
  | [] => Some []
  | Some p :: rest => option_map (cons p) (all_platforms rest)
  | None :: _ => None
  end.

Section Markers.
(** The table [PEP508_MARKERS] of [unidep/platform_definitions.py], which is
    not part of the sources at hand. *)
Variable PEP508_MARKERS : odict marker_key string.

(** [PEP508_MARKERS.get(tuple)] for a tuple of identifiers or [None]; a tuple
    that holds [None] is no key of the table. *)
Definition tuple_marker (t : list (option Platform)) : option string :=
  match all_platforms t with
  | Some ps => get PEP508_MARKERS (Combined ps)
  | None => None
  end.

(** [[PEP508_MARKERS[platform]] if platform in PEP508_MARKERS else []] *)
Definition single_marker (platform : option Platform) : list string :=
  match platform with
  | Some p => match get PEP508_MARKERS (Single p) with
              | Some marker => [marker]
              | None => []
              end
  | None => []
  end.

(** [build_pep508_environment_marker], for a list of platform identifiers
    or [None] (as the keys of a resolved package are). *)
Definition build_pep508_environment_marker (platforms : list (option Platform))
  : outcome string :=
  obind (sorted_platforms platforms) (fun sorted_ =>
    match tuple_marker sorted_ with
    | Some marker => Returns marker
    | None =>
        obind (sorted_platforms sorted_) (fun again =>
          Returns (Py.join " or " (flat_map single_marker again)))
    end).
End Markers.

End Utils.
Import Utils.

(** ** The setuptools integration ([unidep/_setuptools_integration.py]) *)

Module Setuptools.
Section Dependencies.
Variable PEP508_MARKERS : odict marker_key string.
(** [spec.name_with_pin(is_pip=True)], a method of the class of
    [unidep/platform_definitions.py]. *)
Variable name_with_pin : Meta -> string.

(** The loop that fills [to_process] with the pip entry of every platform
    that has one. *)
Fixpoint collect_pip (platform_data : Reduced)
    (to_process : odict (option Platform) Meta) : odict (option Platform) Meta :=
  match platform_data with
  | [] => to_process
  | (_platform, sources) :: rest =>
      match get sources pip with
      | Some pip_spec => collect_pip rest (set to_process _platform pip_spec)
      | None => collect_pip rest to_process
      end
  end.

(** The value the loop variable [_platform] keeps after the loop over
    [platform_data.items()]: the last key.  It is read only when
    [to_process], hence [platform_data], is not empty. *)
Definition last_platform (platform_data : Reduced) : option Platform :=
  match rev platform_data with
  | (_platform, _) :: _ => _platform
  | [] => None
  end.

(** [f"{dep_str}; {selector}"] *)
Definition with_selector (dep_str selector : string) : string :=
  dep_str ++ "; " ++ selector.

(** The loop [for _platform, pip_spec in to_process.items()]. *)
Fixpoint per_platform (to_process : odict (option Platform) Meta)
  : outcome (list string) :=
  match to_process with
  | [] => Returns []
  | (_platform, pip_spec) :: rest =>
      let dep_str := name_with_pin pip_spec in
      obind (match _platform with
             | Some _ =>
                 obind (build_pep508_environment_marker PEP508_MARKERS [_platform])
                       (fun selector => Returns (with_selector dep_str selector))
             | None => Returns dep_str
             end)
        (fun dep => obind (per_platform rest) (fun deps => Returns (dep :: deps)))
  end.

(** The body of the loop over [resolved.values()]: the strings one package
    appends to [pip_deps]. *)
Definition package_deps (platform_data : Reduced) : outcome (list string) :=
  let to_process := collect_pip platform_data [] in
  match to_process with
  | [] => Returns []
  | (_, first_spec) :: _ =>
      if forallb (fun ps => if eq_dec (snd ps) first_spec then true else false)
                 to_process
      then
        let dep_str := name_with_pin first_spec in
        match last_platform platform_data with
        | Some _ =>
            obind (build_pep508_environment_marker PEP508_MARKERS (keys to_process))
                  (fun selector => Returns [with_selector dep_str selector])
        | None => Returns [dep_str]
        end
      else per_platform to_process
  end.

Fixpoint all_deps (packages : list Reduced) : outcome (list string) :=
  match packages with
  | [] => Returns []
  | platform_data :: rest =>
      obind (package_deps platform_data) (fun deps =>
        obind (all_deps rest) (fun more => Returns (deps ++ more)%list))
  end.

(** [filter_python_dependencies] *)
Definition filter_python_dependencies (resolved : odict string Reduced)
  : outcome (list string) :=
  obind (all_deps (values resolved)) (fun pip_deps =>
    Returns (sort_strings pip_deps)).

End Dependencies.
End Setuptools.
Import Setuptools.

(** Vocabulary for the statements about the pip dependencies. *)
Module SetuptoolsSpec.

(** [dep] is the rendering of the pip entry [m], alone or followed by a
    selector. *)
Definition renders (name_with_pin : Meta -> string) (m : Meta) (dep : string) : Prop :=
  dep = name_with_pin m
  \/ exists selector, dep = with_selector (name_with_pin m) selector.

(** Platforms agree with the entries: every pip entry sits under a platform
    it applies to. *)
Definition well_placed (platform_data : Reduced) : Prop :=
  forall p sources m,
    In (p, sources) platform_data -> get sources pip = Some m ->
    In p (platforms_or_null m).

(** The strings in ascending order, as [sorted] leaves them. *)
Definition ascending (l : list string) : Prop :=
  Sorted (fun a b => String.ltb b a = false) l.

(** A marker table and a rendering for the examples. *)
Definition example_markers : odict marker_key string :=
  [(Single "linux-64", "sys_platform == 'linux' and platform_machine == 'x86_64'");
   (Single "osx-64", "sys_platform == 'darwin' and platform_machine == 'x86_64'");
   (Combined ["linux-64"; "osx-64"], "platform_machine == 'x86_64'")].

Definition example_name_with_pin (m : Meta) : string :=
  match pin m with
  | Some p => name m ++ " " ++ p
  | None => name m
  end.

(** A pip requirement of one platform followed by a conda requirement of
    all platforms, and the other way round. *)
Definition scipy_pip_linux : Meta :=
  mkMeta "scipy" (Some ">=1.0") pip (Some ["linux-64"]) "scipy >=1.0".
Definition scipy_conda : Meta :=
  mkMeta "scipy" None conda None "scipy".
Definition scipy_pip : Meta :=
  mkMeta "scipy" None pip None "scipy".
Definition scipy_conda_linux : Meta :=
  mkMeta "scipy" None conda (Some ["linux-64"]) "scipy".

End SetuptoolsSpec.
Import SetuptoolsSpec.

(** * Properties *)

(** Case analysis on the membership of a concrete list. *)
Ltac list_cases H :=
  repeat match type of H with
         | In _ (_ :: _) => destruct H as [<- | H]
         | _ \/ _ => destruct H as [<- | H]
         | In _ [] => destruct H
         | False => destruct H
         end.

(** ** Strings *)

Section StringFacts.
Import Py.

Lemma not_plain_inv c : plain c = false -> c = "<"%char \/ c = ">"%char.
Proof.
  unfold plain. intros H.
  apply andb_false_iff in H as [H | H]; apply negb_false_iff, Ascii.eqb_eq in H; auto.
Qed.

Lemma digit_plain c d : digit_val c = Some d -> plain c = true.
Proof.
  intros H. destruct (plain c) eqn:E; [reflexivity|].
  apply not_plain_inv in E as [-> | ->]; discriminate H.
Qed.

Lemma space_plain c : is_space c = true -> plain c = true.
Proof.
  intros H. destruct (plain c) eqn:E; [reflexivity|].
  apply not_plain_inv in E as [-> | ->]; discriminate H.
Qed.

Lemma underscore_plain c : is_underscore c = true -> plain c = true.
Proof.
  intros H. apply Ascii.eqb_eq in H. subst. reflexivity.
Qed.

Lemma all_spaces_plain s : all_spaces s = true -> all_plain s = true.
Proof.
  induction s as [|c s IH]; simpl; [reflexivity|].
  intros H. apply andb_true_iff in H as [Hc Hs].
  rewrite (space_plain _ Hc), (IH Hs). reflexivity.
Qed.

Lemma scan_digits_plain s : forall b acc v,
  scan_digits b acc s = Some v -> all_plain s = true.
Proof.
  induction s as [|c s IH]; intros b acc v H; [reflexivity|].
  cbn [scan_digits] in H. cbn [all_plain].
  destruct (digit_val c) as [d|] eqn:Ed.
  - rewrite (digit_plain _ _ Ed). simpl. eauto.
  - destruct b; [discriminate|].
    destruct (is_underscore c) eqn:Eu.
    + rewrite (underscore_plain _ Eu). simpl. eauto.
    + destruct (all_spaces (String c s)) eqn:Es; [|discriminate].
      apply all_spaces_plain in Es. exact Es.
Qed.

Lemma skip_spaces_plain s : all_plain (skip_spaces s) = true -> all_plain s = true.
Proof.
  induction s as [|c s IH]; simpl; [reflexivity|].
  destruct (is_space c) eqn:Es.
  - intros H. rewrite (space_plain _ Es), (IH H). reflexivity.
  - simpl. auto.
Qed.

Lemma split_sign_plain s :
  all_plain (snd (split_sign s)) = true ->
  (s = snd (split_sign s) \/ exists c, plain c = true /\ s = String c (snd (split_sign s))).
Proof.
  intros _. destruct s as [|c s]; [left; reflexivity|].
  destruct c as [[] [] [] [] [] [] [] []]; simpl; auto;
    right; eexists; (split; [|reflexivity]); reflexivity.
Qed.

(** A string accepted by [int()] holds no comparison sign. *)
Lemma parse_int_plain s v : parse_int s = Some v -> all_plain s = true.
Proof.
  unfold parse_int. intros H.
  apply skip_spaces_plain.
  destruct (split_sign (skip_spaces s)) as [neg body] eqn:E.
  assert (Hb : all_plain body = true).
  { destruct body as [|c r]; [reflexivity|].
    destruct (digit_val c) as [d|] eqn:Ed; [|discriminate].
    destruct (scan_digits false d r) as [w|] eqn:Es; [|discriminate].
    simpl. rewrite (digit_plain _ _ Ed), (scan_digits_plain _ _ _ _ Es). reflexivity. }
  pose proof (split_sign_plain (skip_spaces s)) as Hs.
  rewrite E in Hs. simpl in Hs.
  destruct (Hs Hb) as [-> | [c [Hc ->]]]; [exact Hb|].
  simpl. rewrite Hc, Hb. reflexivity.
Qed.

Lemma prefix_first_char c op s :
  prefix (String c op) s = true -> exists s', s = String c s'.
Proof.
  destruct s as [|c' s']; simpl; [discriminate|].
  destruct (ascii_dec c c'); [subst; eauto | discriminate].
Qed.

(** A plain string contains no operator. *)
Lemma plain_contains s c op :
  plain c = false -> all_plain s = true -> contains (String c op) s = false.
Proof.
  intros Hc. induction s as [|c' s IH]; intros H.
  - reflexivity.
  - cbn [contains]. cbn [all_plain] in H.
    apply andb_true_iff in H as [Hc' Hs].
    rewrite (IH Hs), orb_false_r.
    destruct (prefix (String c op) (String c' s)) eqn:E; [|reflexivity].
    apply prefix_first_char in E as [s' E]. inversion E; subst. congruence.
Qed.

Lemma plain_no_operator s op :
  all_plain s = true -> In op operators -> contains op s = false.
Proof.
  intros H Hop. simpl in Hop.
  destruct Hop as [<- | [<- | [<- | [<- | []]]]];
    apply plain_contains; auto.
Qed.

Lemma startswith_eq p : startswith p "=" = true -> p = String "=" (tail p).
Proof.
  unfold startswith. intros H.
  apply (prefix_first_char "=" "" p) in H as [s' ->]. reflexivity.
Qed.

Lemma startswith_contains p : startswith p "=" = true -> contains "=" p = true.
Proof.
  intros H. pose proof (startswith_eq _ H) as E. rewrite E.
  unfold startswith in H. rewrite E in H.
  cbn [contains]. rewrite H. reflexivity.
Qed.

End StringFacts.

(** ** The combiner *)

Section PinningFacts.
Import Py.

Lemma parse_with_plain ops p :
  incl ops operators -> all_plain p = true -> parse_with ops p = Ok ("", 0).
Proof.
  induction ops as [|op ops IH]; intros Hi Hp; [reflexivity|].
  cbn [parse_with].
  rewrite (plain_no_operator p op Hp) by (apply Hi; left; reflexivity).
  apply IH; [|exact Hp]. intros o Ho. apply Hi. right. exact Ho.
Qed.

Lemma parse_with_op ops p op v :
  parse_with ops p = Ok (op, v) ->
  In op ops \/ (op = "" /\ v = 0 /\ forall o, In o ops -> contains o p = false).
Proof.
  induction ops as [|o ops IH]; cbn [parse_with]; intros H.
  - inversion H; subst. right. repeat split. intros o [].
  - destruct (contains o p) eqn:Ec.
    + destruct (int (remove o p)) as [w|e]; simpl in H; [|discriminate].
      inversion H; subst. left. left. reflexivity.
    + destruct (IH H) as [Hin | (-> & -> & Hno)].
      * left. right. exact Hin.
      * right. repeat split. intros o' [<- | Ho']; auto.
Qed.

Lemma exact_valid_inv p :
  _is_valid_pinning p = true -> is_exact p = true ->
  exists n, int (tail p) = Ok n /\ _parse_pinning p = Ok ("", 0).
Proof.
  unfold _is_valid_pinning, is_exact. intros Hv He.
  rewrite (startswith_contains _ He), He in Hv. simpl in Hv.
  unfold int in *. destruct (parse_int (tail p)) as [n|] eqn:Ep; [|discriminate].
  exists n. split; [reflexivity|].
  apply parse_with_plain; [apply incl_refl|].
  rewrite (startswith_eq _ He). simpl.
  apply (parse_int_plain _ _ Ep).
Qed.

Lemma comparison_valid_inv p :
  _is_valid_pinning p = true -> is_exact p = false ->
  exists op v, _parse_pinning p = Ok (op, v) /\ In op operators.
Proof.
  unfold _is_valid_pinning, is_exact. intros Hv He.
  rewrite He, andb_false_r in Hv.
  destruct (existsb (fun op => contains op p) operators) eqn:Ee; [|discriminate].
  destruct (_parse_pinning p) as [[op v]|e] eqn:Ep; [|discriminate].
  exists op, v. split; [reflexivity|].
  destruct (parse_with_op _ _ _ _ Ep) as [Hin | (_ & _ & Hno)]; [exact Hin|].
  apply existsb_exists in Ee as [o [Ho Hc]].
  rewrite (Hno o Ho) in Hc. discriminate.
Qed.

Lemma valid_parses p : _is_valid_pinning p = true -> parses p.
Proof.
  intros Hv. destruct (is_exact p) eqn:He.
  - destruct (exact_valid_inv p Hv He) as [n [_ Hp]]. exists "", 0. exact Hp.
  - destruct (comparison_valid_inv p Hv He) as [op [v [Hp _]]]. exists op, v. exact Hp.
Qed.

Lemma filter_valid_parses pinnings :
  Forall parses (filter _is_valid_pinning pinnings).
Proof.
  apply Forall_forall. intros p Hp. apply filter_In in Hp as [_ Hv].
  apply valid_parses, Hv.
Qed.

Lemma operator_direction op :
  In op operators -> exists d, direction_of op = Some d.
Proof.
  simpl. intros [<- | [<- | [<- | [<- | []]]]]; eexists; reflexivity.
Qed.

Lemma comparison_bound p :
  _is_valid_pinning p = true -> is_exact p = false ->
  exists d v, bound_of p = Some (d, v).
Proof.
  intros Hv He.
  destruct (comparison_valid_inv p Hv He) as [op [v [Hp Hop]]].
  destruct (operator_direction op Hop) as [d Hd].
  exists d, v. unfold bound_of. rewrite Hp, Hd. reflexivity.
Qed.

Lemma str_in_uppers op :
  str_in op uppers = true -> str_in op lowers = false.
Proof.
  unfold str_in, uppers, lowers. simpl. rewrite !orb_false_r.
  intros H. apply orb_true_iff in H as [H | H];
    apply String.eqb_eq in H; subst; reflexivity.
Qed.

(** The test of [_is_redundant] against one other pin is the tightness
    test of the specification. *)
Lemma redundant_test op v oop ov :
  (str_in op uppers && str_in oop uppers && (v >=? ov),
   str_in op lowers && str_in oop lowers && (v <=? ov))
  = match direction_of op with
    | Some Upper => (spec_tighter Upper v (option_map (fun d => (d, ov)) (direction_of oop)), false)
    | Some Lower => (false, spec_tighter Lower v (option_map (fun d => (d, ov)) (direction_of oop)))
    | None => (false, false)
    end.
Proof.
  unfold direction_of. rewrite Z.geb_leb.
  destruct (str_in op uppers) eqn:Eu.
  - rewrite (str_in_uppers _ Eu). simpl.
    destruct (str_in oop uppers) eqn:Eou; simpl; [reflexivity|].
    destruct (str_in oop lowers); reflexivity.
  - simpl. destruct (str_in op lowers) eqn:El; simpl; [|reflexivity].
    destruct (str_in oop uppers) eqn:Eou; simpl.
    + rewrite (str_in_uppers _ Eou). reflexivity.
    + destruct (str_in oop lowers); reflexivity.
Qed.

Lemma redundant_loop_spec p op v others :
  Forall parses others ->
  redundant_loop p op v others
  = Ok match direction_of op with
       | Some d => existsb (fun other => negb (String.eqb other p)
                                         && spec_tighter d v (bound_of other)) others
       | None => false
       end.
Proof.
  induction 1 as [|other others [oop [ov Hp]] _ IH].
  - simpl. destruct (direction_of op); reflexivity.
  - cbn [redundant_loop existsb].
    destruct (String.eqb other p) eqn:Eq.
    + rewrite IH. simpl. reflexivity.
    + rewrite Hp. cbn [rbind negb andb].
      pose proof (redundant_test op v oop ov) as Ht.
      unfold bound_of. rewrite Hp.
      destruct (direction_of op) as [[|]|];
        apply pair_equal_spec in Ht as [H1 H2]; rewrite H1, H2, IH.
      * destruct (spec_tighter Upper v _); reflexivity.
      * destruct (spec_tighter Lower v _); reflexivity.
      * reflexivity.
Qed.

Lemma is_redundant_spec p valid :
  parses p -> Forall parses valid ->
  _is_redundant p valid = Ok (spec_redundant valid p).
Proof.
  intros [op [v Hp]] Hv. unfold _is_redundant, spec_redundant, bound_of.
  rewrite Hp. cbn [rbind]. rewrite (redundant_loop_spec _ _ _ _ Hv).
  destruct (direction_of op); reflexivity.
Qed.

Lemma non_redundant_spec candidates valid :
  Forall parses candidates -> Forall parses valid ->
  non_redundant candidates valid
  = Ok (filter (fun p => negb (spec_redundant valid p)) candidates).
Proof.
  intros Hc Hv. induction Hc as [|p candidates Hp _ IH]; [reflexivity|].
  cbn [non_redundant filter].
  rewrite (is_redundant_spec _ _ Hp Hv), IH. cbn [rbind].
  destruct (spec_redundant valid p); reflexivity.
Qed.

Lemma clash_test p q op1 v1 op2 v2 :
  _parse_pinning p = Ok (op1, v1) -> _parse_pinning q = Ok (op2, v2) ->
  (str_in op1 uppers && str_in op2 lowers && (v1 <? v2))
  || (str_in op2 uppers && str_in op1 lowers && (v2 <? v1))
  = clash p q.
Proof.
  intros H1 H2. unfold clash, bound_of, direction_of. rewrite H1, H2.
  destruct (str_in op1 uppers) eqn:E1; [rewrite (str_in_uppers _ E1)|];
    (destruct (str_in op2 uppers) eqn:E2; [rewrite (str_in_uppers _ E2)|]);
    cbn [andb orb option_map]; try reflexivity.
  - destruct (str_in op2 lowers); cbn [andb orb option_map];
      [rewrite orb_false_r|]; reflexivity.
  - destruct (str_in op1 lowers); cbn [andb orb option_map]; reflexivity.
  - destruct (str_in op1 lowers), (str_in op2 lowers); reflexivity.
Qed.

Lemma clash_sym p q : clash p q = clash q p.
Proof.
  unfold clash.
  destruct (bound_of p) as [[[|] a]|], (bound_of q) as [[[|] b]|]; reflexivity.
Qed.

Lemma clash_irrefl p : clash p p = false.
Proof.
  unfold clash. destruct (bound_of p) as [[[|] a]|]; reflexivity.
Qed.

Lemma spec_contradiction_clash pins :
  spec_contradiction pins <->
  exists p q, In p pins /\ In q pins /\ clash p q = true.
Proof.
  split.
  - intros (u & l & vu & vl & Hu & Hl & Bu & Bl & Hlt).
    exists u, l. repeat split; auto.
    unfold clash. rewrite Bu, Bl. apply Z.ltb_lt, Hlt.
  - intros (p & q & Hp & Hq & Hc). unfold clash in Hc.
    destruct (bound_of p) as [[[|] a]|] eqn:Bp; try discriminate;
      destruct (bound_of q) as [[[|] b]|] eqn:Bq; try discriminate;
      apply Z.ltb_lt in Hc.
    + exists p, q, a, b. auto.
    + exists q, p, b, a. auto.
Qed.

Lemma contradiction_inner_spec pin later :
  parses pin -> Forall parses later ->
  (contradiction_inner pin later = Ok tt
   /\ forall q, In q later -> clash pin q = false)
  \/ (exists q, In q later /\ clash pin q = true
      /\ contradiction_inner pin later = Raise (Contradictory pin q)).
Proof.
  intros [op1 [v1 H1]] Hl.
  induction Hl as [|q later [op2 [v2 H2]] _ IH].
  - left. split; [reflexivity|]. intros q [].
  - cbn [contradiction_inner]. rewrite H1, H2. cbn [rbind].
    rewrite (clash_test _ _ _ _ _ _ H1 H2).
    destruct (clash pin q) eqn:Ec.
    + right. exists q. repeat split; auto. left; reflexivity.
    + destruct IH as [[Hok Hno] | (q' & Hq' & Hc' & Hr)].
      * left. split; [exact Hok|]. intros q' [<- | Hq']; auto.
      * right. exists q'. repeat split; auto. right; exact Hq'.
Qed.

Lemma contradiction_check_spec pins :
  Forall parses pins ->
  (contradiction_check pins = Ok tt
   /\ forall p q, In p pins -> In q pins -> clash p q = false)
  \/ (exists p q, In p pins /\ In q pins /\ clash p q = true
      /\ contradiction_check pins = Raise (Contradictory p q)).
Proof.
  induction 1 as [|pin later Hp Hl IH].
  - left. split; [reflexivity|]. intros p q [].
  - cbn [contradiction_check].
    destruct (contradiction_inner_spec pin later Hp Hl)
      as [[Hok Hno] | (q & Hq & Hc & Hr)].
    + rewrite Hok. cbn [rbind].
      destruct IH as [[Hok' Hno'] | (p & q & Hp' & Hq' & Hc' & Hr')].
      * left. split; [exact Hok'|].
        intros p q [<- | Hp'] [<- | Hq']; auto.
        -- apply clash_irrefl.
        -- rewrite clash_sym. auto.
      * right. exists p, q. repeat split; auto; right; assumption.
    + right. exists pin, q. rewrite Hr. repeat split; auto.
      * left; reflexivity.
      * right; exact Hq.
Qed.

Lemma exact_check_spec exact n valid :
  Forall parses valid ->
  (exact_check exact n valid = Ok tt
   /\ forall other, In other valid -> other <> exact -> flagged_pin n other = false)
  \/ (exists other, In other valid /\ other <> exact /\ flagged_pin n other = true
      /\ exact_check exact n valid = Raise (Contradictory exact other)).
Proof.
  induction 1 as [|other valid [op [ver Hp]] _ IH].
  - left. split; [reflexivity|]. intros other [].
  - cbn [exact_check].
    destruct (String.eqb other exact) eqn:Eq; cbn [negb].
    + apply String.eqb_eq in Eq. subst other.
      destruct IH as [[Hok Hno] | (o & Ho & Hne & Hf & Hr)].
      * left. split; [exact Hok|]. intros o [<- | Ho] Hne; [congruence | auto].
      * right. exists o. repeat split; auto. right; exact Ho.
    + apply String.eqb_neq in Eq. rewrite Hp. cbn [rbind].
      fold (flagged n op ver).
      destruct (flagged n op ver) eqn:Ef.
      * right. exists other. repeat split; auto; [left; reflexivity|].
        unfold flagged_pin. rewrite Hp. exact Ef.
      * destruct IH as [[Hok Hno] | (o & Ho & Hne & Hf & Hr)].
        -- left. split; [exact Hok|]. intros o [<- | Ho] Hne; [|auto].
           unfold flagged_pin. rewrite Hp. exact Ef.
        -- right. exists o. repeat split; auto. right; exact Ho.
Qed.

Lemma unsatisfied_flagged n op ver :
  In op operators -> spec_satisfies n op ver = false -> flagged n op ver = true.
Proof.
  unfold flagged. rewrite Z.geb_leb.
  intros [<- | [<- | [<- | [<- | []]]]]; unfold spec_satisfies, str_in; cbn;
    intros H; rewrite ?orb_false_r; apply Z.leb_le;
    first [apply Z.leb_gt in H | apply Z.ltb_ge in H]; lia.
Qed.

Lemma min_by_spec rest : forall best,
  exists k, In (k, min_by best rest) (best :: rest)
            /\ forall x, In x (best :: rest) -> k <= fst x.
Proof.
  induction rest as [|x rest IH]; intros best.
  - exists (fst best). simpl. split.
    + left. destruct best; reflexivity.
    + intros y [<- | []]. lia.
  - cbn [min_by]. destruct (fst x <? fst best) eqn:E.
    + apply Z.ltb_lt in E. destruct (IH x) as [k [Hin Hmin]].
      exists k. split.
      * right. exact Hin.
      * intros y [<- | Hy]; [|auto].
        specialize (Hmin x (or_introl eq_refl)). lia.
    + apply Z.ltb_ge in E. destruct (IH best) as [k [Hin Hmin]].
      exists k. split.
      * destruct Hin as [Hin | Hin]; [left; exact Hin | right; right; exact Hin].
      * intros y [<- | [<- | Hy]].
        -- apply Hmin. left; reflexivity.
        -- specialize (Hmin best (or_introl eq_refl)). lia.
        -- apply Hmin. right; exact Hy.
Qed.

Lemma keyed_spec pins :
  Forall parses pins -> keyed pins = Ok (map (fun p => (threshold p, p)) pins).
Proof.
  induction 1 as [|p pins [op [v Hp]] _ IH]; [reflexivity|].
  cbn [keyed map]. unfold threshold at 1. rewrite Hp, IH. reflexivity.
Qed.

Lemma min_by_version_spec pins :
  Forall parses pins -> pins <> [] ->
  exists r, min_by_version pins = Ok r /\ smallest_threshold pins r.
Proof.
  intros Hp Hne. unfold min_by_version. rewrite (keyed_spec _ Hp). cbn [rbind].
  destruct pins as [|p pins]; [congruence|]. cbn [map].
  eexists. split; [reflexivity|].
  destruct (min_by_spec (map (fun p => (threshold p, p)) pins) (threshold p, p))
    as [k [Hin Hmin]].
  change ((threshold p, p) :: map (fun p => (threshold p, p)) pins)
    with (map (fun p => (threshold p, p)) (p :: pins)) in *.
  apply in_map_iff in Hin as [r [Hr Hin]]. injection Hr as Hk Hm.
  rewrite <- Hm. split; [exact Hin|].
  intros q Hq. rewrite Hk.
  apply (Hmin (threshold q, q)), in_map_iff. exists q. auto.
Qed.

End PinningFacts.

Section CombinerTheorems.
Import Py.

Lemma filter_none {A : Type} (f : A -> bool) (l : list A) :
  (forall x, In x l -> f x = false) -> filter f l = [].
Proof.
  induction l as [|x l IH]; intros H; [reflexivity|].
  simpl. rewrite (H x (or_introl eq_refl)). apply IH.
  intros y Hy. apply H. right. exact Hy.
Qed.

Lemma fallback_candidates_incl valid :
  incl (fallback_candidates valid) valid.
Proof.
  unfold fallback_candidates.
  destruct (filter is_inclusive valid) as [|p l] eqn:E; [apply incl_refl|].
  rewrite <- E. intros q Hq. apply filter_In in Hq. tauto.
Qed.

Lemma fallback_candidates_nonempty valid :
  valid <> [] -> fallback_candidates valid <> [].
Proof.
  unfold fallback_candidates.
  destruct (filter is_inclusive valid); [auto | discriminate].
Qed.

(** Without an exact pin, [combine_version_pinnings] is the contradiction
    check on the surviving pins followed by the join or the fallback. *)
Lemma combine_comparisons pinnings :
  let valid := filter _is_valid_pinning pinnings in
  (forall p, In p valid -> is_exact p = false) ->
  valid <> [] ->
  combine_version_pinnings pinnings
  = rbind (contradiction_check (spec_surviving valid))
      (fun _ => match spec_surviving valid with
                | [] => min_by_version (fallback_candidates valid)
                | _ => Ok (join "," (spec_surviving valid))
                end).
Proof.
  intros valid Hno Hne. unfold combine_version_pinnings. fold valid.
  destruct valid as [|v0 vs] eqn:Ev; [congruence|]. rewrite <- Ev in *.
  rewrite (filter_none _ _ Hno).
  assert (Hp : Forall parses valid) by apply filter_valid_parses.
  rewrite (non_redundant_spec _ _ Hp Hp). cbn [rbind].
  fold (spec_surviving valid).
  destruct (contradiction_check (spec_surviving valid)); cbn [rbind]; [|reflexivity].
  destruct (spec_surviving valid); [|reflexivity].
  unfold fallback_candidates. destruct (filter is_inclusive valid); reflexivity.
Qed.

(** With an exact pin, [combine_version_pinnings] checks every other valid
    pin against the first exact pin and returns that pin. *)
Lemma combine_exact pinnings exact rest :
  let valid := filter _is_valid_pinning pinnings in
  filter is_exact valid = exact :: rest ->
  exists n, int (tail exact) = Ok n
    /\ combine_version_pinnings pinnings
       = rbind (exact_check exact n valid) (fun _ => Ok exact).
Proof.
  intros valid He.
  assert (Hin : In exact (filter is_exact valid)) by (rewrite He; left; reflexivity).
  apply filter_In in Hin as [Hin Hex].
  apply filter_In in Hin as [_ Hv].
  destruct (exact_valid_inv exact Hv Hex) as [n [Hn _]].
  exists n. split; [exact Hn|].
  unfold combine_version_pinnings. fold valid. rewrite He.
  destruct valid as [|v0 vs] eqn:Ev; [discriminate He|].
  rewrite Hn. reflexivity.
Qed.

(** A bound the exact value does not satisfy makes the exact branch
    raise. *)
Lemma exact_unsatisfied_raises pinnings exact rest n :
  let valid := filter _is_valid_pinning pinnings in
  filter is_exact valid = exact :: rest ->
  int (tail exact) = Ok n ->
  spec_exact_contradicted exact n valid ->
  exists other, In other valid /\ other <> exact
                /\ combine_version_pinnings pinnings = Raise (Contradictory exact other).
Proof.
  intros valid He Hn (o & op & ver & Ho & Hne & Hp & Hop & Hs).
  destruct (combine_exact pinnings exact rest He) as [n' [Hn' Hc]].
  fold valid in Hc. rewrite Hn in Hn'. injection Hn' as <-.
  destruct (exact_check_spec exact n valid (filter_valid_parses pinnings))
    as [[Hok Hall] | (o' & Ho' & Hne' & Hf & Hr)].
  - specialize (Hall o Ho Hne). unfold flagged_pin in Hall. rewrite Hp in Hall.
    rewrite (unsatisfied_flagged _ _ _ Hop Hs) in Hall. discriminate.
  - exists o'. rewrite Hc, Hr. auto.
Qed.

(** When no other valid pin is flagged, the exact pin is returned alone. *)
Lemma exact_unflagged_returns pinnings exact rest n :
  let valid := filter _is_valid_pinning pinnings in
  filter is_exact valid = exact :: rest ->
  int (tail exact) = Ok n ->
  (forall other, In other valid -> other <> exact -> flagged_pin n other = false) ->
  combine_version_pinnings pinnings = Ok exact.
Proof.
  intros valid He Hn Hall.
  destruct (combine_exact pinnings exact rest He) as [n' [Hn' Hc]].
  fold valid in Hc. rewrite Hn in Hn'. injection Hn' as <-.
  destruct (exact_check_spec exact n valid (filter_valid_parses pinnings))
    as [[Hok _] | (o' & Ho' & Hne' & Hf & Hr)].
  - rewrite Hc, Hok. reflexivity.
  - rewrite (Hall o' Ho' Hne') in Hf. discriminate.
Qed.

(** The examples of the specification. *)
Example combine_examples :
  combine_version_pinnings [">=1"] = Ok ">=1"
  /\ combine_version_pinnings ["=2"; "<5"] = Ok "=2"
  /\ combine_version_pinnings ["=2"; "<1"] = Raise (Contradictory "=2" "<1")
  /\ combine_version_pinnings [">=1"; ">=2"] = Ok ">=2"
  /\ combine_version_pinnings ["<3"; "<5"] = Ok "<3"
  /\ combine_version_pinnings [">=1"; "<5"] = Ok ">=1,<5"
  /\ combine_version_pinnings [">5"; "<3"] = Raise (Contradictory ">5" "<3")
  /\ combine_version_pinnings ["garbage"] = Ok "".
Proof. repeat split; vm_compute; reflexivity. Qed.

(** C1 (defect of the code).  An exact pin together with an inclusive bound
    at the very same version: the exact value satisfies the bound, so no
    valid comparison pin is unsatisfied, yet [combine_version_pinnings]
    raises the contradiction error.  The stated equivalence between
    raising and an unsatisfied bound fails on this input. *)
Theorem C1_exact_pin_at_inclusive_bound_raises :
  combine_version_pinnings ["=2"; "<=2"] = Raise (Contradictory "=2" "<=2")
  /\ spec_satisfies 2 "<=" 2 = true
  /\ ~ exact_iff_unsatisfied ["=2"; "<=2"].
Proof.
  split; [vm_compute; reflexivity|]. split; [reflexivity|].
  intros H. red in H.
  specialize (H "=2" [] 2 eq_refl eq_refl). destruct H as [[H _] _].
  destruct H as (o & op & ver & Ho & Hne & Hp & _ & Hs).
  - eexists. vm_compute. reflexivity.
  - vm_compute in Ho. destruct Ho as [<- | [<- | []]]; [congruence|].
    vm_compute in Hp. injection Hp as <- <-. discriminate Hs.
Qed.

(** C2 (as stated, refuted).  On ["<3"; "<=3"] both pins are valid
    comparison pins and each drops the other, so no pin survives and
    nothing clashes; the join of the survivors would be the empty string,
    but the code falls back to ["<=3"]. *)
Lemma C2_counterexample : ~ joins_survivors ["<3"; "<=3"].
Proof.
  intros H. red in H.
  destruct H as [_ H].
  - intros p Hp. vm_compute in Hp. list_cases Hp; reflexivity.
  - assert (E : combine_version_pinnings ["<3"; "<=3"] = Ok "<=3")
      by (vm_compute; reflexivity).
    rewrite E in H.
    assert (N : ~ spec_contradiction (spec_surviving (filter _is_valid_pinning ["<3"; "<=3"]))).
    { intros (u & l & vu & vl & Hu & _). vm_compute in Hu. exact Hu. }
    specialize (H N). vm_compute in H. discriminate H.
Qed.

(** C2 (amended).  When no valid pin is exact, every pin made redundant
    by a different pin of the same direction with an equal or tighter
    threshold is dropped; a contradiction error naming two surviving pins
    is raised when some surviving upper bound is strictly less than some
    surviving lower bound; and otherwise, provided at least one pin
    survives, the surviving pins are returned joined by a comma in their
    original order. *)
Theorem C2_combine_comparison_pins pinnings :
  (forall p, In p (filter _is_valid_pinning pinnings) -> is_exact p = false) ->
  (spec_contradiction (spec_surviving (filter _is_valid_pinning pinnings)) ->
     exists p q,
       In p (spec_surviving (filter _is_valid_pinning pinnings))
       /\ In q (spec_surviving (filter _is_valid_pinning pinnings))
       /\ combine_version_pinnings pinnings = Raise (Contradictory p q))
  /\ (~ spec_contradiction (spec_surviving (filter _is_valid_pinning pinnings)) ->
      spec_surviving (filter _is_valid_pinning pinnings) <> [] ->
      combine_version_pinnings pinnings
      = Ok (join "," (spec_surviving (filter _is_valid_pinning pinnings)))).
Proof.
  intros Hno.
  set (valid := filter _is_valid_pinning pinnings) in *.
  assert (Hs : Forall parses (spec_surviving valid)).
  { apply Forall_forall. intros p Hp. apply filter_In in Hp as [Hp _].
    revert p Hp. apply Forall_forall, filter_valid_parses. }
  destruct valid as [|v0 vs] eqn:Ev.
  { split.
    - intros (u & l & vu & vl & [] & _).
    - intros _ Hne. exfalso. apply Hne. reflexivity. }
  rewrite <- Ev in *.
  assert (Hne : valid <> []) by (rewrite Ev; discriminate).
  pose proof (combine_comparisons pinnings Hno Hne) as Hc. fold valid in Hc.
  destruct (contradiction_check_spec _ Hs)
    as [[Hok Hnc] | (p & q & Hp & Hq & Hcl & Hr)].
  - split.
    + intros Hx. apply spec_contradiction_clash in Hx as (p & q & Hp & Hq & Hcl).
      rewrite (Hnc p q Hp Hq) in Hcl. discriminate.
    + intros _ Hsne. rewrite Hc, Hok. cbn [rbind].
      destruct (spec_surviving valid); [congruence | reflexivity].
  - split.
    + intros _. exists p, q. rewrite Hc, Hr. auto.
    + intros Hx. exfalso. apply Hx, spec_contradiction_clash. eauto.
Qed.

(** C2, at [">=1"; "<3"; "<5"]: the looser upper bound is dropped and the
    two survivors are joined. *)
Lemma C2_combine_comparison_pins_witness :
  combine_version_pinnings [">=1"; "<3"; "<5"] = Ok ">=1,<3".
Proof.
  apply (C2_combine_comparison_pins [">=1"; "<3"; "<5"]).
  - intros p Hp. vm_compute in Hp. list_cases Hp; reflexivity.
  - intros (u & l & vu & vl & Hu & Hl & Bu & Bl & Hlt).
    vm_compute in Hu, Hl.
    destruct Hu as [<- | [<- | []]]; vm_compute in Bu; try discriminate Bu;
      injection Bu as <-;
      destruct Hl as [<- | [<- | []]]; vm_compute in Bl; try discriminate Bl;
      injection Bl as <-; lia.
  - vm_compute. discriminate.
Defined.

(** C8 (as stated, refuted).  The valid list ["<3"; "<=3"] has two
    elements and the redundancy filter eliminates both. *)
Lemma C8_counterexample : ~ empties_only_singletons ["<3"; "<=3"].
Proof.
  intros H. red in H.
  assert (E : List.length (filter _is_valid_pinning ["<3"; "<=3"]) = 2%nat)
    by (vm_compute; reflexivity).
  rewrite H in E; [discriminate E| | |].
  - intros p Hp. vm_compute in Hp. list_cases Hp; reflexivity.
  - vm_compute. discriminate.
  - vm_compute. reflexivity.
Qed.

(** C8 (amended).  When no valid pin is exact and the valid list is not
    empty: a single-element valid list is never emptied by the redundancy
    filter; the filter eliminates every valid pin only when the valid list
    has at least two elements; and whenever nothing survives, the result
    is a pin of smallest threshold among the valid pins starting with
    [<=] or [>=] if there is one, and among all valid pins otherwise. *)
Theorem C8_fallback_when_nothing_survives pinnings :
  (forall p, In p (filter _is_valid_pinning pinnings) -> is_exact p = false) ->
  filter _is_valid_pinning pinnings <> [] ->
  (List.length (filter _is_valid_pinning pinnings) = 1%nat ->
     non_redundant (filter _is_valid_pinning pinnings)
                   (filter _is_valid_pinning pinnings)
     = Ok (filter _is_valid_pinning pinnings))
  /\ (non_redundant (filter _is_valid_pinning pinnings)
                    (filter _is_valid_pinning pinnings) = Ok [] ->
      (2 <= List.length (filter _is_valid_pinning pinnings))%nat
      /\ exists r,
           combine_version_pinnings pinnings = Ok r
           /\ smallest_threshold
                (fallback_candidates (filter _is_valid_pinning pinnings)) r).
Proof.
  intros Hno Hne.
  pose proof (combine_comparisons pinnings Hno Hne) as Hc.
  set (valid := filter _is_valid_pinning pinnings) in *.
  assert (Hp : Forall parses valid) by apply filter_valid_parses.
  assert (Hone : List.length valid = 1%nat -> non_redundant valid valid = Ok valid).
  { intros Hl. rewrite (non_redundant_spec _ _ Hp Hp).
    destruct valid as [|p [|q l]]; try discriminate Hl.
    cbn [filter]. unfold spec_redundant.
    destruct (bound_of p) as [[d v]|]; [|reflexivity].
    cbn [existsb]. rewrite String.eqb_refl. reflexivity. }
  split; [exact Hone|].
  intros Hnr. split.
  - destruct valid as [|p [|q l]]; [congruence| |simpl; lia].
    rewrite Hone in Hnr by reflexivity. discriminate Hnr.
  - rewrite (non_redundant_spec _ _ Hp Hp) in Hnr. injection Hnr as Hnr.
    fold (spec_surviving valid) in Hnr. rewrite Hnr in Hc.
    cbn [contradiction_check rbind] in Hc. rewrite Hc.
    apply min_by_version_spec.
    + apply Forall_forall. intros q Hq.
      apply fallback_candidates_incl in Hq.
      revert q Hq. apply Forall_forall, Hp.
    + apply fallback_candidates_nonempty, Hne.
Qed.

(** C8, at ["<3"; ">=7"; "<=3"; ">7"]: every pin is dropped by its
    same-threshold neighbour and the fallback applies. *)
Lemma C8_fallback_when_nothing_survives_witness :
  (2 <= List.length (filter _is_valid_pinning ["<3"; ">=7"; "<=3"; ">7"]))%nat
  /\ exists r,
       combine_version_pinnings ["<3"; ">=7"; "<=3"; ">7"] = Ok r
       /\ smallest_threshold
            (fallback_candidates (filter _is_valid_pinning ["<3"; ">=7"; "<=3"; ">7"])) r.
Proof.
  apply (C8_fallback_when_nothing_survives ["<3"; ">=7"; "<=3"; ">7"]).
  - intros p Hp. vm_compute in Hp. list_cases Hp; reflexivity.
  - vm_compute. discriminate.
  - vm_compute. reflexivity.
Defined.

End CombinerTheorems.

(** ** The reconciler *)

Section ReconcilerTheorems.

Lemma truthy_some_empty : truthy (Some "") = false.
Proof. reflexivity. Qed.

Lemma pin_eqb_refl p : pin_eqb p p = true.
Proof. unfold pin_eqb. destruct (eq_dec p p); congruence. Qed.

Lemma pin_eqb_neq p q : p <> q -> pin_eqb p q = false.
Proof. unfold pin_eqb. destruct (eq_dec p q); congruence. Qed.

(** The reconciler never raises. *)
Lemma reconcile_total sources :
  exists r ws, _resolve_conda_pip_conflicts sources = (Ok r, ws).
Proof.
  unfold _resolve_conda_pip_conflicts.
  destruct (get sources conda) as [c|], (get sources pip) as [p|];
    try (eexists; eexists; reflexivity).
  destruct (truthy (pin c) && negb (truthy (pin p)));
    [eexists; eexists; reflexivity|].
  destruct (truthy (pin p) && negb (truthy (pin c)));
    [eexists; eexists; reflexivity|].
  destruct (pin_eqb (pin c) (pin p)); eexists; eexists; reflexivity.
Qed.

(** C5 (as stated, refuted).  With pin [""] on the conda side and a null
    pin on the pip side exactly one pin is non-null, yet both entries are
    kept. *)
Lemma C5_counterexample :
  ~ keeps_only_the_pinned [(conda, with_pin (Some "") conda); (pip, with_pin None pip)].
Proof.
  intros H.
  destruct (H (with_pin (Some "") conda) (with_pin None pip) eq_refl eq_refl)
    as [H1 _].
  specialize (H1 ltac:(discriminate) eq_refl).
  vm_compute in H1. discriminate H1.
Qed.

(** C5 (amended).  If either source has no entry the mapping is returned
    unchanged, without a warning; if both are present and exactly one of
    the two pins is non-empty (neither null nor the empty string), only
    the entry with that pin is kept, without a warning. *)
Theorem C5_reconcile_missing_or_one_pin sources :
  (get sources conda = None \/ get sources pip = None ->
     _resolve_conda_pip_conflicts sources = (Ok sources, []))
  /\ (forall c p,
        get sources conda = Some c -> get sources pip = Some p ->
        (truthy (pin c) = true -> truthy (pin p) = false ->
           _resolve_conda_pip_conflicts sources = (Ok [(conda, c)], []))
        /\ (truthy (pin p) = true -> truthy (pin c) = false ->
           _resolve_conda_pip_conflicts sources = (Ok [(pip, p)], []))).
Proof.
  unfold _resolve_conda_pip_conflicts. split.
  - intros [-> | H]; [reflexivity|].
    rewrite H. destruct (get sources conda); reflexivity.
  - intros c p -> ->. split; intros H1 H2; rewrite H1, H2; reflexivity.
Qed.

(** C5, with pip alone, and with a pinned conda entry against an unpinned
    pip entry. *)
Lemma C5_reconcile_missing_or_one_pin_witness :
  _resolve_conda_pip_conflicts [(pip, with_pin None pip)]
  = (Ok [(pip, with_pin None pip)], [])
  /\ _resolve_conda_pip_conflicts
       [(conda, with_pin (Some "=2.0") conda); (pip, with_pin None pip)]
     = (Ok [(conda, with_pin (Some "=2.0") conda)], []).
Proof.
  split.
  - apply (C5_reconcile_missing_or_one_pin [(pip, with_pin None pip)]).
    left. reflexivity.
  - apply (proj2 (C5_reconcile_missing_or_one_pin
                    [(conda, with_pin (Some "=2.0") conda); (pip, with_pin None pip)])
             (with_pin (Some "=2.0") conda) (with_pin None pip));
      reflexivity.
Defined.

(** C6 (as stated, refuted).  The pins [""] and [">=1"] are both non-null
    and different, yet only the pip entry is kept and nothing is warned. *)
Lemma C6_counterexample :
  ~ keeps_both_when_different
      [(conda, with_pin (Some "") conda); (pip, with_pin (Some ">=1") pip)].
Proof.
  intros H.
  specialize (H (with_pin (Some "") conda) (with_pin (Some ">=1") pip)
                eq_refl eq_refl).
  specialize (H ltac:(discriminate) ltac:(discriminate) ltac:(discriminate)).
  vm_compute in H. discriminate H.
Qed.

(** C6 (amended).  When both sources are present: equal pins (both null
    included) keep both entries without a warning, whichever [Meta] sits on
    which side; two non-empty different pins keep both entries and emit
    one conflict warning; and the reconciler never raises. *)
Theorem C6_reconcile_equal_or_different_pins :
  (forall sources a b,
     get sources conda = Some a -> get sources pip = Some b ->
     pin a = pin b ->
     _resolve_conda_pip_conflicts sources = (Ok [(conda, a); (pip, b)], [])
     /\ _resolve_conda_pip_conflicts [(conda, b); (pip, a)]
        = (Ok [(conda, b); (pip, a)], []))
  /\ (forall sources a b,
        get sources conda = Some a -> get sources pip = Some b ->
        truthy (pin a) = true -> truthy (pin b) = true -> pin a <> pin b ->
        _resolve_conda_pip_conflicts sources
        = (Ok [(conda, a); (pip, b)], [PinConflict (pin a) (pin b)]))
  /\ (forall sources, exists r ws, _resolve_conda_pip_conflicts sources = (Ok r, ws)).
Proof.
  split; [|split].
  - intros sources a b Ha Hb E. unfold _resolve_conda_pip_conflicts.
    rewrite Ha, Hb. cbn [get]. 
    destruct (eq_dec conda conda) as [_|N]; [|congruence].
    destruct (eq_dec conda pip) as [N|_]; [discriminate N|].
    destruct (eq_dec pip pip) as [_|N]; [|congruence].
    rewrite E, pin_eqb_refl.
    destruct (truthy (pin b)); split; reflexivity.
  - intros sources a b Ha Hb Ta Tb N. unfold _resolve_conda_pip_conflicts.
    rewrite Ha, Hb, Ta, Tb, (pin_eqb_neq _ _ N). reflexivity.
  - apply reconcile_total.
Qed.

(** C6, with two different non-empty pins, and with two null pins. *)
Lemma C6_reconcile_equal_or_different_pins_witness :
  _resolve_conda_pip_conflicts
    [(pip, with_pin (Some "<1.0") pip); (conda, with_pin (Some ">=1.5") conda)]
  = (Ok [(conda, with_pin (Some ">=1.5") conda); (pip, with_pin (Some "<1.0") pip)],
     [PinConflict (Some ">=1.5") (Some "<1.0")])
  /\ _resolve_conda_pip_conflicts
       [(conda, with_pin None conda); (pip, with_pin None pip)]
     = (Ok [(conda, with_pin None conda); (pip, with_pin None pip)], []).
Proof.
  split.
  - apply (proj1 (proj2 C6_reconcile_equal_or_different_pins)
             [(pip, with_pin (Some "<1.0") pip); (conda, with_pin (Some ">=1.5") conda)]
             (with_pin (Some ">=1.5") conda) (with_pin (Some "<1.0") pip));
      try reflexivity.
    discriminate.
  - apply (proj1 C6_reconcile_equal_or_different_pins
             [(conda, with_pin None conda); (pip, with_pin None pip)]
             (with_pin None conda) (with_pin None pip));
      reflexivity.
Defined.

End ReconcilerTheorems.

(** ** Dictionaries *)

Section DictFacts.
Context {K V : Type} `{EqDec K}.
Implicit Types (d : odict K V) (k : K) (v : V).

Lemma get_set_eq d k v : get (set d k v) k = Some v.
Proof.
  induction d as [|[k' v'] d IH]; simpl.
  - destruct (eq_dec k k); congruence.
  - destruct (eq_dec k' k) as [E|N]; simpl.
    + rewrite E. destruct (eq_dec k k); congruence.
    + destruct (eq_dec k' k); [congruence | exact IH].
Qed.

Lemma get_set_ne d k k' v : k <> k' -> get (set d k v) k' = get d k'.
Proof.
  intros N. induction d as [|[k0 v0] d IH]; simpl.
  - destruct (eq_dec k k'); congruence.
  - destruct (eq_dec k0 k) as [E|N0]; simpl.
    + destruct (eq_dec k0 k'); [congruence | reflexivity].
    + destruct (eq_dec k0 k'); [reflexivity | exact IH].
Qed.

Lemma get_None_keys d k : get d k = None <-> ~ In k (keys d).
Proof.
  induction d as [|[k' v'] d IH]; simpl.
  - tauto.
  - destruct (eq_dec k' k) as [E|N].
    + split; [discriminate | intros Hn; exfalso; apply Hn; left; exact E].
    + rewrite IH. tauto.
Qed.

Lemma get_Some_In d k v : get d k = Some v -> In (k, v) d.
Proof.
  induction d as [|[k' v'] d IH]; simpl; [discriminate|].
  destruct (eq_dec k' k) as [E|N].
  - intros [= ->]. left. rewrite E. reflexivity.
  - intros Hg. right. apply IH, Hg.
Qed.

Lemma In_get d k v : wf d -> In (k, v) d -> get d k = Some v.
Proof.
  unfold wf. induction d as [|[k' v'] d IH]; simpl; [tauto|].
  intros Hnd [E | Hin].
  - injection E as -> ->. destruct (eq_dec k k); congruence.
  - inversion Hnd as [|? ? Hni Hnd']; subst.
    destruct (eq_dec k' k) as [E|N].
    + exfalso. apply Hni. rewrite E. apply (in_map fst _ _ Hin).
    + apply IH; assumption.
Qed.

Lemma set_fresh d k v : ~ In k (keys d) -> set d k v = (d ++ [(k, v)])%list.
Proof.
  induction d as [|[k' v'] d IH]; simpl; [reflexivity|].
  intros Hn. destruct (eq_dec k' k) as [E|N].
  - exfalso. apply Hn. left. exact E.
  - rewrite IH; [reflexivity|]. intros Hin. apply Hn. right. exact Hin.
Qed.

Lemma keys_set_In d k v k' : In k' (keys (set d k v)) <-> k' = k \/ In k' (keys d).
Proof.
  induction d as [|[k0 v0] d IH]; simpl.
  - intuition congruence.
  - destruct (eq_dec k0 k) as [E|N]; simpl.
    + subst. intuition congruence.
    + rewrite IH. intuition congruence.
Qed.

Lemma wf_set d k v : wf d -> wf (set d k v).
Proof.
  unfold wf. induction d as [|[k0 v0] d IH]; simpl; intros Hnd.
  - constructor; [intros [] | constructor].
  - inversion Hnd as [|? ? Hni Hnd']; subst.
    destruct (eq_dec k0 k) as [E|N]; simpl.
    + constructor; assumption.
    + constructor; [|apply IH, Hnd'].
      intros Hin. apply keys_set_In in Hin as [E | Hin]; [congruence | auto].
Qed.

Lemma get_app d d' k :
  get (d ++ d')%list k = match get d k with Some v => Some v | None => get d' k end.
Proof.
  induction d as [|[k0 v0] d IH]; simpl; [reflexivity|].
  destruct (eq_dec k0 k); [reflexivity | exact IH].
Qed.

End DictFacts.

(** Two dictionaries with the same keys in the same order whose values are
    related pointwise. *)
Lemma get_Forall2 {K A B : Type} `{EqDec K} (R : K -> A -> B -> Prop)
    (d : odict K A) (d' : odict K B) :
  Forall2 (fun x y => fst x = fst y /\ R (fst x) (snd x) (snd y)) d d' ->
  forall k,
    match get d k, get d' k with
    | Some a, Some b => R k a b
    | None, None => True
    | _, _ => False
    end.
Proof.
  induction 1 as [|[k0 a] [k1 b] d d' [E HR] _ IH]; intros k; simpl; [exact I|].
  simpl in E, HR. subst k1.
  destruct (eq_dec k0 k) as [->|N]; [exact HR | apply IH].
Qed.

Lemma keys_Forall2 {K A B : Type} (R : K -> A -> B -> Prop)
    (d : odict K A) (d' : odict K B) :
  Forall2 (fun x y => fst x = fst y /\ R (fst x) (snd x) (snd y)) d d' ->
  keys d' = keys d.
Proof.
  induction 1 as [|[k0 a] [k1 b] d d' [E HR] _ IH]; simpl; [reflexivity|].
  simpl in E. subst. f_equal. exact IH.
Qed.

(** ** Order on pins and sort keys *)

Section OrderFacts.

Lemma ascii_compare_lt_trans a b c :
  Ascii.compare a b = Lt -> Ascii.compare b c = Lt -> Ascii.compare a c = Lt.
Proof.
  unfold Ascii.compare. rewrite !N.compare_lt_iff. apply N.lt_trans.
Qed.

Lemma string_compare_lt_trans a : forall b c,
  String.compare a b = Lt -> String.compare b c = Lt -> String.compare a c = Lt.
Proof.
  induction a as [|x a IH]; intros [|y b] [|z c]; simpl; try congruence.
  destruct (Ascii.compare x y) eqn:Exy; try discriminate.
  - apply Ascii.compare_eq_iff in Exy. subst y.
    destruct (Ascii.compare x z); try congruence. apply IH.
  - intros _. destruct (Ascii.compare y z) eqn:Eyz; try discriminate.
    + apply Ascii.compare_eq_iff in Eyz. subst z. rewrite Exy. reflexivity.
    + rewrite (ascii_compare_lt_trans _ _ _ Exy Eyz). reflexivity.
Qed.

Lemma string_compare_refl a : String.compare a a = Eq.
Proof.
  induction a as [|x a IH]; simpl; [reflexivity|].
  unfold Ascii.compare. rewrite N.compare_refl. exact IH.
Qed.

Lemma string_ltb_irrefl a : String.ltb a a = false.
Proof.
  unfold String.ltb. rewrite string_compare_refl. reflexivity.
Qed.

Lemma string_lt_le_trans a b c :
  String.ltb a b = true -> String.ltb c b = false -> String.ltb a c = true.
Proof.
  unfold String.ltb. intros Hab Hcb.
  destruct (String.compare a b) eqn:Eab; try discriminate.
  destruct (String.compare c b) eqn:Ecb; try discriminate.
  - apply String.compare_eq_iff in Ecb. subst c. rewrite Eab. reflexivity.
  - assert (Ebc : String.compare b c = Lt).
    { rewrite String.compare_antisym, Ecb. reflexivity. }
    rewrite (string_compare_lt_trans _ _ _ Eab Ebc). reflexivity.
Qed.

Lemma string_ltb_false_leb s t : String.ltb t s = false -> String.leb s t = true.
Proof.
  unfold String.ltb, String.leb. rewrite (String.compare_antisym t s).
  destruct (String.compare s t); simpl; congruence.
Qed.

Lemma key_ltb_irrefl m : key_ltb (sort_key m) (sort_key m) = false.
Proof.
  unfold key_ltb, sort_key. destruct (pin m); simpl; [apply string_ltb_irrefl | reflexivity].
Qed.

Lemma key_ltb_asym m m' :
  key_ltb (sort_key m) (sort_key m') = true -> key_ltb (sort_key m') (sort_key m) = false.
Proof.
  unfold key_ltb, sort_key.
  destruct (pin m) as [s|], (pin m') as [t|]; simpl; try congruence.
  unfold String.ltb. rewrite (String.compare_antisym s t).
  destruct (String.compare t s); simpl; congruence.
Qed.

Lemma key_lt_le_trans x m y :
  key_ltb (sort_key x) (sort_key m) = true ->
  key_ltb (sort_key y) (sort_key m) = false ->
  key_ltb (sort_key x) (sort_key y) = true.
Proof.
  unfold key_ltb, sort_key.
  destruct (pin x) as [a|], (pin m) as [b|], (pin y) as [c|]; simpl; try congruence.
  apply string_lt_le_trans.
Qed.

End OrderFacts.

(** ** The selector *)

Section SelectorFacts.

Lemma insert_desc_In x m l : In x (insert_desc m l) <-> x = m \/ In x l.
Proof.
  induction l as [|y l IH]; simpl.
  - intuition congruence.
  - destruct (key_ltb (sort_key m) (sort_key y)); simpl.
    + rewrite IH. intuition congruence.
    + intuition congruence.
Qed.

Lemma sort_desc_In x l : In x (sort_desc l) <-> In x l.
Proof.
  induction l as [|y l IH]; simpl; [tauto|].
  rewrite insert_desc_In, IH. intuition congruence.
Qed.

Lemma sort_desc_length l : List.length (sort_desc l) = List.length l.
Proof.
  assert (Hi : forall m s, List.length (insert_desc m s) = S (List.length s)).
  { intros m s. induction s as [|y s IH]; simpl; [reflexivity|].
    destruct (key_ltb (sort_key m) (sort_key y)); simpl; congruence. }
  induction l as [|y l IH]; simpl; [reflexivity|].
  rewrite Hi, IH. reflexivity.
Qed.

(** [sort_desc] is the stable descending sort: a permutation of its input,
    sorted by decreasing key, in which elements of equal key keep their
    input order.  These three properties determine the outcome of Python's
    [list.sort(key=..., reverse=True)]. *)
Lemma insert_desc_perm x s : Permutation (insert_desc x s) (x :: s).
Proof.
  induction s as [|y s IH]; simpl; [apply Permutation_refl|].
  destruct (key_ltb (sort_key x) (sort_key y)); [|apply Permutation_refl].
  apply (Permutation_trans (l' := y :: x :: s)).
  - apply perm_skip, IH.
  - apply perm_swap.
Qed.

Lemma sort_desc_perm l : Permutation (sort_desc l) l.
Proof.
  induction l as [|x l IH]; simpl; [apply Permutation_refl|].
  apply (Permutation_trans (insert_desc_perm x (sort_desc l))).
  apply perm_skip, IH.
Qed.

Lemma insert_desc_HdRel y x s :
  not_below y x -> HdRel not_below y s -> HdRel not_below y (insert_desc x s).
Proof.
  intros Hyx Hs. destruct s as [|z s]; simpl; [constructor; exact Hyx|].
  destruct (key_ltb (sort_key x) (sort_key z)); constructor.
  - inversion Hs; assumption.
  - exact Hyx.
Qed.

Lemma insert_desc_sorted x s : Sorted not_below s -> Sorted not_below (insert_desc x s).
Proof.
  induction 1 as [|y s Hs IH Hhd]; simpl.
  - repeat constructor.
  - destruct (key_ltb (sort_key x) (sort_key y)) eqn:E.
    + constructor; [exact IH|].
      apply insert_desc_HdRel; [apply key_ltb_asym, E | exact Hhd].
    + constructor; [constructor; assumption|]. constructor. exact E.
Qed.

Lemma sort_desc_sorted l : Sorted not_below (sort_desc l).
Proof.
  induction l as [|x l IH]; simpl; [constructor | apply insert_desc_sorted, IH].
Qed.




(** The first element of the sorted bucket has the greatest key. *)
Lemma sort_desc_head l : forall s rest,
  sort_desc l = s :: rest ->
  forall m, In m l -> key_ltb (sort_key s) (sort_key m) = false.
Proof.
  induction l as [|x l IH]; intros s rest Hs m Hm; [destruct Hm|].
  simpl in Hs.
  destruct (sort_desc l) as [|y ys] eqn:El.
  - simpl in Hs. injection Hs as <- <-.
    destruct Hm as [<- | Hm]; [apply key_ltb_irrefl|].
    apply sort_desc_In in Hm. rewrite El in Hm. destruct Hm.
  - simpl in Hs. destruct (key_ltb (sort_key x) (sort_key y)) eqn:Exy.
    + injection Hs as <- <-.
      destruct Hm as [<- | Hm]; [apply key_ltb_asym, Exy|].
      apply (IH y ys eq_refl m Hm).
    + injection Hs as <- <-.
      destruct Hm as [<- | Hm]; [apply key_ltb_irrefl|].
      pose proof (IH y ys eq_refl m Hm) as Hym.
      destruct (key_ltb (sort_key x) (sort_key m)) eqn:Exm; [|reflexivity].
      rewrite (key_lt_le_trans _ _ _ Exm Hym) in Exy. discriminate.
Qed.

Lemma sort_desc_nonempty l : l <> [] -> exists s rest, sort_desc l = s :: rest.
Proof.
  intros Hne. destruct (sort_desc l) as [|s rest] eqn:E; [|eauto].
  exfalso. apply Hne. apply length_zero_iff_nil.
  rewrite <- sort_desc_length, E. reflexivity.
Qed.

(** [select_bucket] returns [pick] and emits [bucket_warnings]; it raises
    only on an empty bucket. *)
Lemma select_bucket_eq p w metas :
  select_bucket p w metas
  = match pick metas with
    | Some sel => (Ok sel, bucket_warnings p w metas)
    | None => (Raise IndexError, [])
    end.
Proof.
  unfold select_bucket, pick, bucket_warnings.
  destruct (1 <? List.length metas)%nat.
  - destruct (sort_desc metas) as [|sel rest]; [reflexivity|]. cbn [hd_error].
    destruct (filter (fun m => Meta_neqb m sel) rest); reflexivity.
  - destruct metas; reflexivity.
Qed.

Lemma pick_nonempty metas : metas <> [] -> exists sel, pick metas = Some sel.
Proof.
  intros Hne. unfold pick. destruct (1 <? List.length metas)%nat.
  - destruct (sort_desc_nonempty metas Hne) as [s [rest E]].
    rewrite E. simpl. eauto.
  - destruct metas; [congruence | simpl; eauto].
Qed.

Lemma pick_In metas sel : pick metas = Some sel -> In sel metas.
Proof.
  unfold pick. destruct (1 <? List.length metas)%nat.
  - destruct (sort_desc metas) as [|s rest] eqn:E; [discriminate|].
    intros [= <-]. apply sort_desc_In. rewrite E. left. reflexivity.
  - destruct metas; [discriminate|]. intros [= <-]. left. reflexivity.
Qed.

Lemma pick_singleton m : pick [m] = Some m.
Proof. reflexivity. Qed.

(** In a bucket of more than one element, [pick] has the greatest key. *)
Lemma pick_greatest metas sel :
  (1 < List.length metas)%nat -> pick metas = Some sel ->
  forall m, In m metas -> key_leb (sort_key m) (sort_key sel) = true.
Proof.
  unfold pick, key_leb. intros Hl. apply Nat.ltb_lt in Hl. rewrite Hl.
  destruct (sort_desc metas) as [|s rest] eqn:E; [discriminate|].
  intros [= <-] m Hm. rewrite (sort_desc_head _ _ _ E m Hm). reflexivity.
Qed.

Lemma key_leb_pinned m sel s :
  key_leb (sort_key m) (sort_key sel) = true -> pin m = Some s ->
  exists t, pin sel = Some t /\ String.leb s t = true.
Proof.
  unfold key_leb, key_ltb, sort_key. intros Hk Hm. rewrite Hm in Hk.
  destruct (pin sel) as [t|]; simpl in Hk; [|discriminate].
  exists t. split; [reflexivity|].
  apply string_ltb_false_leb. apply negb_true_iff in Hk. exact Hk.
Qed.

Lemma Meta_neqb_true m m' : Meta_neqb m m' = true <-> m <> m'.
Proof. unfold Meta_neqb. destruct (eq_dec m m'); split; congruence. Qed.

(** The warning of a bucket names exactly the elements of the bucket that
    differ from the one kept. *)
Lemma bucket_warnings_cases p w metas sel :
  pick metas = Some sel ->
  (bucket_warnings p w metas = [] /\ forall m, In m metas -> m = sel)
  \/ (exists discarded,
        bucket_warnings p w metas = [PlatformConflict p sel w discarded]
        /\ forall m, In m discarded <-> In m metas /\ m <> sel).
Proof.
  unfold pick, bucket_warnings.
  destruct (1 <? List.length metas)%nat eqn:El.
  - destruct (sort_desc metas) as [|s rest] eqn:E; [discriminate|].
    intros [= ->].
    assert (Hd : forall m, In m (filter (fun m => Meta_neqb m sel) rest)
                           <-> In m metas /\ m <> sel).
    { intros m. rewrite filter_In, Meta_neqb_true, <- (sort_desc_In m metas), E.
      simpl. intuition congruence. }
    destruct (filter (fun m => Meta_neqb m sel) rest) as [|d ds].
    + left. split; [reflexivity|]. intros m Hm.
      destruct (eq_dec m sel) as [E'|N]; [exact E'|].
      exfalso. apply (proj2 (Hd m)). auto.
    + right. eexists. split; [reflexivity | exact Hd].
  - destruct metas as [|m0 [|m1 l]]; try discriminate.
    intros [= ->]. left. split; [reflexivity|].
    intros m [<- | []]. reflexivity.
Qed.

End SelectorFacts.

Section SelectorTheorems.

Lemma select_bucket_greatest p w metas :
  (1 < List.length metas)%nat ->
  exists sel ws,
    select_bucket p w metas = (Ok sel, ws) /\ In sel metas
    /\ forall m, In m metas -> key_leb (sort_key m) (sort_key sel) = true.
Proof.
  intros Hl.
  assert (Hne : metas <> []) by (destruct metas; [simpl in Hl; lia | discriminate]).
  destruct (pick_nonempty metas Hne) as [sel Hs].
  exists sel, (bucket_warnings p w metas).
  rewrite select_bucket_eq, Hs. split; [reflexivity|].
  split; [apply pick_In, Hs | apply pick_greatest; assumption].
Qed.

Lemma key_leb_has_pin m sel :
  key_leb (sort_key m) (sort_key sel) = true -> pin m <> None -> pin sel <> None.
Proof.
  intros Hk Hm. destruct (pin m) as [s|] eqn:E; [|congruence].
  destruct (key_leb_pinned m sel s Hk E) as [t [Ht _]]. congruence.
Qed.

(** C4.  In a bucket of more than one [Meta], the selector keeps an element
    of the bucket whose sort key (has-pin, pin) is greatest: no element
    has a greater key; if any element has a pin, so has the kept one; and
    the pin of every pinned element is lexicographically at most the kept
    pin. *)
Theorem C4_selector_keeps_greatest_key p w metas :
  (1 < List.length metas)%nat ->
  exists sel ws,
    select_bucket p w metas = (Ok sel, ws) /\ In sel metas
    /\ (forall m, In m metas -> key_ltb (sort_key sel) (sort_key m) = false)
    /\ ((exists m, In m metas /\ pin m <> None) -> pin sel <> None)
    /\ (forall m s, In m metas -> pin m = Some s ->
          exists t, pin sel = Some t /\ String.leb s t = true).
Proof.
  intros Hl. destruct (select_bucket_greatest p w metas Hl) as (sel & ws & E & Hin & Hmax).
  exists sel, ws. repeat split; auto.
  - intros m Hm. specialize (Hmax m Hm). unfold key_leb in Hmax.
    apply negb_true_iff in Hmax. exact Hmax.
  - intros (m & Hm & Hp). apply (key_leb_has_pin m sel (Hmax m Hm) Hp).
  - intros m s Hm Hp. apply (key_leb_pinned m sel s (Hmax m Hm) Hp).
Qed.

(** C4, on a bucket of an unpinned and two pinned entries. *)
Lemma C4_selector_keeps_greatest_key_witness :
  exists sel ws,
    select_bucket (Some "linux-64") conda
      [with_pin None conda; with_pin (Some ">=1.20") conda; with_pin (Some ">=1.3") conda]
    = (Ok sel, ws)
    /\ In sel [with_pin None conda; with_pin (Some ">=1.20") conda;
               with_pin (Some ">=1.3") conda]
    /\ (forall m, In m [with_pin None conda; with_pin (Some ">=1.20") conda;
                        with_pin (Some ">=1.3") conda] ->
          key_ltb (sort_key sel) (sort_key m) = false)
    /\ ((exists m, In m [with_pin None conda; with_pin (Some ">=1.20") conda;
                         with_pin (Some ">=1.3") conda] /\ pin m <> None) ->
        pin sel <> None)
    /\ (forall m s, In m [with_pin None conda; with_pin (Some ">=1.20") conda;
                          with_pin (Some ">=1.3") conda] ->
          pin m = Some s -> exists t, pin sel = Some t /\ String.leb s t = true).
Proof.
  apply (C4_selector_keeps_greatest_key (Some "linux-64") conda
           [with_pin None conda; with_pin (Some ">=1.20") conda;
            with_pin (Some ">=1.3") conda]).
  simpl. lia.
Defined.

(** C10.  A [Meta] whose pin is the empty string counts as pinned for the
    selector: its sort key is above that of a null pin, so a bucket of
    more than one element that holds it never keeps a null-pin element.
    For the reconciler it counts as unpinned: against a non-empty pin only
    the other entry is kept, without a warning; against a null pin the
    pins differ, so both entries are kept and the conflict warning is
    emitted. *)
Theorem C10_empty_string_pin :
  (forall u e, pin u = None -> pin e = Some "" ->
     key_ltb (sort_key u) (sort_key e) = true)
  /\ (forall p w metas e,
        (1 < List.length metas)%nat -> In e metas -> pin e = Some "" ->
        exists sel ws, select_bucket p w metas = (Ok sel, ws) /\ pin sel <> None)
  /\ (forall sources e o s,
        pin e = Some "" -> pin o = Some s -> s <> "" ->
        (get sources conda = Some e -> get sources pip = Some o ->
           _resolve_conda_pip_conflicts sources = (Ok [(pip, o)], []))
        /\ (get sources conda = Some o -> get sources pip = Some e ->
           _resolve_conda_pip_conflicts sources = (Ok [(conda, o)], [])))
  /\ (forall sources e u,
        pin e = Some "" -> pin u = None ->
        (get sources conda = Some e -> get sources pip = Some u ->
           _resolve_conda_pip_conflicts sources
           = (Ok [(conda, e); (pip, u)], [PinConflict (Some "") None]))
        /\ (get sources conda = Some u -> get sources pip = Some e ->
           _resolve_conda_pip_conflicts sources
           = (Ok [(conda, u); (pip, e)], [PinConflict None (Some "")]))).
Proof.
  split; [|split; [|split]].
  - intros u e Hu He. unfold key_ltb, sort_key. rewrite Hu, He. reflexivity.
  - intros p w metas e Hl Hin He.
    destruct (select_bucket_greatest p w metas Hl) as (sel & ws & E & _ & Hmax).
    exists sel, ws. split; [exact E|].
    apply (key_leb_has_pin e sel (Hmax e Hin)). congruence.
  - intros sources e o s He Ho Hs.
    assert (To : truthy (pin o) = true).
    { rewrite Ho. destruct s; [congruence | reflexivity]. }
    assert (Te : truthy (pin e) = false) by (rewrite He; reflexivity).
    unfold _resolve_conda_pip_conflicts.
    split; intros -> ->; rewrite To, Te; reflexivity.
  - intros sources e u He Hu.
    unfold _resolve_conda_pip_conflicts.
    split; intros -> ->; rewrite He, Hu; reflexivity.
Qed.

(** C10, on entries whose pins are the empty string, null and [">=1"]. *)
Lemma C10_empty_string_pin_witness :
  key_ltb (sort_key (with_pin None conda)) (sort_key (with_pin (Some "") conda)) = true
  /\ (exists sel ws,
        select_bucket None conda [with_pin None conda; with_pin (Some "") conda]
        = (Ok sel, ws) /\ pin sel <> None)
  /\ _resolve_conda_pip_conflicts
       [(conda, with_pin (Some "") conda); (pip, with_pin (Some ">=1") pip)]
     = (Ok [(pip, with_pin (Some ">=1") pip)], [])
  /\ _resolve_conda_pip_conflicts
       [(conda, with_pin (Some "") conda); (pip, with_pin None pip)]
     = (Ok [(conda, with_pin (Some "") conda); (pip, with_pin None pip)],
        [PinConflict (Some "") None]).
Proof.
  split; [|split; [|split]].
  - apply (proj1 C10_empty_string_pin); reflexivity.
  - apply (proj1 (proj2 C10_empty_string_pin) None conda
             [with_pin None conda; with_pin (Some "") conda]
             (with_pin (Some "") conda)).
    + simpl. lia.
    + simpl. right. left. reflexivity.
    + reflexivity.
  - apply (proj1 (proj1 (proj2 (proj2 C10_empty_string_pin))
             [(conda, with_pin (Some "") conda); (pip, with_pin (Some ">=1") pip)]
             (with_pin (Some "") conda) (with_pin (Some ">=1") pip) ">=1"
             eq_refl eq_refl ltac:(discriminate)));
      reflexivity.
  - apply (proj1 (proj2 (proj2 (proj2 C10_empty_string_pin))
             [(conda, with_pin (Some "") conda); (pip, with_pin None pip)]
             (with_pin (Some "") conda) (with_pin None pip) eq_refl eq_refl));
      reflexivity.
Defined.

Lemma NoDup_keys_snoc {K V : Type} (acc : odict K V) (k : K) (v : V) (rest : list K) :
  NoDup (keys acc ++ k :: rest)%list ->
  ~ In k (keys acc) /\ NoDup (keys (acc ++ [(k, v)]) ++ rest)%list.
Proof.
  intros Hnd. split.
  - apply NoDup_remove_2 in Hnd. intros Hin. apply Hnd, in_or_app. left. exact Hin.
  - unfold keys. rewrite map_app. simpl. rewrite <- app_assoc. exact Hnd.
Qed.

(** The loop over the sources of one platform: the kept [Meta] of every
    bucket is appended to the dictionary and the warnings of the buckets are
    emitted in order. *)
Lemma select_sources_spec p packages : forall acc,
  NoDup (keys acc ++ keys packages)%list ->
  (forall w metas, In (w, metas) packages -> metas <> []) ->
  exists out,
    select_sources p packages acc
    = (Ok (acc ++ out)%list, sources_warnings p packages)
    /\ picked_sources packages out.
Proof.
  induction packages as [|[w metas] rest IH]; intros acc Hnd Hne.
  - exists []. simpl. rewrite app_nil_r. split; [reflexivity | constructor].
  - destruct (pick_nonempty metas (Hne w metas (or_introl eq_refl))) as [sel Hs].
    destruct (NoDup_keys_snoc acc w sel (keys rest) Hnd) as [Hfresh Hnd'].
    destruct (IH (acc ++ [(w, sel)])%list Hnd') as [out [E Hp]].
    { intros w' metas' Hin. apply (Hne w' metas'). right. exact Hin. }
    exists ((w, sel) :: out). split.
    + cbn [select_sources]. rewrite select_bucket_eq, Hs.
      unfold wbind. rewrite (set_fresh _ _ _ Hfresh), E.
      rewrite <- app_assoc. reflexivity.
    + constructor; [split; [reflexivity | exact Hs] | exact Hp].
Qed.

Lemma select_platforms_spec data : forall acc,
  NoDup (keys acc ++ keys data)%list ->
  (forall p sources, In (p, sources) data ->
     wf sources /\ forall w metas, In (w, metas) sources -> metas <> []) ->
  exists out,
    select_platforms data acc = (Ok (acc ++ out)%list, platforms_warnings data)
    /\ picked_platforms data out.
Proof.
  induction data as [|[p sources] rest IH]; intros acc Hnd Hwg.
  - exists []. simpl. rewrite app_nil_r. split; [reflexivity | constructor].
  - destruct (Hwg p sources (or_introl eq_refl)) as [Hwf Hne].
    destruct (select_sources_spec p sources [] Hwf Hne) as [srcs [Es Hps]].
    destruct (NoDup_keys_snoc acc p srcs (keys rest) Hnd) as [Hfresh Hnd'].
    destruct (IH (acc ++ [(p, srcs)])%list Hnd') as [out [E Hp]].
    { intros p' s' Hin. apply (Hwg p' s'). right. exact Hin. }
    exists ((p, srcs) :: out). split.
    + cbn [select_platforms]. rewrite Es.
      unfold wbind. cbn [app]. rewrite (set_fresh _ _ _ Hfresh).
      unfold odict in *. rewrite E, <- app_assoc. reflexivity.
    + constructor; [split; [reflexivity | exact Hps] | exact Hp].
Qed.

(** The selector on a well-grouped structure: it returns, and its output
    holds the pick of every bucket under the same keys. *)
Lemma select_spec data :
  well_grouped data ->
  exists out,
    _select_preferred_version_within_platform data
    = (Ok out, platforms_warnings data)
    /\ picked_platforms data out.
Proof.
  intros [Hwf Hb]. apply (select_platforms_spec data [] Hwf Hb).
Qed.

Lemma singletons_picked data out :
  picked_platforms data out ->
  (forall p sources w metas,
     In (p, sources) data -> In (w, metas) sources -> List.length metas = 1%nat) ->
  singletons out = data /\ platforms_warnings data = [].
Proof.
  induction 1 as [|[p sources] [p' srcs] data out [Ep Hs] _ IH]; intros Hone.
  - split; reflexivity.
  - simpl in Ep, Hs. subst p'.
    destruct IH as [IH1 IH2].
    { intros q s w metas Hq. apply (Hone q s w metas). right. exact Hq. }
    assert (Hin : forall w metas, In (w, metas) sources -> List.length metas = 1%nat).
    { intros w metas Hw. apply (Hone p sources w metas (or_introl eq_refl) Hw). }
    assert (Hsrc : map (fun wm => (fst wm, [snd wm])) srcs = sources
                   /\ sources_warnings p sources = []).
    { clear - Hs Hin. induction Hs as [|[w metas] [w' m] sources srcs [Ew Hp] _ IHs].
      - split; reflexivity.
      - simpl in Ew, Hp. subst w'.
        destruct IHs as [I1 I2].
        { intros w0 metas0 H0. apply (Hin w0 metas0). right. exact H0. }
        pose proof (Hin w metas (or_introl eq_refl)) as Hl.
        destruct metas as [|m0 [|m1 l]]; try discriminate Hl.
        rewrite pick_singleton in Hp. injection Hp as <-.
        split.
        + simpl. rewrite I1. reflexivity.
        + unfold sources_warnings in *. simpl. exact I2. }
    destruct Hsrc as [H1 H2]. split.
    + simpl. rewrite H1, IH1. reflexivity.
    + unfold platforms_warnings in *. simpl. rewrite H2, IH2. reflexivity.
Qed.

Lemma singletons_injective r r' : singletons r = singletons r' -> r = r'.
Proof.
  assert (Hinner : forall (s s' : odict CondaPip Meta),
             map (fun wm => (fst wm, [snd wm])) s = map (fun wm => (fst wm, [snd wm])) s'
             -> s = s').
  { induction s as [|[w m] s IH]; intros [|[w' m'] s'] E; simpl in E;
      try discriminate; [reflexivity|].
    injection E as -> -> E. f_equal. apply IH, E. }
  revert r'. induction r as [|[p s] r IH]; intros [|[p' s'] r'] E; simpl in E;
    try discriminate; [reflexivity|].
  injection E as -> Es E. f_equal; [f_equal; apply Hinner, Es | apply IH, E].
Qed.

Lemma select_sources_wf p packages : forall acc out ws,
  wf acc -> select_sources p packages acc = (Ok out, ws) -> wf out.
Proof.
  induction packages as [|[w metas] rest IH]; intros acc out ws Hwf E.
  - simpl in E. injection E as <- _. exact Hwf.
  - cbn [select_sources] in E. rewrite select_bucket_eq in E.
    destruct (pick metas) as [sel|]; [|discriminate E].
    unfold wbind in E.
    destruct (select_sources p rest (set acc w sel)) as [[o|e] ws'] eqn:Er;
      [|discriminate E].
    injection E as <- _. apply (IH _ _ _ (wf_set acc w sel Hwf) Er).
Qed.

(** The output of the selector has distinct keys at both levels. *)
Lemma select_platforms_wf data : forall acc out ws,
  wf acc -> (forall p s, In (p, s) acc -> wf s) ->
  select_platforms data acc = (Ok out, ws) ->
  wf out /\ forall p s, In (p, s) out -> wf s.
Proof.
  induction data as [|[p sources] rest IH]; intros acc out ws Hwf Hin E.
  - simpl in E. injection E as <- _. auto.
  - cbn [select_platforms] in E.
    destruct (select_sources p sources []) as [[srcs|e] ws1] eqn:Es;
      [|discriminate E].
    unfold wbind in E.
    destruct (select_platforms rest (set acc p srcs)) as [[o|e] ws2] eqn:Er;
      [|discriminate E].
    injection E as <- _.
    apply (IH _ _ _ (wf_set acc p srcs Hwf)) in Er; [exact Er|].
    intros q s Hq.
    destruct (eq_dec q p) as [->|N].
    + pose proof (In_get _ _ _ (wf_set acc p srcs Hwf) Hq) as Hg.
      rewrite get_set_eq in Hg. injection Hg as <-.
      apply (select_sources_wf p sources [] srcs ws1); [constructor | exact Es].
    + pose proof (In_get _ _ _ (wf_set acc p srcs Hwf) Hq) as Hg.
      rewrite get_set_ne in Hg by congruence.
      apply (Hin q s), get_Some_In, Hg.
Qed.

Lemma singletons_well_grouped r :
  wf r -> (forall p s, In (p, s) r -> wf s) ->
  well_grouped (singletons r)
  /\ forall p sources w metas,
       In (p, sources) (singletons r) -> In (w, metas) sources ->
       List.length metas = 1%nat.
Proof.
  intros Hwf Hin.
  assert (Hk : keys (singletons r) = keys r).
  { unfold singletons, keys. rewrite map_map. reflexivity. }
  assert (Hel : forall p sources, In (p, sources) (singletons r) ->
                  exists s, In (p, s) r /\ sources = map (fun wm => (fst wm, [snd wm])) s).
  { intros p sources H. unfold singletons in H. apply in_map_iff in H as [[q s] [E H]].
    simpl in E. injection E as -> <-. eauto. }
  split; [split|].
  - unfold wf. rewrite Hk. exact Hwf.
  - intros p sources H. destruct (Hel p sources H) as [s [Hs ->]]. split.
    + unfold wf, keys. rewrite map_map. apply (Hin p s Hs).
    + intros w metas Hw. apply in_map_iff in Hw as [[w' m] [E _]].
      injection E as _ <-. discriminate.
  - intros p sources w metas H Hw. destruct (Hel p sources H) as [s [Hs ->]].
    apply in_map_iff in Hw as [[w' m] [E _]]. injection E as _ <-. reflexivity.
Qed.

(** C9.  On a well-formed structure whose buckets all hold exactly one
    [Meta], the selector returns without a warning and its output, wrapped
    back into single-element buckets, is its input; consequently running the
    selector again on the single-element buckets made of any of its outputs
    yields that same output and no warning. *)
Theorem C9_selector_idempotent_on_single_buckets :
  (forall p w m, select_bucket p w [m] = (Ok m, []))
  /\ (forall data,
        well_grouped data ->
        (forall p sources w metas,
           In (p, sources) data -> In (w, metas) sources -> List.length metas = 1%nat) ->
        exists reduced,
          _select_preferred_version_within_platform data = (Ok reduced, [])
          /\ singletons reduced = data)
  /\ (forall data reduced ws,
        _select_preferred_version_within_platform data = (Ok reduced, ws) ->
        _select_preferred_version_within_platform (singletons reduced)
        = (Ok reduced, [])).
Proof.
  assert (Hsingle : forall data,
        well_grouped data ->
        (forall p sources w metas,
           In (p, sources) data -> In (w, metas) sources -> List.length metas = 1%nat) ->
        exists reduced,
          _select_preferred_version_within_platform data = (Ok reduced, [])
          /\ singletons reduced = data).
  { intros data Hwg Hone.
    destruct (select_spec data Hwg) as [out [E Hp]].
    destruct (singletons_picked data out Hp Hone) as [H1 H2].
    exists out. rewrite E, H2. auto. }
  split; [reflexivity|]. split; [exact Hsingle|].
  intros data reduced ws E.
  destruct (select_platforms_wf data [] reduced ws) as [Hwf Hin]; auto.
  { constructor. }
  { intros p s []. }
  destruct (singletons_well_grouped reduced Hwf Hin) as [Hwg Hone].
  destruct (Hsingle _ Hwg Hone) as [r' [E' Hr']].
  apply singletons_injective in Hr'. subst r'. exact E'.
Qed.

(** C9, on the output of a run that discarded an unpinned entry. *)
Lemma C9_selector_idempotent_on_single_buckets_witness :
  _select_preferred_version_within_platform
    (singletons [(None, [(conda, with_pin (Some "=2.0") conda)]);
                 (Some "linux-64", [(conda, with_pin None conda); (pip, with_pin None pip)])])
  = (Ok [(None, [(conda, with_pin (Some "=2.0") conda)]);
         (Some "linux-64", [(conda, with_pin None conda); (pip, with_pin None pip)])],
     []).
Proof.
  apply (proj2 (proj2 C9_selector_idempotent_on_single_buckets)
           [(None, [(conda, [with_pin (Some "=2.0") conda; with_pin None conda])]);
            (Some "linux-64", [(conda, [with_pin None conda]); (pip, [with_pin None pip])])]
           _
           [PlatformConflict None (with_pin (Some "=2.0") conda) conda [with_pin None conda]]).
  vm_compute. reflexivity.
Defined.

End SelectorTheorems.

(** ** The grouper *)

Section GrouperFacts.

Lemma bucket_append_meta g p' m p w :
  bucket (append_meta g p' m) p w
  = (bucket g p w
     ++ if eq_dec p' p then if eq_dec (which m) w then [m] else [] else [])%list.
Proof.
  unfold bucket, append_meta.
  destruct (eq_dec p' p) as [->|Np].
  - rewrite get_set_eq.
    destruct (eq_dec (which m) w) as [->|Nw].
    + rewrite get_set_eq. destruct (get g p) as [sources|]; simpl; [|reflexivity].
      destruct (get sources (which m)); reflexivity.
    + rewrite get_set_ne by exact Nw. rewrite app_nil_r.
      destruct (get g p) as [sources|]; reflexivity.
  - rewrite get_set_ne by exact Np. rewrite app_nil_r. reflexivity.
Qed.

Lemma bucket_fold_platforms m p w ps : forall g,
  bucket (fold_left (fun g _platform => append_meta g _platform m) ps g) p w
  = (bucket g p w
     ++ if eq_dec (which m) w then repeat m (count_occ eq_dec ps p) else [])%list.
Proof.
  induction ps as [|p' ps IH]; intros g; simpl.
  - destruct (eq_dec (which m) w); rewrite app_nil_r; reflexivity.
  - rewrite IH, bucket_append_meta.
    destruct (eq_dec p' p) as [->|Np]; destruct (eq_dec (which m) w) as [Ew|Nw];
      simpl; rewrite <- ?app_assoc, ?app_nil_r; reflexivity.
Qed.

Lemma bucket_add_meta g m p w :
  bucket (add_meta g m) p w = (bucket g p w ++ copies p w m)%list.
Proof. apply bucket_fold_platforms. Qed.

Lemma bucket_fold_metas metas p w : forall g,
  bucket (fold_left add_meta metas g) p w
  = (bucket g p w ++ flat_map (copies p w) metas)%list.
Proof.
  induction metas as [|m metas IH]; intros g; simpl.
  - rewrite app_nil_r. reflexivity.
  - rewrite IH, bucket_add_meta, <- app_assoc. reflexivity.
Qed.

(** Every bucket of the grouper holds, in input order, the copies of the
    input [Meta]s that belong to it. *)
Lemma bucket_group_metas metas p w :
  bucket (group_metas metas) p w = flat_map (copies p w) metas.
Proof.
  unfold group_metas. fold add_meta.
  change (fold_left (fun g m => add_meta g m) metas [])
    with (fold_left add_meta metas []).
  rewrite bucket_fold_metas. reflexivity.
Qed.

Lemma copies_NoDup p w m :
  NoDup (platforms_or_null m) ->
  copies p w m = if in_bucket p w m then [m] else [].
Proof.
  intros Hnd. unfold copies, in_bucket.
  destruct (eq_dec (which m) w); [|reflexivity]. simpl.
  destruct (in_dec eq_dec p (platforms_or_null m)) as [Hin|Hni].
  - rewrite (proj1 (NoDup_count_occ' eq_dec _) Hnd p Hin). reflexivity.
  - rewrite (proj1 (count_occ_not_In eq_dec _ p) Hni). reflexivity.
Qed.

Lemma flat_map_filter {A : Type} (f : A -> bool) (g : A -> list A) (l : list A) :
  (forall x, In x l -> g x = if f x then [x] else []) ->
  flat_map g l = filter f l.
Proof.
  induction l as [|x l IH]; intros H; simpl; [reflexivity|].
  rewrite (H x (or_introl eq_refl)), IH.
  - destruct (f x); reflexivity.
  - intros y Hy. apply H. right. exact Hy.
Qed.

Lemma In_copies x p w m :
  In x (copies p w m) <-> x = m /\ which m = w /\ In p (platforms_or_null m).
Proof.
  unfold copies. destruct (eq_dec (which m) w) as [E|N].
  - rewrite (count_occ_In eq_dec (platforms_or_null m) p). split.
    + intros H. pose proof (repeat_spec _ _ _ H) as ->.
      repeat split; auto.
      destruct (count_occ eq_dec (platforms_or_null m) p); [destruct H | lia].
    + intros (-> & _ & Hc).
      destruct (count_occ eq_dec (platforms_or_null m) p); [lia | left; reflexivity].
  - simpl. intuition congruence.
Qed.

Lemma In_bucket_group_metas metas p w m :
  In m (bucket (group_metas metas) p w)
  <-> In m metas /\ which m = w /\ In p (platforms_or_null m).
Proof.
  rewrite bucket_group_metas, in_flat_map. split.
  - intros [x [Hx Hc]]. apply In_copies in Hc as (-> & E & Hp). auto.
  - intros (Hm & E & Hp). exists m. split; [exact Hm|]. apply In_copies. auto.
Qed.

Lemma grouped_inv_append g p' m : grouped_inv g -> grouped_inv (append_meta g p' m).
Proof.
  intros [Hwf Hb]. unfold append_meta.
  set (sources := match get g p' with Some d => d | None => [] end).
  assert (Hs : wf sources /\ forall w metas, get sources w = Some metas -> metas <> []).
  { unfold sources. destruct (get g p') as [d|] eqn:Eg; [apply (Hb p' d Eg)|].
    split; [constructor | discriminate]. }
  destruct Hs as [Hsw Hsn].
  split; [apply wf_set, Hwf|].
  intros p s Hg.
  destruct (eq_dec p' p) as [->|Np].
  - rewrite get_set_eq in Hg. injection Hg as <-.
    split; [apply wf_set, Hsw|].
    intros w metas Hw.
    destruct (eq_dec (which m) w) as [Ew|Nw].
    + subst w. rewrite get_set_eq in Hw. injection Hw as <-.
      intros E. apply app_eq_nil in E as [_ E]. discriminate E.
    + rewrite get_set_ne in Hw by exact Nw. apply (Hsn w metas Hw).
  - rewrite get_set_ne in Hg by exact Np. apply (Hb p s Hg).
Qed.

Lemma grouped_inv_group_metas metas : grouped_inv (group_metas metas).
Proof.
  unfold group_metas.
  assert (H : forall g, grouped_inv g ->
            grouped_inv (fold_left
              (fun grouped_metas meta =>
                 fold_left (fun g _platform => append_meta g _platform meta)
                           (platforms_or_null meta) grouped_metas) metas g)).
  { induction metas as [|m metas IH]; intros g Hg; simpl; [exact Hg|].
    apply IH. generalize (platforms_or_null m). intros ps. revert g Hg.
    induction ps as [|p' ps IHp]; intros g Hg; simpl; [exact Hg|].
    apply IHp, grouped_inv_append, Hg. }
  apply H. split; [constructor|]. intros p s Hg. discriminate Hg.
Qed.

Lemma grouped_inv_well_grouped g : grouped_inv g -> well_grouped g.
Proof.
  intros [Hwf Hb]. split; [exact Hwf|].
  intros p sources Hin.
  destruct (Hb p sources (In_get _ _ _ Hwf Hin)) as [Hsw Hsn].
  split; [exact Hsw|].
  intros w metas Hw. apply (Hsn w metas (In_get _ _ _ Hsw Hw)).
Qed.

Lemma well_grouped_group_metas metas : well_grouped (group_metas metas).
Proof. apply grouped_inv_well_grouped, grouped_inv_group_metas. Qed.

(** On distinct package names the outer loop maps [group_metas] over the
    items. *)
Lemma prepare_fold (requirements : odict string (list Meta)) :
  forall acc : odict string Grouped,
  NoDup (keys acc ++ keys requirements)%list ->
  fold_left
    (fun prepared_data '(package, meta_list) =>
       set prepared_data package (group_metas meta_list))
    requirements acc
  = (acc ++ map (fun x => (fst x, group_metas (snd x))) requirements)%list.
Proof.
  induction requirements as [|[pkg metas] rest IH]; intros acc Hnd; simpl.
  - rewrite app_nil_r. reflexivity.
  - destruct (NoDup_keys_snoc acc pkg (group_metas metas) (keys rest) Hnd)
      as [Hfresh Hnd'].
    rewrite (set_fresh _ _ _ Hfresh), (IH _ Hnd'), <- app_assoc. reflexivity.
Qed.

Lemma prepare_eq requirements :
  wf requirements ->
  _prepare_metas_for_conflict_resolution requirements
  = map (fun x => (fst x, group_metas (snd x))) requirements.
Proof.
  intros Hwf. unfold _prepare_metas_for_conflict_resolution.
  apply (prepare_fold requirements [] Hwf).
Qed.

Lemma get_map_values {K A B : Type} `{EqDec K} (f : A -> B) (d : odict K A) k :
  get (map (fun x => (fst x, f (snd x))) d) k = option_map f (get d k).
Proof.
  induction d as [|[k0 a] d IH]; simpl; [reflexivity|].
  destruct (eq_dec k0 k); [reflexivity | exact IH].
Qed.

(** C7.  For distinct package names and platform lists without repetition,
    the grouper stores under each package a structure whose bucket for
    platform [p] and source [w] is exactly the sub-list, in input order and
    with repetitions kept, of the input [Meta]s of source [w] that apply to
    [p]; a [Meta] with a null platform set is in the null-platform bucket
    of its source only, and a [Meta] with a platform list is in the buckets
    of exactly those platforms. *)
Theorem C7_grouper_buckets requirements pkg metas :
  wf requirements ->
  In (pkg, metas) requirements ->
  (forall m, In m metas -> NoDup (platforms_or_null m)) ->
  exists g,
    get (_prepare_metas_for_conflict_resolution requirements) pkg = Some g
    /\ (forall p w, bucket g p w = filter (in_bucket p w) metas)
    /\ (forall m p w, In m metas -> platforms m = None ->
          (In m (bucket g p w) <-> p = None /\ w = which m))
    /\ (forall m ps p w, In m metas -> platforms m = Some ps ->
          (In m (bucket g p w) <-> (exists q, p = Some q /\ In q ps) /\ w = which m)).
Proof.
  intros Hwf Hin Hnd. exists (group_metas metas).
  rewrite (prepare_eq _ Hwf), get_map_values, (In_get _ _ _ Hwf Hin).
  split; [reflexivity|]. split; [|split].
  - intros p w. rewrite bucket_group_metas. apply flat_map_filter.
    intros m Hm. apply copies_NoDup, Hnd, Hm.
  - intros m p w Hm Hp. rewrite In_bucket_group_metas.
    unfold platforms_or_null. rewrite Hp. simpl. intuition congruence.
  - intros m ps p w Hm Hp. rewrite In_bucket_group_metas.
    unfold platforms_or_null. rewrite Hp. rewrite in_map_iff. split.
    + intros (_ & E & q & Eq & Hq). split; [eauto | congruence].
    + intros ((q & Eq & Hq) & E). repeat split; eauto.
Qed.

(** C7, on [numpy_requirements]. *)
Lemma C7_grouper_buckets_witness :
  exists g,
    get (_prepare_metas_for_conflict_resolution numpy_requirements) "numpy" = Some g
    /\ (forall p w,
          bucket g p w
          = filter (in_bucket p w)
                   [numpy_unpinned; numpy_pinned; numpy_pip; numpy_unpinned])
    /\ (forall m p w,
          In m [numpy_unpinned; numpy_pinned; numpy_pip; numpy_unpinned] ->
          platforms m = None ->
          (In m (bucket g p w) <-> p = None /\ w = which m))
    /\ (forall m ps p w,
          In m [numpy_unpinned; numpy_pinned; numpy_pip; numpy_unpinned] ->
          platforms m = Some ps ->
          (In m (bucket g p w) <-> (exists q, p = Some q /\ In q ps) /\ w = which m)).
Proof.
  apply (C7_grouper_buckets numpy_requirements "numpy"
           [numpy_unpinned; numpy_pinned; numpy_pip; numpy_unpinned]).
  - constructor; [intros [] | constructor].
  - left. reflexivity.
  - intros m Hm. list_cases Hm; vm_compute;
      repeat (constructor; [simpl; intuition discriminate|]); constructor.
Defined.

End GrouperFacts.

(** ** The whole resolution *)

Section ResolutionFacts.

Lemma select_all_spec prepared : forall acc : odict string Reduced,
  NoDup (keys acc ++ keys prepared)%list ->
  (forall pkg data, In (pkg, data) prepared -> well_grouped data) ->
  exists out,
    select_all prepared acc = (Ok (acc ++ out)%list, all_warnings prepared)
    /\ picked_all prepared out.
Proof.
  induction prepared as [|[pkg data] rest IH]; intros acc Hnd Hwg.
  - exists []. simpl. rewrite app_nil_r. split; [reflexivity | constructor].
  - destruct (select_spec data (Hwg pkg data (or_introl eq_refl))) as [r [Es Hps]].
    destruct (NoDup_keys_snoc acc pkg r (keys rest) Hnd) as [Hfresh Hnd'].
    destruct (IH (acc ++ [(pkg, r)])%list Hnd') as [out [E Hp]].
    { intros pkg' d' Hin. apply (Hwg pkg' d'). right. exact Hin. }
    exists ((pkg, r) :: out). split.
    + cbn [select_all]. rewrite Es.
      unfold wbind. rewrite (set_fresh _ _ _ Hfresh).
      unfold Reduced, odict in *. rewrite E, <- app_assoc. reflexivity.
    + constructor; [split; [reflexivity | exact Hps] | exact Hp].
Qed.

Lemma reconcile_warnings sources r ws :
  _resolve_conda_pip_conflicts sources = (Ok r, ws) -> pin_conflicts_only ws.
Proof.
  unfold _resolve_conda_pip_conflicts, pin_conflicts_only.
  destruct (get sources conda) as [c|], (get sources pip) as [p|];
    try (intros [= <- <-] w []).
  destruct (truthy (pin c) && negb (truthy (pin p))); [intros [= <- <-] w []|].
  destruct (truthy (pin p) && negb (truthy (pin c))); [intros [= <- <-] w []|].
  destruct (pin_eqb (pin c) (pin p)); [intros [= <- <-] w []|].
  intros [= <- <-] w [<- | []]. eauto.
Qed.

Lemma pin_conflicts_only_app ws ws' :
  pin_conflicts_only ws -> pin_conflicts_only ws' -> pin_conflicts_only (ws ++ ws')%list.
Proof.
  intros H H' w Hin. apply in_app_or in Hin as [Hin | Hin]; auto.
Qed.

Lemma reconcile_platforms_spec r :
  exists out ws,
    reconcile_platforms r = (Ok out, ws)
    /\ reconciled_platforms r out /\ pin_conflicts_only ws.
Proof.
  induction r as [|[p sources] rest (out & ws & E & Hr & Hw)].
  - exists [], []. split; [reflexivity|]. split; [constructor | intros w []].
  - destruct (reconcile_total sources) as (s' & ws1 & Es).
    exists ((p, s') :: out), (ws1 ++ (ws ++ []))%list.
    split; [|split].
    + cbn [reconcile_platforms]. rewrite Es. unfold wbind at 1. rewrite E.
      reflexivity.
    + constructor; [|exact Hr]. split; [reflexivity|]. exists ws1. exact Es.
    + apply pin_conflicts_only_app; [apply (reconcile_warnings _ _ _ Es)|].
      rewrite app_nil_r. exact Hw.
Qed.

Lemma reconcile_all_spec resolved :
  exists out ws,
    reconcile_all resolved = (Ok out, ws)
    /\ reconciled_all resolved out /\ pin_conflicts_only ws.
Proof.
  induction resolved as [|[pkg r] rest (out & ws & E & Hr & Hw)].
  - exists [], []. split; [reflexivity|]. split; [constructor | intros w []].
  - destruct (reconcile_platforms_spec r) as (r' & ws1 & Es & Hr1 & Hw1).
    exists ((pkg, r') :: out), (ws1 ++ (ws ++ []))%list.
    split; [|split].
    + cbn [reconcile_all]. rewrite Es. unfold wbind at 1. rewrite E.
      reflexivity.
    + constructor; [|exact Hr]. split; [reflexivity | exact Hr1].
    + apply pin_conflicts_only_app; [exact Hw1|].
      rewrite app_nil_r. exact Hw.
Qed.

(** What the reconciler does to the entry of one source. *)
Lemma reconcile_slot rs so w sel :
  get rs w = Some sel ->
  reconciled_sources rs so ->
  get so w = Some sel
  \/ (get so w = None /\ truthy (pin sel) = false
      /\ exists sel', get so (other_source w) = Some sel'
                      /\ truthy (pin sel') = true).
Proof.
  intros Hg [ws E]. unfold _resolve_conda_pip_conflicts in E.
  destruct (get rs conda) as [c|] eqn:Ec, (get rs pip) as [p|] eqn:Ep;
    try (injection E as <- _; left; exact Hg).
  assert (Hsel : sel = match w with conda => c | pip => p end).
  { destruct w; congruence. }
  destruct (truthy (pin c)) eqn:Tc, (truthy (pin p)) eqn:Tp; cbn [andb negb] in E;
    try (destruct (pin_eqb (pin c) (pin p)));
    injection E as <- _; subst sel; destruct w; cbn;
    first [left; reflexivity
          | right; repeat split; auto; eexists; split; [reflexivity | assumption]].
Qed.

Lemma filter_flat_map_nil {A B : Type} (f : B -> bool) (g : A -> list B) (l : list A) :
  (forall x, In x l -> filter f (g x) = []) -> filter f (flat_map g l) = [].
Proof.
  induction l as [|x l IH]; intros H; simpl; [reflexivity|].
  rewrite filter_app, (H x (or_introl eq_refl)), IH; [reflexivity|].
  intros y Hy. apply H. right. exact Hy.
Qed.

(** Under distinct keys, a filter that rejects what every other key
    contributes sees only the contribution of one key. *)
Lemma filter_flat_map_key {K V B : Type} `{EqDec K} (f : B -> bool)
    (g : K * V -> list B) (d : odict K V) (k : K) (v : V) :
  wf d -> In (k, v) d ->
  (forall k' v', In (k', v') d -> k' <> k -> filter f (g (k', v')) = []) ->
  filter f (flat_map g d) = filter f (g (k, v)).
Proof.
  unfold wf. induction d as [|[k0 v0] d IH]; intros Hwf Hin Hoth; [destruct Hin|].
  simpl in Hwf. inversion Hwf as [|? ? Hni Hnd]; subst.
  simpl. rewrite filter_app. destruct Hin as [E | Hin].
  - injection E as -> ->.
    rewrite filter_flat_map_nil, app_nil_r; [reflexivity|].
    intros [k' v'] Hx. apply Hoth; [right; exact Hx|].
    intros ->. apply Hni. apply (in_map fst _ _ Hx).
  - assert (N : k0 <> k).
    { intros ->. apply Hni. apply (in_map fst _ _ Hin). }
    rewrite (Hoth k0 v0 (or_introl eq_refl) N). simpl.
    apply IH; auto. intros k' v' H'. apply Hoth. right. exact H'.
Qed.

Lemma bucket_warnings_inv p w metas x :
  In x (bucket_warnings p w metas) ->
  exists sel d, x = PlatformConflict p sel w d /\ forall m, In m d -> In m metas.
Proof.
  unfold bucket_warnings. destruct (1 <? List.length metas)%nat; [|intros []].
  destruct (sort_desc metas) as [|sel rest] eqn:E; [intros []|].
  destruct (filter (fun m => Meta_neqb m sel) rest) as [|d ds] eqn:Ef; [intros []|].
  intros [<- | []]. exists sel, (d :: ds). split; [reflexivity|].
  intros m Hm. rewrite <- Ef in Hm. apply filter_In in Hm as [Hm _].
  apply sort_desc_In. rewrite E. right. exact Hm.
Qed.

Lemma sources_warnings_inv p sources x :
  In x (sources_warnings p sources) ->
  exists w metas sel d,
    In (w, metas) sources /\ x = PlatformConflict p sel w d
    /\ forall m, In m d -> In m metas.
Proof.
  unfold sources_warnings. intros H. apply in_flat_map in H as [[w metas] [Hin Hx]].
  apply bucket_warnings_inv in Hx as (sel & d & -> & Hd). simpl in *.
  exists w, metas, sel, d. auto.
Qed.

Lemma bucket_of_In g p sources w metas :
  wf g -> In (p, sources) g -> wf sources -> In (w, metas) sources ->
  bucket g p w = metas.
Proof.
  intros Hwf Hin Hsw Hw. unfold bucket.
  rewrite (In_get _ _ _ Hwf Hin), (In_get _ _ _ Hsw Hw). reflexivity.
Qed.

Lemma platforms_warnings_inv g x :
  well_grouped g -> In x (platforms_warnings g) ->
  exists p w sel d,
    x = PlatformConflict p sel w d /\ forall m, In m d -> In m (bucket g p w).
Proof.
  intros [Hwf Hb] H. unfold platforms_warnings in H.
  apply in_flat_map in H as [[p sources] [Hin Hx]]. simpl in Hx.
  apply sources_warnings_inv in Hx as (w & metas & sel & d & Hw & -> & Hd).
  exists p, w, sel, d. split; [reflexivity|].
  destruct (Hb p sources Hin) as [Hsw _].
  rewrite (bucket_of_In g p sources w metas Hwf Hin Hsw Hw). exact Hd.
Qed.

Lemma names_true p m x :
  names p m x = true ->
  exists sel w d, x = PlatformConflict p sel w d /\ In m d.
Proof.
  destruct x as [p' sel w d|a b]; simpl; [|discriminate].
  destruct (eq_dec p' p) as [->|]; [|discriminate].
  destruct (in_dec eq_dec m d); [|discriminate]. eauto.
Qed.

Lemma named_count_app p m ws ws' :
  named_count p m (ws ++ ws')%list = (named_count p m ws + named_count p m ws')%nat.
Proof.
  unfold named_count. rewrite filter_app, length_app. reflexivity.
Qed.

Lemma named_count_pin_conflicts p m ws :
  pin_conflicts_only ws -> named_count p m ws = 0%nat.
Proof.
  intros H. unfold named_count. rewrite filter_none; [reflexivity|].
  intros w Hw. destruct (H w Hw) as (a & b & ->). reflexivity.
Qed.

(** The warnings of the bucket that holds [m]. *)
Lemma bucket_named p w metas m sel :
  pick metas = Some sel -> In m metas ->
  List.length (filter (names p m) (bucket_warnings p w metas))
  = if eq_dec m sel then 0%nat else 1%nat.
Proof.
  intros Hp Hm.
  destruct (bucket_warnings_cases p w metas sel Hp) as [[E Hall] | (d & E & Hd)].
  - rewrite E. simpl. rewrite (Hall m Hm).
    destruct (eq_dec sel sel); [|congruence]. auto.
  - rewrite E. simpl. destruct (eq_dec p p) as [_|N]; [|congruence]. simpl.
    destruct (in_dec eq_dec m d) as [Hin|Hni].
    + apply Hd in Hin as [_ Hne].
      destruct (eq_dec m sel); [congruence|]. auto.
    + destruct (eq_dec m sel) as [_|Hne]; [auto|].
      exfalso. apply Hni, Hd. auto.
Qed.

(** Within one package, the discard warnings for platform [p] that name
    [m] come from the bucket of [p] and the source of [m] only. *)
Lemma named_count_grouped g p m :
  well_grouped g ->
  (forall p' w' m', In m' (bucket g p' w') -> which m' = w') ->
  In m (bucket g p (which m)) ->
  exists sel,
    pick (bucket g p (which m)) = Some sel
    /\ named_count p m (platforms_warnings g) = if eq_dec m sel then 0%nat else 1%nat.
Proof.
  intros [Hwf Hb] Hwhich Hin.
  assert (Hbk : forall w, bucket g p w
                = match get g p with
                  | Some sources => match get sources w with
                                    | Some metas => metas
                                    | None => []
                                    end
                  | None => []
                  end) by reflexivity.
  destruct (get g p) as [srcs|] eqn:Eg; [|rewrite Hbk in Hin; destruct Hin].
  destruct (get srcs (which m)) as [b|] eqn:Eb;
    [|rewrite Hbk, Eb in Hin; destruct Hin].
  pose proof (get_Some_In _ _ _ Eg) as HinP.
  destruct (Hb p srcs HinP) as [Hsw Hne].
  pose proof (get_Some_In _ _ _ Eb) as HinW.
  assert (Ebk : bucket g p (which m) = b) by (rewrite Hbk, Eb; reflexivity).
  rewrite Ebk in *.
  destruct (pick_nonempty b (Hne _ _ HinW)) as [sel Hs].
  exists sel. split; [exact Hs|].
  unfold named_count, platforms_warnings.
  rewrite (filter_flat_map_key (names p m)
             (fun ps => sources_warnings (fst ps) (snd ps)) g p srcs Hwf HinP).
  - cbn [fst snd]. unfold sources_warnings.
    rewrite (filter_flat_map_key (names p m)
               (fun wm => bucket_warnings p (fst wm) (snd wm)) srcs (which m) b Hsw HinW).
    + cbn [fst snd]. apply bucket_named; assumption.
    + intros w' b' Hw' Nw. cbn [fst snd]. apply filter_none. intros x Hx.
      apply bucket_warnings_inv in Hx as (sel' & d & -> & Hd). simpl.
      destruct (eq_dec p p) as [_|N]; [|congruence]. simpl.
      destruct (in_dec eq_dec m d) as [Hmd|]; [|reflexivity].
      exfalso. apply Nw. symmetry. apply (Hwhich p w' m).
      rewrite Hbk, (In_get _ _ _ Hsw Hw'). apply Hd, Hmd.
  - intros p' s' Hp' Np. cbn [fst snd]. apply filter_none. intros x Hx.
    apply sources_warnings_inv in Hx as (w' & metas' & sel' & d & _ & -> & _).
    simpl. destruct (eq_dec p' p); [congruence | reflexivity].
Qed.

(** Across packages, when every [Meta] is listed under its own name, the
    discard warnings that name [m] come from the package of [m] only. *)
Lemma named_count_all (requirements : odict string (list Meta)) pkg metas m p :
  wf requirements ->
  (forall pkg' metas' m', In (pkg', metas') requirements -> In m' metas' ->
     name m' = pkg') ->
  In (pkg, metas) requirements -> In m metas ->
  named_count p m
    (all_warnings (map (fun x => (fst x, group_metas (snd x))) requirements))
  = named_count p m (platforms_warnings (group_metas metas)).
Proof.
  intros Hwf Hname Hin Hm. unfold named_count, all_warnings.
  set (prepared := map (fun x => (fst x, group_metas (snd x))) requirements).
  assert (Hwp : wf prepared).
  { unfold wf, prepared, keys. rewrite map_map. exact Hwf. }
  assert (Hip : In (pkg, group_metas metas) prepared).
  { unfold prepared. apply in_map_iff. exists (pkg, metas). auto. }
  rewrite (filter_flat_map_key (names p m)
             (fun pd => platforms_warnings (snd pd)) prepared pkg
             (group_metas metas) Hwp Hip); [reflexivity|].
  intros pkg' g' Hg' Np. cbn [snd]. apply filter_none. intros x Hx.
  unfold prepared in Hg'. apply in_map_iff in Hg' as [[q metas'] [E Hq]].
  simpl in E. injection E as -> <-.
  apply (platforms_warnings_inv _ _ (well_grouped_group_metas metas')) in Hx
    as (p' & w' & sel & d & -> & Hd).
  simpl. destruct (eq_dec p' p); [|reflexivity]. simpl.
  destruct (in_dec eq_dec m d) as [Hmd|]; [|reflexivity].
  exfalso. apply Np.
  apply Hd, In_bucket_group_metas in Hmd as [Hmm _].
  rewrite <- (Hname pkg' metas' m Hq Hmm). apply (Hname pkg metas m Hin Hm).
Qed.

(** The stages of [resolve_conflicts] on distinct package names. *)
Lemma resolve_conflicts_stages (requirements : odict string (list Meta)) :
  wf requirements ->
  let prepared := map (fun x => (fst x, group_metas (snd x))) requirements in
  exists resolved out rws,
    resolve_conflicts requirements = (Ok out, (all_warnings prepared ++ rws)%list)
    /\ picked_all prepared resolved
    /\ reconciled_all resolved out
    /\ pin_conflicts_only rws.
Proof.
  intros Hwf prepared.
  assert (Hwp : wf prepared).
  { unfold wf, prepared, keys. rewrite map_map. exact Hwf. }
  destruct (select_all_spec prepared [] Hwp) as [resolved [Es Hp]].
  { intros pkg data Hin. unfold prepared in Hin.
    apply in_map_iff in Hin as [[q metas] [E _]]. injection E as _ <-.
    apply well_grouped_group_metas. }
  destruct (reconcile_all_spec resolved) as (out & rws & Er & Hr & Hw).
  exists resolved, out, rws.
  split; [|auto].
  unfold resolve_conflicts. rewrite (prepare_eq _ Hwf). fold prepared.
  rewrite Es. unfold wbind. cbn [app]. rewrite Er. reflexivity.
Qed.

(** C3 (as stated, refuted).  A conda [Meta] pinned [=2.0] and an unpinned
    pip [Meta] of the same package, both for all platforms: the reconciler
    keeps the conda entry only and warns about nothing, so the pip [Meta] is
    neither in a surviving slot nor named in a discard warning. *)
Lemma C3_counterexample :
  ~ survives_or_is_discarded
      [("requests", [mkMeta "requests" (Some "=2.0") conda None "requests =2.0";
                     mkMeta "requests" None pip None "requests"])].
Proof.
  intros H. red in H.
  specialize (H [("requests",
                  [(None, [(conda, mkMeta "requests" (Some "=2.0") conda None "requests =2.0")])])]
                [] "requests"
                [mkMeta "requests" (Some "=2.0") conda None "requests =2.0";
                 mkMeta "requests" None pip None "requests"]
                (mkMeta "requests" None pip None "requests")).
  destruct H as [[H _] | [_ H]].
  - vm_compute. reflexivity.
  - left. reflexivity.
  - right. left. reflexivity.
  - vm_compute in H. discriminate H.
  - vm_compute in H. discriminate H.
Qed.

(** C3 (amended).  For distinct package names with every [Meta] listed
    under its own name, [resolve_conflicts] returns, and for every input
    [Meta] [m] and every platform [p] of its platform set (null when the set
    is null), with [sel] the [Meta] the selector keeps for the bucket of the
    package, [p] and the source of [m]: either [m] equals [sel] and no
    discard warning for [p] names [m], or [m] differs from [sel] and exactly
    one discard warning for [p] names [m]; and [sel] is the entry of the
    output slot of [p] and that source, unless the reconciler removed it,
    which it does without a warning only when the pin of [sel] is null or
    empty and the other source's entry, which is kept, has a non-empty
    pin. *)
Theorem C3_selected_or_discarded_per_platform
    (requirements : odict string (list Meta)) :
  wf requirements ->
  (forall pkg metas m, In (pkg, metas) requirements -> In m metas -> name m = pkg) ->
  exists out ws,
    resolve_conflicts requirements = (Ok out, ws)
    /\ forall pkg metas m p,
         In (pkg, metas) requirements -> In m metas ->
         In p (platforms_or_null m) ->
         exists sel,
           pick (bucket (group_metas metas) p (which m)) = Some sel
           /\ ((m = sel /\ named_count p m ws = 0%nat)
               \/ (m <> sel /\ named_count p m ws = 1%nat))
           /\ (slot_of out pkg p (which m) = Some sel
               \/ (slot_of out pkg p (which m) = None
                   /\ truthy (pin sel) = false
                   /\ exists sel',
                        slot_of out pkg p (other_source (which m)) = Some sel'
                        /\ truthy (pin sel') = true)).
Proof.
  intros Hwf Hname.
  destruct (resolve_conflicts_stages requirements Hwf)
    as (resolved & out & rws & E & Hpick & Hrec & Hrws).
  set (prepared := map (fun x => (fst x, group_metas (snd x))) requirements) in *.
  exists out, (all_warnings prepared ++ rws)%list. split; [exact E|].
  intros pkg metas m p Hin Hm Hp.
  set (g := group_metas metas).
  assert (Hmb : In m (bucket g p (which m))).
  { apply In_bucket_group_metas. auto. }
  destruct (named_count_grouped g p m (well_grouped_group_metas metas)) as [sel [Hs Hc]].
  { intros p' w' m' H'. apply In_bucket_group_metas in H'. tauto. }
  { exact Hmb. }
  exists sel. split; [exact Hs|]. split.
  - rewrite named_count_app, (named_count_pin_conflicts _ _ _ Hrws), Nat.add_0_r.
    unfold prepared. rewrite (named_count_all requirements pkg metas m p Hwf Hname Hin Hm).
    fold g. rewrite Hc. destruct (eq_dec m sel); [left | right]; auto.
  - (* the slot of the output *)
    assert (Hgp : get prepared pkg = Some g).
    { unfold prepared. rewrite get_map_values, (In_get _ _ _ Hwf Hin). reflexivity. }
    pose proof (get_Forall2 (fun _ a b => picked_platforms a b) prepared resolved Hpick pkg)
      as H1.
    rewrite Hgp in H1. destruct (get resolved pkg) as [r|] eqn:Er; [|destruct H1].
    pose proof (get_Forall2 (fun _ a b => reconciled_platforms a b) resolved out Hrec pkg)
      as H2.
    rewrite Er in H2. destruct (get out pkg) as [ro|] eqn:Eo; [|destruct H2].
    unfold slot_of. rewrite Eo. unfold slot.
    unfold bucket in Hmb, Hs.
    destruct (get g p) as [srcs|] eqn:Egp; [|destruct Hmb].
    pose proof (get_Forall2 (fun _ a b => picked_sources a b) g r H1 p) as H3.
    rewrite Egp in H3. destruct (get r p) as [rs|] eqn:Erp; [|destruct H3].
    pose proof (get_Forall2 (fun _ a b => reconciled_sources a b) r ro H2 p) as H4.
    rewrite Erp in H4. destruct (get ro p) as [so|] eqn:Eop; [|destruct H4].
    destruct (get srcs (which m)) as [b|] eqn:Eb; [|destruct Hmb].
    pose proof (get_Forall2 (fun _ a b => pick a = Some b) srcs rs H3 (which m)) as H5.
    rewrite Eb in H5. destruct (get rs (which m)) as [sel0|] eqn:Ers; [|destruct H5].
    assert (sel0 = sel) by congruence. subst sel0.
    apply (reconcile_slot rs so (which m) sel Ers H4).
Qed.

(** C3, on [numpy_requirements]. *)
Lemma C3_selected_or_discarded_per_platform_witness :
  exists out ws,
    resolve_conflicts numpy_requirements = (Ok out, ws)
    /\ forall pkg metas m p,
         In (pkg, metas) numpy_requirements -> In m metas ->
         In p (platforms_or_null m) ->
         exists sel,
           pick (bucket (group_metas metas) p (which m)) = Some sel
           /\ ((m = sel /\ named_count p m ws = 0%nat)
               \/ (m <> sel /\ named_count p m ws = 1%nat))
           /\ (slot_of out pkg p (which m) = Some sel
               \/ (slot_of out pkg p (which m) = None
                   /\ truthy (pin sel) = false
                   /\ exists sel',
                        slot_of out pkg p (other_source (which m)) = Some sel'
                        /\ truthy (pin sel') = true)).
Proof.
  apply (C3_selected_or_discarded_per_platform numpy_requirements).
  - constructor; [intros [] | constructor].
  - intros pkg metas m [E | []] Hm. injection E as <- <-.
    list_cases Hm; reflexivity.
Defined.

End ResolutionFacts.

(** * Further properties *)

(** ** The combiner: outcomes *)

Section CombinerOutcomes.
Import Py.

Lemma filter_all {A : Type} (f : A -> bool) (l : list A) :
  (forall x, In x l -> f x = true) -> filter f l = l.
Proof.
  induction l as [|x l IH]; intros H; simpl; [reflexivity|].
  rewrite (H x (or_introl eq_refl)), IH; [reflexivity|].
  intros y Hy. apply H. right. exact Hy.
Qed.

Lemma filter_nil_none {A : Type} (f : A -> bool) (l : list A) :
  filter f l = [] -> forall x, In x l -> f x = false.
Proof.
  induction l as [|y l IH]; intros E x Hx; [destruct Hx|].
  simpl in E. destruct (f y) eqn:Ey; [discriminate E|].
  destruct Hx as [<- | Hx]; auto.
Qed.

Lemma spec_surviving_incl valid : incl (spec_surviving valid) valid.
Proof. intros p Hp. apply filter_In in Hp. tauto. Qed.

Lemma clash_neq p q : clash p q = true -> p <> q.
Proof. intros H ->. rewrite clash_irrefl in H. discriminate. Qed.

Lemma join_single sep x : join sep [x] = x.
Proof. reflexivity. Qed.

(** Every outcome of [combine_version_pinnings]: the comma-join of valid
    pins, empty only when no pin is valid, or the contradiction error on two
    different valid pins. *)
Lemma combine_outcome pinnings :
  (exists l,
     combine_version_pinnings pinnings = Ok (join "," l)
     /\ incl l (filter _is_valid_pinning pinnings)
     /\ (l = [] <-> filter _is_valid_pinning pinnings = []))
  \/ (exists p q,
        combine_version_pinnings pinnings = Raise (Contradictory p q)
        /\ In p (filter _is_valid_pinning pinnings)
        /\ In q (filter _is_valid_pinning pinnings)
        /\ p <> q).
Proof.
  set (valid := filter _is_valid_pinning pinnings).
  assert (Hp : Forall parses valid) by apply filter_valid_parses.
  destruct valid as [|v0 vs] eqn:Ev.
  { left. exists []. unfold combine_version_pinnings. fold valid. rewrite Ev.
    split; [reflexivity|]. split; [apply incl_refl | tauto]. }
  rewrite <- Ev in *.
  assert (Hne : valid <> []) by (rewrite Ev; discriminate).
  destruct (filter is_exact valid) as [|exact rest] eqn:Ee.
  - (* comparison pins only *)
    pose proof (filter_nil_none _ _ Ee) as Hno.
    pose proof (combine_comparisons pinnings Hno Hne) as Hc. fold valid in Hc.
    assert (Hs : Forall parses (spec_surviving valid)).
    { apply Forall_forall. intros p Hin. apply spec_surviving_incl in Hin.
      revert p Hin. apply Forall_forall, Hp. }
    destruct (contradiction_check_spec _ Hs)
      as [[Hok _] | (p & q & Hip & Hiq & Hcl & Hr)].
    + left. rewrite Hc, Hok. cbn [rbind].
      destruct (spec_surviving valid) as [|s0 ss] eqn:Es.
      * destruct (min_by_version_spec (fallback_candidates valid)) as [r [Er [Hin _]]].
        { apply Forall_forall. intros q Hq. apply fallback_candidates_incl in Hq.
          revert q Hq. apply Forall_forall, Hp. }
        { apply fallback_candidates_nonempty, Hne. }
        exists [r]. rewrite Er, join_single. split; [reflexivity|]. split.
        -- intros x [<- | []]. apply fallback_candidates_incl, Hin.
        -- split; [discriminate | intros E; congruence].
      * exists (s0 :: ss). split; [reflexivity|]. split.
        -- rewrite <- Es. apply spec_surviving_incl.
        -- split; [discriminate | intros E; congruence].
    + right. exists p, q. rewrite Hc, Hr. cbn [rbind].
      split; [reflexivity|].
      split; [apply spec_surviving_incl, Hip|].
      split; [apply spec_surviving_incl, Hiq | apply clash_neq, Hcl].
  - (* an exact pin *)
    destruct (combine_exact pinnings exact rest Ee) as [n [Hn Hc]]. fold valid in Hc.
    assert (Hin : In exact valid).
    { assert (H : In exact (filter is_exact valid)) by (rewrite Ee; left; reflexivity).
      apply filter_In in H. tauto. }
    destruct (exact_check_spec exact n valid Hp)
      as [[Hok _] | (o & Ho & Hneq & _ & Hr)].
    + left. exists [exact]. rewrite Hc, Hok, join_single.
      split; [reflexivity|]. split.
      * intros x [<- | []]. exact Hin.
      * split; [discriminate | intros E; congruence].
    + right. exists exact, o. rewrite Hc, Hr. auto.
Qed.

(** X1.  [combine_version_pinnings] raises nothing but the contradiction
    error, and the two pins the error carries are two different valid pins
    of the input: no [int()] error of a malformed pin ever escapes. *)
Theorem X1_combine_raises_only_contradictions pinnings e :
  combine_version_pinnings pinnings = Raise e ->
  exists p q,
    e = Contradictory p q
    /\ In p pinnings /\ In q pinnings
    /\ _is_valid_pinning p = true /\ _is_valid_pinning q = true
    /\ p <> q.
Proof.
  intros E.
  destruct (combine_outcome pinnings) as [(l & El & _) | (p & q & Er & Hp & Hq & Hne)].
  - rewrite El in E. discriminate E.
  - rewrite Er in E. injection E as <-.
    apply filter_In in Hp as [Hp Vp]. apply filter_In in Hq as [Hq Vq].
    exists p, q. auto 10.
Qed.

(** X1, on an upper bound below a lower bound. *)
Lemma X1_combine_raises_only_contradictions_witness :
  exists p q,
    Contradictory ">5" "<3" = Contradictory p q
    /\ In p [">5"; "oops"; "<3"] /\ In q [">5"; "oops"; "<3"]
    /\ _is_valid_pinning p = true /\ _is_valid_pinning q = true
    /\ p <> q.
Proof.
  apply (X1_combine_raises_only_contradictions [">5"; "oops"; "<3"]).
  vm_compute. reflexivity.
Defined.

(** X2.  Whatever [combine_version_pinnings] returns is the comma-join of
    pins taken from the input, each of them valid: the result never holds a
    malformed pin or a pin that was not given. *)
Theorem X2_combine_returns_valid_input_pins pinnings r :
  combine_version_pinnings pinnings = Ok r ->
  exists l,
    r = join "," l
    /\ forall p, In p l -> In p pinnings /\ _is_valid_pinning p = true.
Proof.
  intros E.
  destruct (combine_outcome pinnings) as [(l & El & Hl & _) | (p & q & Er & _)].
  - rewrite El in E. injection E as <-. exists l. split; [reflexivity|].
    intros p Hp. apply Hl, filter_In in Hp. exact Hp.
  - rewrite Er in E. discriminate E.
Qed.

(** X2, on a list with a malformed pin. *)
Lemma X2_combine_returns_valid_input_pins_witness :
  exists l,
    ">=1,<5" = join "," l
    /\ forall p, In p l ->
         In p [">=1"; "1.2.3"; "<5"; "<7"] /\ _is_valid_pinning p = true.
Proof.
  apply (X2_combine_returns_valid_input_pins [">=1"; "1.2.3"; "<5"; "<7"]).
  vm_compute. reflexivity.
Defined.

Lemma valid_nonempty p : _is_valid_pinning p = true -> p <> "".
Proof. intros H ->. discriminate H. Qed.

Lemma join_nonempty sep x l : x <> "" -> join sep (x :: l) <> "".
Proof.
  intros Hx. unfold join. destruct l as [|y l]; simpl; [exact Hx|].
  destruct x as [|c x]; [congruence | discriminate].
Qed.

(** X3.  The empty string is returned exactly when no pin of the input is
    valid; in particular on the empty list and on any list of malformed
    pins. *)
Theorem X3_combine_empty_iff_no_valid_pin pinnings :
  combine_version_pinnings pinnings = Ok ""
  <-> filter _is_valid_pinning pinnings = [].
Proof.
  split.
  - intros E.
    destruct (combine_outcome pinnings) as [(l & El & Hl & Hnil) | (p & q & Er & _)].
    + apply Hnil. rewrite El in E. injection E as E.
      destruct l as [|x l]; [reflexivity|]. exfalso.
      apply (join_nonempty "," x l); [|exact E].
      apply valid_nonempty.
      assert (H : In x (filter _is_valid_pinning pinnings)) by (apply Hl; left; reflexivity).
      apply filter_In in H. tauto.
    + rewrite Er in E. discriminate E.
  - intros E. unfold combine_version_pinnings. rewrite E. reflexivity.
Qed.

(** The redundancy filter of the code is the filter of the specification. *)
Lemma non_redundant_surviving pinnings :
  non_redundant (filter _is_valid_pinning pinnings) (filter _is_valid_pinning pinnings)
  = Ok (spec_surviving (filter _is_valid_pinning pinnings)).
Proof.
  apply non_redundant_spec; apply filter_valid_parses.
Qed.

Lemma surviving_not_tighter valid p q d vp :
  In p (spec_surviving valid) -> bound_of p = Some (d, vp) ->
  In q valid -> q <> p -> spec_tighter d vp (bound_of q) = false.
Proof.
  intros Hp Bp Hq Hne. apply filter_In in Hp as [_ Hr].
  apply negb_true_iff in Hr. unfold spec_redundant in Hr. rewrite Bp in Hr.
  destruct (spec_tighter d vp (bound_of q)) eqn:Et; [|reflexivity].
  assert (Hex : existsb (fun other => negb (String.eqb other p)
                                      && spec_tighter d vp (bound_of other)) valid = true).
  { apply existsb_exists. exists q. split; [exact Hq|].
    rewrite Et, andb_true_r. apply negb_true_iff, String.eqb_neq, Hne. }
  rewrite Hex in Hr. discriminate.
Qed.

(** X4.  After the redundancy filter at most one upper bound and at most one
    lower bound are left, repetitions of the same text aside: two surviving
    pins of the same direction are the same string. *)
Theorem X4_one_survivor_per_direction pinnings l p q d vp vq :
  non_redundant (filter _is_valid_pinning pinnings) (filter _is_valid_pinning pinnings)
  = Ok l ->
  In p l -> In q l ->
  bound_of p = Some (d, vp) -> bound_of q = Some (d, vq) ->
  p = q.
Proof.
  rewrite non_redundant_surviving. intros [= <-] Hp Hq Bp Bq.
  destruct (string_dec p q) as [E|N]; [exact E|]. exfalso.
  pose proof (surviving_not_tighter _ p q d vp Hp Bp (spec_surviving_incl _ _ Hq)
                (fun E => N (eq_sym E))) as H1.
  pose proof (surviving_not_tighter _ q p d vq Hq Bq (spec_surviving_incl _ _ Hp) N) as H2.
  rewrite Bq in H1. rewrite Bp in H2. unfold spec_tighter in H1, H2.
  destruct d; simpl in H1, H2;
    apply Z.leb_gt in H1; apply Z.leb_gt in H2; lia.
Qed.

(** X4, on three upper bounds and a lower bound. *)
Lemma X4_one_survivor_per_direction_witness : "<3" = "<3".
Proof.
  apply (X4_one_survivor_per_direction ["<5"; "<3"; ">=1"; "<4"] ["<3"; ">=1"]
           "<3" "<3" Upper 3 3).
  - vm_compute. reflexivity.
  - left. reflexivity.
  - left. reflexivity.
  - vm_compute. reflexivity.
  - vm_compute. reflexivity.
Defined.

Lemma exact_not_flagged n p :
  _is_valid_pinning p = true -> is_exact p = true -> flagged_pin n p = false.
Proof.
  intros Hv He. destruct (exact_valid_inv p Hv He) as [m [_ Hp]].
  unfold flagged_pin. rewrite Hp. reflexivity.
Qed.

(** X5.  Exact pins are never checked against each other: when every valid
    pin is exact, the first one is returned, also when the exact pins name
    different versions. *)
Theorem X5_all_exact_returns_first pinnings first rest :
  filter _is_valid_pinning pinnings = first :: rest ->
  (forall p, In p (first :: rest) -> is_exact p = true) ->
  combine_version_pinnings pinnings = Ok first.
Proof.
  intros Ev Hall.
  assert (Hf : filter is_exact (filter _is_valid_pinning pinnings) = first :: rest).
  { rewrite Ev. apply filter_all. exact Hall. }
  destruct (combine_exact pinnings first rest Hf) as [n [Hn _]].
  apply (exact_unflagged_returns pinnings first rest n Hf Hn).
  intros other Ho _. apply exact_not_flagged.
  - apply filter_In in Ho. tauto.
  - apply Hall. rewrite <- Ev. exact Ho.
Qed.

(** X5, on two different exact pins. *)
Lemma X5_all_exact_returns_first_witness :
  combine_version_pinnings ["=2"; "=3"] = Ok "=2".
Proof.
  apply (X5_all_exact_returns_first ["=2"; "=3"] "=2" ["=3"]).
  - vm_compute. reflexivity.
  - intros p Hp. list_cases Hp; reflexivity.
Defined.

(** X6.  A pin accepted by [_is_valid_pinning] never makes [_parse_pinning]
    raise.  It is not empty; if it starts with [=], what follows is accepted
    by [int()] and it parses to the empty operator and version 0; otherwise
    it parses to one of the four comparison operators. *)
Theorem X6_valid_pins_parse p :
  _is_valid_pinning p = true ->
  p <> ""
  /\ ((is_exact p = true
       /\ _parse_pinning p = Ok ("", 0)
       /\ exists n, int (tail p) = Ok n)
      \/ (is_exact p = false
          /\ exists op v, _parse_pinning p = Ok (op, v) /\ In op operators)).
Proof.
  intros Hv. split; [apply valid_nonempty, Hv|].
  destruct (is_exact p) eqn:He.
  - left. destruct (exact_valid_inv p Hv He) as [n [Hn Hp]]. eauto.
  - right. split; [reflexivity|]. apply comparison_valid_inv; assumption.
Qed.

(** X6, on a comparison pin written with the operator last. *)
Lemma X6_valid_pins_parse_witness :
  "7>=" <> ""
  /\ ((is_exact "7>=" = true
       /\ _parse_pinning "7>=" = Ok ("", 0)
       /\ exists n, int (tail "7>=") = Ok n)
      \/ (is_exact "7>=" = false
          /\ exists op v, _parse_pinning "7>=" = Ok (op, v) /\ In op operators)).
Proof.
  apply (X6_valid_pins_parse "7>="). vm_compute. reflexivity.
Defined.




Lemma repeat_In_eq {A : Type} (x y : A) n : In y (repeat x n) -> y = x.
Proof. apply repeat_spec. Qed.

(** X8.  Equal pins are not merged.  On a list made of one valid pin
    repeated, an exact pin is returned once, but a comparison pin is
    returned as many times as it was given, joined by commas; a single
    valid pin is returned unchanged. *)
Theorem X8_repeated_pin_not_merged p n :
  _is_valid_pinning p = true ->
  combine_version_pinnings (repeat p (S n))
  = Ok (if is_exact p then p else join "," (repeat p (S n))).
Proof.
  intros Hv.
  assert (Ef : filter _is_valid_pinning (repeat p (S n)) = repeat p (S n)).
  { apply filter_all. intros x Hx. rewrite (repeat_In_eq _ _ _ Hx). exact Hv. }
  destruct (is_exact p) eqn:He.
  - assert (Hf : filter is_exact (filter _is_valid_pinning (repeat p (S n)))
                = p :: repeat p n).
    { rewrite Ef. apply (filter_all is_exact (repeat p (S n))). intros x Hx.
      rewrite (repeat_In_eq p x (S n) Hx). exact He. }
    destruct (combine_exact _ p (repeat p n) Hf) as [m [Hm _]].
    apply (exact_unflagged_returns _ p (repeat p n) m Hf Hm).
    intros other Ho Hneq. exfalso. apply Hneq.
    rewrite Ef in Ho. apply (repeat_In_eq _ _ _ Ho).
  - assert (Hno : forall x, In x (filter _is_valid_pinning (repeat p (S n))) ->
                    is_exact x = false).
    { rewrite Ef. intros x Hx. rewrite (repeat_In_eq _ _ _ Hx). exact He. }
    assert (Hne : filter _is_valid_pinning (repeat p (S n)) <> [])
      by (rewrite Ef; discriminate).
    rewrite (combine_comparisons _ Hno Hne). rewrite Ef.
    assert (Es : spec_surviving (repeat p (S n)) = repeat p (S n)).
    { apply filter_all. intros x Hx. rewrite (repeat_In_eq _ _ _ Hx).
      apply negb_true_iff. unfold spec_redundant.
      destruct (bound_of p) as [[d v]|]; [|reflexivity].
      destruct (existsb _ (repeat p (S n))) eqn:Ex; [|reflexivity].
      apply existsb_exists in Ex as [y [Hy Hc]].
      rewrite (repeat_In_eq _ _ _ Hy), String.eqb_refl in Hc. discriminate Hc. }
    rewrite Es.
    assert (Hp : Forall parses (repeat p (S n))).
    { rewrite <- Ef. apply filter_valid_parses. }
    destruct (contradiction_check_spec _ Hp)
      as [[Hok _] | (a & b & Ha & Hb & Hcl & _)].
    + rewrite Hok. reflexivity.
    + rewrite (repeat_In_eq _ _ _ Ha), (repeat_In_eq _ _ _ Hb), clash_irrefl in Hcl.
      discriminate Hcl.
Qed.

(** X8, on a lower bound given twice. *)
Lemma X8_repeated_pin_not_merged_witness :
  combine_version_pinnings [">=1"; ">=1"] = Ok ">=1,>=1".
Proof.
  apply (X8_repeated_pin_not_merged ">=1" 1). vm_compute. reflexivity.
Defined.

End CombinerOutcomes.

(** ** The selector: ties, warnings and errors *)

Section SelectorOutcomes.





Lemma bucket_warnings_discarded p w metas p' s w' d :
  In (PlatformConflict p' s w' d) (bucket_warnings p w metas) -> d <> [].
Proof.
  unfold bucket_warnings. destruct (1 <? List.length metas)%nat; [|intros []].
  destruct (sort_desc metas) as [|sel rest]; [intros []|].
  destruct (filter (fun m => Meta_neqb m sel) rest) as [|d0 ds]; [intros []|].
  intros [[= _ _ _ <-] | []]. discriminate.
Qed.

(** X10.  A bucket yields at most one warning.  None is emitted exactly when
    every element of the bucket equals the kept one, so repetitions of the
    same [Meta] are dropped silently; otherwise the single warning records
    the platform, the kept [Meta] and the source, and the [Meta]s it names
    are exactly the elements of the bucket that differ from the kept one. *)
Theorem X10_selector_warning_shape p w metas sel ws :
  select_bucket p w metas = (Ok sel, ws) ->
  (ws = [] /\ forall m, In m metas -> m = sel)
  \/ (exists discarded,
        ws = [PlatformConflict p sel w discarded]
        /\ discarded <> []
        /\ forall m, In m discarded <-> In m metas /\ m <> sel).
Proof.
  rewrite select_bucket_eq.
  destruct (pick metas) as [s|] eqn:Ep; [|discriminate].
  intros [= -> <-].
  destruct (bucket_warnings_cases p w metas sel Ep) as [[E Hall] | (d & E & Hd)].
  - left. auto.
  - right. exists d. split; [exact E|]. split; [|exact Hd].
    apply (bucket_warnings_discarded p w metas p sel w d). rewrite E. left. reflexivity.
Qed.

(** X10, on a bucket that holds the same entry twice. *)
Lemma X10_selector_warning_shape_witness :
  ([] = @nil Warning
   /\ forall m, In m [with_pin (Some "=1") pip; with_pin (Some "=1") pip] ->
                m = with_pin (Some "=1") pip)
  \/ (exists discarded,
        [] = [PlatformConflict None (with_pin (Some "=1") pip) pip discarded]
        /\ discarded <> []
        /\ forall m, In m discarded
                     <-> In m [with_pin (Some "=1") pip; with_pin (Some "=1") pip]
                         /\ m <> with_pin (Some "=1") pip).
Proof.
  apply (X10_selector_warning_shape None pip
           [with_pin (Some "=1") pip; with_pin (Some "=1") pip]
           (with_pin (Some "=1") pip) []).
  vm_compute. reflexivity.
Defined.

Lemma pick_None metas : pick metas = None <-> metas = [].
Proof.
  split.
  - intros E. destruct metas as [|m l]; [reflexivity|].
    destruct (pick_nonempty (m :: l)) as [sel Hs]; [discriminate | congruence].
  - intros ->. reflexivity.
Qed.

Lemma select_sources_cases p packages : forall acc,
  (exists out ws, select_sources p packages acc = (Ok out, ws)
                  /\ forall w metas, In (w, metas) packages -> metas <> [])
  \/ (exists ws, select_sources p packages acc = (Raise IndexError, ws)
                 /\ exists w, In (w, []) packages).
Proof.
  induction packages as [|[w metas] rest IH]; intros acc.
  - left. exists acc, []. split; [reflexivity | intros w metas []].
  - cbn [select_sources]. rewrite select_bucket_eq.
    destruct (pick metas) as [sel|] eqn:Ep.
    + assert (Hne : metas <> []).
      { intros E. apply pick_None in E. congruence. }
      unfold wbind.
      destruct (IH (set acc w sel)) as [(out & ws & E & Hall) | (ws & E & w' & Hw')];
        rewrite E.
      * left. eexists. eexists. split; [reflexivity|].
        intros w0 m0 [[= <- <-] | H0]; [exact Hne | apply (Hall w0 m0 H0)].
      * right. eexists. split; [reflexivity|]. exists w'. right. exact Hw'.
    + right. apply pick_None in Ep. subst metas.
      exists []. split; [reflexivity|]. exists w. left. reflexivity.
Qed.

Lemma select_platforms_cases data : forall acc,
  (exists out ws, select_platforms data acc = (Ok out, ws)
                  /\ forall p s w metas,
                       In (p, s) data -> In (w, metas) s -> metas <> [])
  \/ (exists ws, select_platforms data acc = (Raise IndexError, ws)
                 /\ exists p s w, In (p, s) data /\ In (w, []) s).
Proof.
  induction data as [|[p s] rest IH]; intros acc.
  - left. exists acc, []. split; [reflexivity | intros p s w metas []].
  - cbn [select_platforms].
    destruct (select_sources_cases p s []) as [(srcs & ws1 & E1 & H1) | (ws1 & E1 & w & Hw)];
      rewrite E1; unfold wbind.
    + destruct (IH (set acc p srcs)) as [(out & ws & E & Hall) | (ws & E & p' & s' & w' & Hp' & Hw')];
        rewrite E.
      * left. eexists. eexists. split; [reflexivity|].
        intros p0 s0 w0 m0 [[= <- <-] | H0] Hw0;
          [apply (H1 w0 m0 Hw0) | apply (Hall p0 s0 w0 m0 H0 Hw0)].
      * right. eexists. split; [reflexivity|].
        exists p', s', w'. split; [right; exact Hp' | exact Hw'].
    + right. eexists. split; [reflexivity|].
      exists p, s, w. split; [left; reflexivity | exact Hw].
Qed.

(** X11.  The selector raises exactly when some bucket of its input is
    empty, and what it raises is then the [IndexError] of [metas[0]]; on
    buckets that all hold an element it returns. *)
Theorem X11_selector_raises_iff_empty_bucket data :
  ((exists e ws, _select_preferred_version_within_platform data = (Raise e, ws))
   <-> exists p sources w, In (p, sources) data /\ In (w, []) sources)
  /\ (forall e ws,
        _select_preferred_version_within_platform data = (Raise e, ws) ->
        e = IndexError).
Proof.
  unfold _select_preferred_version_within_platform.
  destruct (select_platforms_cases data [])
    as [(out & ws & E & Hall) | (ws & E & p & s & w & Hp & Hw)]; rewrite E.
  - split; [split|].
    + intros (e & ws' & H). discriminate H.
    + intros (p & s & w & Hp & Hw). exfalso. apply (Hall p s w [] Hp Hw). reflexivity.
    + intros e ws' H. discriminate H.
  - split; [split|].
    + intros _. eauto.
    + intros _. eauto.
    + intros e ws' [= <- _]. reflexivity.
Qed.

End SelectorOutcomes.

(** ** The reconciler and the whole resolution: shape of the output *)

Section ResolutionOutcomes.

Lemma reconcile_cases sources r ws :
  _resolve_conda_pip_conflicts sources = (Ok r, ws) ->
  (r = sources /\ ws = []
   /\ (get sources conda = None \/ get sources pip = None))
  \/ (exists c p,
        get sources conda = Some c /\ get sources pip = Some p
        /\ ((r = [(conda, c)] /\ ws = []
             /\ truthy (pin c) = true /\ truthy (pin p) = false)
            \/ (r = [(pip, p)] /\ ws = []
                /\ truthy (pin p) = true /\ truthy (pin c) = false)
            \/ (r = [(conda, c); (pip, p)] /\ ws = []
                /\ truthy (pin c) = truthy (pin p) /\ pin c = pin p)
            \/ (r = [(conda, c); (pip, p)] /\ ws = [PinConflict (pin c) (pin p)]
                /\ truthy (pin c) = truthy (pin p) /\ pin c <> pin p))).
Proof.
  unfold _resolve_conda_pip_conflicts.
  destruct (get sources conda) as [c|] eqn:Ec, (get sources pip) as [p|] eqn:Ep;
    try (intros [= <- <-]; left; auto).
  intros E. right. exists c, p. split; [reflexivity|]. split; [reflexivity|].
  unfold pin_eqb in E.
  destruct (truthy (pin c)) eqn:Tc, (truthy (pin p)) eqn:Tp; cbn [andb negb] in E;
    try (destruct (eq_dec (pin c) (pin p)) as [Eq|Nq]);
    injection E as <- <-; auto 10.
Qed.

(** X12.  The reconciler is idempotent, warnings included: run on its own
    result it returns that result and emits the same warnings. *)
Theorem X12_reconciler_idempotent sources r ws :
  _resolve_conda_pip_conflicts sources = (Ok r, ws) ->
  _resolve_conda_pip_conflicts r = (Ok r, ws).
Proof.
  intros E.
  destruct (reconcile_cases sources r ws E)
    as [(-> & -> & _) | (c & p & _ & _ & H)]; [exact E|].
  unfold _resolve_conda_pip_conflicts, pin_eqb.
  destruct H as [(-> & -> & _) | [(-> & -> & _) | [(-> & -> & T & Q) | (-> & -> & T & Q)]]];
    cbn; try reflexivity.
  - rewrite T. destruct (truthy (pin p)); cbn;
      destruct (eq_dec (pin c) (pin p)); [reflexivity | contradiction
                                         | reflexivity | contradiction].
  - rewrite T. destruct (truthy (pin p)); cbn;
      destruct (eq_dec (pin c) (pin p)); [contradiction | reflexivity
                                         | contradiction | reflexivity].
Qed.

(** X12, on two entries with different pins. *)
Lemma X12_reconciler_idempotent_witness :
  _resolve_conda_pip_conflicts
    [(conda, with_pin (Some ">=1.5") conda); (pip, with_pin (Some "<1.0") pip)]
  = (Ok [(conda, with_pin (Some ">=1.5") conda); (pip, with_pin (Some "<1.0") pip)],
     [PinConflict (Some ">=1.5") (Some "<1.0")]).
Proof.
  apply (X12_reconciler_idempotent
           [(pip, with_pin (Some "<1.0") pip); (conda, with_pin (Some ">=1.5") conda)]).
  vm_compute. reflexivity.
Defined.

(** X13.  The reconciler only removes entries and only warns when it keeps
    both: every entry of its result is the input's entry for the same
    source; a non-empty input gives a non-empty result; and a warning is
    emitted exactly when both sources are present with different pins that
    are both non-empty or both empty or null, in which case it is the single
    conflict warning and both entries are kept. *)
Theorem X13_reconciler_keeps_sub_dictionary sources r ws :
  _resolve_conda_pip_conflicts sources = (Ok r, ws) ->
  (forall w m, get r w = Some m -> get sources w = Some m)
  /\ (sources <> [] -> r <> [])
  /\ (ws <> []
      <-> exists c p,
            get sources conda = Some c /\ get sources pip = Some p
            /\ truthy (pin c) = truthy (pin p) /\ pin c <> pin p)
  /\ (ws <> [] ->
      exists c p, ws = [PinConflict (pin c) (pin p)] /\ r = [(conda, c); (pip, p)]).
Proof.
  intros E.
  destruct (reconcile_cases sources r ws E)
    as [(-> & -> & Hm) | (c & p & Ec & Ep & H)].
  - split; [auto|]. split; [auto|]. split; [split|].
    + congruence.
    + intros (c & p & Ec & Ep & _). destruct Hm; congruence.
    + congruence.
  - destruct H as [(-> & -> & Tc & Tp) | [(-> & -> & Tp & Tc)
                   | [(-> & -> & T & Q) | (-> & -> & T & Q)]]].
    + split; [|split; [discriminate|split; [split|congruence]]].
      * intros w m. destruct w; cbn; congruence.
      * congruence.
      * intros (c' & p' & Ec' & Ep' & T' & _). congruence.
    + split; [|split; [discriminate|split; [split|congruence]]].
      * intros w m. destruct w; cbn; congruence.
      * congruence.
      * intros (c' & p' & Ec' & Ep' & T' & _). congruence.
    + split; [|split; [discriminate|split; [split|congruence]]].
      * intros w m. destruct w; cbn; congruence.
      * congruence.
      * intros (c' & p' & Ec' & Ep' & _ & Q'). congruence.
    + split; [|split; [discriminate|split; [split|]]].
      * intros w m. destruct w; cbn; congruence.
      * intros _. exists c, p. auto.
      * discriminate.
      * intros _. exists c, p. auto.
Qed.

(** X13, on an empty-string pin against a null pin. *)
Lemma X13_reconciler_keeps_sub_dictionary_witness :
  [PinConflict (Some "") None] <> []
  <-> exists c p,
        get [(conda, with_pin (Some "") conda); (pip, with_pin None pip)] conda = Some c
        /\ get [(conda, with_pin (Some "") conda); (pip, with_pin None pip)] pip = Some p
        /\ truthy (pin c) = truthy (pin p) /\ pin c <> pin p.
Proof.
  apply (X13_reconciler_keeps_sub_dictionary
           [(conda, with_pin (Some "") conda); (pip, with_pin None pip)]
           [(conda, with_pin (Some "") conda); (pip, with_pin None pip)]
           [PinConflict (Some "") None]).
  vm_compute. reflexivity.
Defined.

Lemma keys_fold_platforms m ps : forall (g : Grouped) q,
  In q (keys (fold_left (fun g _platform => append_meta g _platform m) ps g))
  <-> In q ps \/ In q (keys g).
Proof.
  induction ps as [|p ps IH]; intros g q; simpl; [tauto|].
  rewrite IH. unfold append_meta. rewrite keys_set_In. intuition congruence.
Qed.

Lemma keys_fold_metas metas : forall (g : Grouped) q,
  In q (keys (fold_left add_meta metas g))
  <-> (exists m, In m metas /\ In q (platforms_or_null m)) \/ In q (keys g).
Proof.
  induction metas as [|m metas IH]; intros g q; simpl.
  - split; [auto | intros [(m & [] & _) | H]; exact H].
  - rewrite IH. unfold add_meta. rewrite keys_fold_platforms. split.
    + intros [(m' & Hm' & Hq) | [Hq | Hq]]; eauto 6.
    + intros [(m' & [<- | Hm'] & Hq) | Hq]; eauto 6.
Qed.

(** The platforms of a grouped structure are the platforms of its [Meta]s. *)
Lemma keys_group_metas metas q :
  In q (keys (group_metas metas))
  <-> exists m, In m metas /\ In q (platforms_or_null m).
Proof.
  unfold group_metas.
  change (fold_left _ metas []) with (fold_left add_meta metas []).
  rewrite keys_fold_metas. simpl. tauto.
Qed.

Lemma set_nonempty {K V : Type} `{EqDec K} (d : odict K V) k v : set d k v <> [].
Proof.
  destruct d as [|[k0 v0] d]; simpl; [discriminate|].
  destruct (eq_dec k0 k); discriminate.
Qed.

Lemma sources_nonempty_append (g : Grouped) p' m :
  (forall p s, get g p = Some s -> s <> []) ->
  forall p s, get (append_meta g p' m) p = Some s -> s <> [].
Proof.
  intros Hg p s. unfold append_meta.
  destruct (eq_dec p' p) as [->|N].
  - rewrite get_set_eq. intros [= <-]. apply set_nonempty.
  - rewrite get_set_ne by exact N. apply Hg.
Qed.

Lemma sources_nonempty_group_metas metas p s :
  get (group_metas metas) p = Some s -> s <> [].
Proof.
  unfold group_metas. revert p s.
  assert (H : forall g : Grouped,
            (forall p s, get g p = Some s -> s <> []) ->
            forall p s,
              get (fold_left
                     (fun grouped_metas meta =>
                        fold_left (fun g _platform => append_meta g _platform meta)
                                  (platforms_or_null meta) grouped_metas) metas g) p
              = Some s -> s <> []).
  { induction metas as [|m metas IH]; intros g Hg; simpl; [exact Hg|].
    apply IH. generalize (platforms_or_null m). intros ps. revert g Hg.
    induction ps as [|p' ps IHp]; intros g Hg; simpl; [exact Hg|].
    apply IHp, sources_nonempty_append, Hg. }
  apply H. intros p s E. discriminate E.
Qed.

Lemma keys_related {K A B : Type} (R : A -> B -> Prop) (d : odict K A) (d' : odict K B) :
  Forall2 (fun x y => fst x = fst y /\ R (snd x) (snd y)) d d' -> keys d' = keys d.
Proof.
  induction 1 as [|[k0 a] [k1 b] d d' [E _] _ IH]; simpl; [reflexivity|].
  simpl in E. subst. f_equal. exact IH.
Qed.

Lemma get_related {K A B : Type} `{EqDec K} (R : A -> B -> Prop)
    (d : odict K A) (d' : odict K B) k b :
  Forall2 (fun x y => fst x = fst y /\ R (snd x) (snd y)) d d' ->
  get d' k = Some b -> exists a, get d k = Some a /\ R a b.
Proof.
  induction 1 as [|[k0 a0] [k1 b0] d d' [E HR] _ IH]; simpl; [discriminate|].
  simpl in E, HR. subst k1.
  destruct (eq_dec k0 k); [intros [= <-]; eauto | exact IH].
Qed.

(** Where an entry of the output comes from. *)
Lemma resolve_trace (requirements : odict string (list Meta)) out ws pkg ro p so :
  wf requirements ->
  resolve_conflicts requirements = (Ok out, ws) ->
  get out pkg = Some ro -> get ro p = Some so ->
  exists metas sources rs,
    In (pkg, metas) requirements
    /\ get (group_metas metas) p = Some sources
    /\ picked_sources sources rs
    /\ reconciled_sources rs so.
Proof.
  intros Hwf E Ho Hp.
  destruct (resolve_conflicts_stages requirements Hwf)
    as (resolved & out' & rws & E' & Hpick & Hrec & _).
  rewrite E in E'. injection E' as <- _.
  destruct (get_related _ _ _ pkg ro Hrec Ho) as (r & Hr & Hrr).
  destruct (get_related _ _ _ pkg r Hpick Hr) as (g & Hg & Hgr).
  rewrite get_map_values in Hg.
  destruct (get requirements pkg) as [metas|] eqn:Em; [|discriminate Hg].
  injection Hg as <-.
  destruct (get_related _ _ _ p so Hrr Hp) as (rs & Hrs & Hrso).
  destruct (get_related _ _ _ p rs Hgr Hrs) as (sources & Hs & Hsr).
  exists metas, sources, rs. split; [apply get_Some_In, Em | auto].
Qed.

(** X14.  [resolve_conflicts] never raises on a mapping with distinct
    package names, and its output has the packages of the input, in the same
    order, each with exactly the platforms its [Meta]s apply to (the null
    platform for a [Meta] without platforms): no package and no platform is
    added or lost. *)
Theorem X14_resolve_keeps_packages_and_platforms
    (requirements : odict string (list Meta)) :
  wf requirements ->
  exists out ws,
    resolve_conflicts requirements = (Ok out, ws)
    /\ keys out = keys requirements
    /\ forall pkg metas,
         In (pkg, metas) requirements ->
         exists ro,
           get out pkg = Some ro
           /\ forall p, In p (keys ro)
                        <-> exists m, In m metas /\ In p (platforms_or_null m).
Proof.
  intros Hwf.
  destruct (resolve_conflicts_stages requirements Hwf)
    as (resolved & out & rws & E & Hpick & Hrec & _).
  eexists. eexists. split; [exact E|].
  pose proof (keys_related _ _ _ Hpick) as K1.
  pose proof (keys_related _ _ _ Hrec) as K2.
  split.
  - rewrite K2, K1. unfold keys. rewrite map_map. reflexivity.
  - intros pkg metas Hin.
    assert (Hg : get (map (fun x => (fst x, group_metas (snd x))) requirements) pkg
                 = Some (group_metas metas)).
    { rewrite get_map_values, (In_get _ _ _ Hwf Hin). reflexivity. }
    pose proof (get_Forall2 (fun _ a b => picked_platforms a b) _ _ Hpick pkg) as H1.
    rewrite Hg in H1. destruct (get resolved pkg) as [r|] eqn:Er; [|destruct H1].
    pose proof (get_Forall2 (fun _ a b => reconciled_platforms a b) _ _ Hrec pkg) as H2.
    rewrite Er in H2. destruct (get out pkg) as [ro|] eqn:Eo; [|destruct H2].
    exists ro. split; [reflexivity|]. intros p.
    rewrite (keys_related _ _ _ H2), (keys_related _ _ _ H1).
    apply keys_group_metas.
Qed.

(** X14, on [numpy_requirements]. *)
Lemma X14_resolve_keeps_packages_and_platforms_witness :
  exists out ws,
    resolve_conflicts numpy_requirements = (Ok out, ws)
    /\ keys out = keys numpy_requirements
    /\ forall pkg metas,
         In (pkg, metas) numpy_requirements ->
         exists ro,
           get out pkg = Some ro
           /\ forall p, In p (keys ro)
                        <-> exists m, In m metas /\ In p (platforms_or_null m).
Proof.
  apply (X14_resolve_keeps_packages_and_platforms numpy_requirements).
  constructor; [intros [] | constructor].
Defined.

Lemma reconciled_get rs so w m :
  reconciled_sources rs so -> get so w = Some m -> get rs w = Some m.
Proof.
  intros [ws E] Hg.
  destruct (reconcile_cases rs so ws E)
    as [(-> & _) | (c & p & Ec & Ep & H)]; [exact Hg|].
  destruct H as [(-> & _) | [(-> & _) | [(-> & _) | (-> & _)]]];
    destruct w; cbn in Hg; congruence.
Qed.

(** X15.  The output holds nothing but input [Meta]s in their own place:
    the entry of a package, platform and source is one of the [Meta]s
    listed under that package, has that source, and applies to that
    platform. *)
Theorem X15_output_entries_come_from_input
    (requirements : odict string (list Meta)) out ws pkg p w sel :
  wf requirements ->
  resolve_conflicts requirements = (Ok out, ws) ->
  slot_of out pkg p w = Some sel ->
  exists metas,
    In (pkg, metas) requirements
    /\ In sel metas /\ which sel = w /\ In p (platforms_or_null sel).
Proof.
  intros Hwf E Hs. unfold slot_of, slot in Hs.
  destruct (get out pkg) as [ro|] eqn:Eo; [|discriminate Hs].
  destruct (get ro p) as [so|] eqn:Ep; [|discriminate Hs].
  destruct (resolve_trace requirements out ws pkg ro p so Hwf E Eo Ep)
    as (metas & sources & rs & Hin & Hg & Hpk & Hrc).
  exists metas. split; [exact Hin|].
  pose proof (reconciled_get rs so w sel Hrc Hs) as Hrs.
  destruct (get_related (fun a b => pick a = Some b) _ _ w sel Hpk Hrs)
    as (b & Hb & Hpick).
  apply pick_In in Hpick.
  apply (In_bucket_group_metas metas p w sel).
  unfold bucket. rewrite Hg, Hb. exact Hpick.
Qed.

(** X15, on [numpy_requirements]. *)
Lemma X15_output_entries_come_from_input_witness :
  exists metas,
    In ("numpy", metas) numpy_requirements
    /\ In numpy_pinned metas /\ which numpy_pinned = conda
    /\ In (Some "osx-64") (platforms_or_null numpy_pinned).
Proof.
  apply (X15_output_entries_come_from_input numpy_requirements
           [("numpy", [(Some "linux-64", [(conda, numpy_pinned)]);
                       (Some "osx-64", [(conda, numpy_pinned)]);
                       (None, [(pip, numpy_pip)])])]
           [PlatformConflict (Some "linux-64") numpy_pinned conda
              [numpy_unpinned; numpy_unpinned]]).
  - constructor; [intros [] | constructor].
  - vm_compute. reflexivity.
  - vm_compute. reflexivity.
Defined.

Lemma CondaPip_keys_length (l : list CondaPip) : NoDup l -> (List.length l <= 2)%nat.
Proof.
  intros Hnd. apply (NoDup_incl_length Hnd (l' := [conda; pip])).
  intros [] _; simpl; auto.
Qed.

(** X16.  Every platform entry of the output holds one or two [Meta]s, under
    distinct sources: a slot is never empty and never holds two [Meta]s of
    the same source. *)
Theorem X16_output_slots_hold_one_or_two
    (requirements : odict string (list Meta)) out ws pkg ro p so :
  wf requirements ->
  resolve_conflicts requirements = (Ok out, ws) ->
  get out pkg = Some ro -> get ro p = Some so ->
  so <> [] /\ wf so /\ (List.length so <= 2)%nat.
Proof.
  intros Hwf E Eo Ep.
  destruct (resolve_trace requirements out ws pkg ro p so Hwf E Eo Ep)
    as (metas & sources & rs & Hin & Hg & Hpk & [rws Hrc]).
  assert (Hsn : sources <> []) by apply (sources_nonempty_group_metas metas p sources Hg).
  assert (Hsw : wf sources).
  { destruct (grouped_inv_group_metas metas) as [_ Hb]. apply (Hb p sources Hg). }
  assert (Hrn : rs <> []).
  { intros ->. inversion Hpk. congruence. }
  assert (Hrw : wf rs).
  { unfold wf. rewrite (keys_related (fun a b => pick a = Some b) _ _ Hpk).
    exact Hsw. }
  assert (Hso : so <> [] /\ wf so).
  { destruct (reconcile_cases rs so rws Hrc)
      as [(-> & _) | (c & q & _ & _ & H)]; [auto|].
    destruct H as [(-> & _) | [(-> & _) | [(-> & _) | (-> & _)]]];
      (split; [discriminate|]);
      repeat (constructor; [simpl; intuition discriminate|]); constructor. }
  destruct Hso as [H1 H2]. split; [exact H1|]. split; [exact H2|].
  unfold keys in H2. rewrite <- (length_map fst so). apply CondaPip_keys_length, H2.
Qed.

(** X16, on [numpy_requirements]. *)
Lemma X16_output_slots_hold_one_or_two_witness :
  [(pip, numpy_pip)] <> [] /\ wf [(pip, numpy_pip)]
  /\ (List.length [(pip, numpy_pip)] <= 2)%nat.
Proof.
  apply (X16_output_slots_hold_one_or_two numpy_requirements
           [("numpy", [(Some "linux-64", [(conda, numpy_pinned)]);
                       (Some "osx-64", [(conda, numpy_pinned)]);
                       (None, [(pip, numpy_pip)])])]
           [PlatformConflict (Some "linux-64") numpy_pinned conda
              [numpy_unpinned; numpy_unpinned]]
           "numpy"
           [(Some "linux-64", [(conda, numpy_pinned)]);
            (Some "osx-64", [(conda, numpy_pinned)]);
            (None, [(pip, numpy_pip)])]
           None).
  - constructor; [intros [] | constructor].
  - vm_compute. reflexivity.
  - vm_compute. reflexivity.
  - vm_compute. reflexivity.
Defined.

End ResolutionOutcomes.

(** ** Utilities *)

Section UtilsFacts.

Lemma lower_char_idempotent c : lower_char (lower_char c) = lower_char c.
Proof. destruct c as [[] [] [] [] [] [] [] []]; reflexivity. Qed.

Lemma lower_idempotent s : lower (lower s) = lower s.
Proof.
  induction s as [|c s IH]; simpl; [reflexivity|].
  rewrite lower_char_idempotent, IH. reflexivity.
Qed.

(** X17.  Platform detection ignores the letter case of the system and
    machine names; what it returns is one of the six identifiers
    [linux-64], [linux-aarch64], [linux-ppc64le], [osx-64], [osx-arm64] and
    [win-64]; and what it raises is a [ValueError]. *)
Theorem X17_identify_current_platform system_name machine_name :
  identify_current_platform system_name machine_name
  = identify_current_platform (lower system_name) (lower machine_name)
  /\ match identify_current_platform system_name machine_name with
     | Returns p => In p identified_platforms
     | Raises e => exists msg, e = ValueError msg
     end.
Proof.
  split.
  - unfold identify_current_platform. rewrite !lower_idempotent. reflexivity.
  - unfold identify_current_platform, identified_platforms.
    repeat match goal with
           | |- context [if ?b then _ else _] => destruct b
           end; simpl; eauto 10.
Qed.

Lemma skipn_first_non_comment lines :
  exists top,
    lines = (top ++ remove_top_comments lines)%list
    /\ Forall (fun line => is_comment_line line = true) top.
Proof.
  unfold remove_top_comments.
  induction lines as [|line rest (top & E & H)]; simpl.
  - exists []. split; [reflexivity | constructor].
  - destruct (is_comment_line line) eqn:Ec; simpl.
    + exists (line :: top). split; [simpl; f_equal; exact E | constructor; assumption].
    + exists []. split; [reflexivity | constructor].
Qed.

Lemma remove_top_comments_head lines :
  match remove_top_comments lines with
  | [] => True
  | line :: _ => is_comment_line line = false
  end.
Proof.
  unfold remove_top_comments.
  induction lines as [|line rest IH]; simpl; [exact I|].
  destruct (is_comment_line line) eqn:Ec; simpl; [exact IH | exact Ec].
Qed.

(** X18.  [remove_top_comments] removes a prefix of the file made of
    comment lines only and nothing else: the file is the removed comment
    lines followed by what is kept, what is kept is empty or begins with a
    line that is no comment (comment lines further down stay), and removing
    again changes nothing. *)
Theorem X18_remove_top_comments lines :
  (exists top,
     lines = (top ++ remove_top_comments lines)%list
     /\ Forall (fun line => is_comment_line line = true) top)
  /\ match remove_top_comments lines with
     | [] => True
     | line :: _ => is_comment_line line = false
     end
  /\ remove_top_comments (remove_top_comments lines) = remove_top_comments lines.
Proof.
  split; [apply skipn_first_non_comment|].
  split; [apply remove_top_comments_head|].
  pose proof (remove_top_comments_head lines) as H.
  destruct (remove_top_comments lines) as [|line rest]; [reflexivity|].
  unfold remove_top_comments. simpl. rewrite H. reflexivity.
Qed.

(** *** Sorting strings *)

Lemma string_ltb_asym a b : String.ltb a b = true -> String.ltb b a = false.
Proof.
  unfold String.ltb. rewrite (String.compare_antisym a b).
  destruct (String.compare b a); simpl; congruence.
Qed.

Lemma string_ltb_trichotomy a b :
  String.ltb a b = false -> String.ltb b a = false -> a = b.
Proof.
  unfold String.ltb. rewrite (String.compare_antisym b a).
  destruct (String.compare a b) eqn:E; simpl; try congruence.
  intros _ _. apply String.compare_eq_iff, E.
Qed.

Lemma string_le_lt_trans a b c :
  String.ltb b a = false -> String.ltb b c = true -> String.ltb a c = true.
Proof.
  intros Hab Hbc. destruct (String.ltb a b) eqn:E.
  - unfold String.ltb in *.
    destruct (String.compare a b) eqn:Eab; try discriminate.
    destruct (String.compare b c) eqn:Ebc; try discriminate.
    rewrite (string_compare_lt_trans _ _ _ Eab Ebc). reflexivity.
  - rewrite (string_ltb_trichotomy a b E Hab). exact Hbc.
Qed.

Lemma insert_str_perm x s : Permutation (insert_str x s) (x :: s).
Proof.
  induction s as [|z s IH]; simpl; [apply Permutation_refl|].
  destruct (String.ltb z x); [|apply Permutation_refl].
  apply (Permutation_trans (l' := z :: x :: s)); [apply perm_skip, IH | apply perm_swap].
Qed.

Lemma sort_strings_perm l : Permutation (sort_strings l) l.
Proof.
  induction l as [|x l IH]; simpl; [apply Permutation_refl|].
  apply (Permutation_trans (insert_str_perm x (sort_strings l))), perm_skip, IH.
Qed.

Lemma insert_str_sorted x s :
  Sorted (fun a b => String.ltb b a = false) s ->
  Sorted (fun a b => String.ltb b a = false) (insert_str x s).
Proof.
  induction 1 as [|z s Hs IH Hhd]; simpl.
  - repeat constructor.
  - destruct (String.ltb z x) eqn:E.
    + constructor; [exact IH|].
      destruct s as [|y s]; simpl.
      * constructor. apply string_ltb_asym, E.
      * destruct (String.ltb y x); constructor.
        -- inversion Hhd; assumption.
        -- apply string_ltb_asym, E.
    + constructor; [constructor; assumption|]. constructor. exact E.
Qed.

Lemma sort_strings_sorted l :
  Sorted (fun a b => String.ltb b a = false) (sort_strings l).
Proof.
  induction l as [|x l IH]; simpl; [constructor | apply insert_str_sorted, IH].
Qed.

Lemma insert_str_comm x y s :
  insert_str x (insert_str y s) = insert_str y (insert_str x s).
Proof.
  induction s as [|z s IH]; cbn [insert_str].
  - destruct (String.ltb y x) eqn:Eyx, (String.ltb x y) eqn:Exy; try reflexivity.
    + rewrite (string_ltb_asym _ _ Eyx) in Exy. discriminate.
    + rewrite (string_ltb_trichotomy _ _ Exy Eyx). reflexivity.
  - destruct (String.ltb z y) eqn:Ezy, (String.ltb z x) eqn:Ezx;
      cbn [insert_str]; rewrite ?Ezy, ?Ezx.
    + f_equal. exact IH.
    + rewrite (string_le_lt_trans x z y Ezx Ezy).
      cbn [insert_str]. rewrite ?Ezy. reflexivity.
    + rewrite (string_le_lt_trans y z x Ezy Ezx).
      cbn [insert_str]. rewrite ?Ezx. reflexivity.
    + destruct (String.ltb y x) eqn:Eyx, (String.ltb x y) eqn:Exy;
        cbn [insert_str]; rewrite ?Ezx, ?Ezy; try reflexivity.
      * rewrite (string_ltb_asym _ _ Eyx) in Exy. discriminate.
      * rewrite (string_ltb_trichotomy _ _ Exy Eyx). reflexivity.
Qed.

Lemma sort_strings_permutation l l' :
  Permutation l l' -> sort_strings l = sort_strings l'.
Proof.
  induction 1 as [|x l l' _ IH|x y l|l l' l'' _ IH1 _ IH2]; simpl.
  - reflexivity.
  - rewrite IH. reflexivity.
  - apply insert_str_comm.
  - congruence.
Qed.

(** *** The environment marker *)

Lemma insert_platform_somes x s :
  insert_platform (Some x) (map Some s) = Returns (map Some (insert_str x s)).
Proof.
  induction s as [|z s IH]; simpl; [reflexivity|].
  destruct (String.ltb z x); [|reflexivity].
  rewrite IH. reflexivity.
Qed.

Lemma all_platforms_Some t ps : all_platforms t = Some ps <-> t = map Some ps.
Proof.
  revert ps. induction t as [|[p|] t IH]; intros ps; simpl.
  - split; [intros [= <-]; reflexivity | destruct ps; [reflexivity | discriminate]].
  - destruct (all_platforms t) as [r|] eqn:E; simpl.
    + split.
      * intros [= <-]. simpl. f_equal. apply IH. reflexivity.
      * destruct ps as [|q ps]; [discriminate|]. simpl. intros [= -> H].
        apply IH in H. congruence.
    + split; [discriminate|].
      destruct ps as [|q ps]; [discriminate|]. simpl. intros [= -> H].
      apply IH in H. discriminate.
  - split; [discriminate|]. destruct ps; discriminate.
Qed.

Lemma all_platforms_None t : all_platforms t = None <-> In None t.
Proof.
  induction t as [|[p|] t IH]; simpl.
  - split; [discriminate | intros []].
  - destruct (all_platforms t); simpl.
    + split; [discriminate|]. intros [H | H]; [discriminate | apply IH in H; discriminate].
    + split; [intros _; right; apply IH; reflexivity | reflexivity].
  - split; auto.
Qed.

Lemma sort_strings_length l : List.length (sort_strings l) = List.length l.
Proof. apply Permutation_length, sort_strings_perm. Qed.

(** [sorted] on identifiers or [None]: the sorted identifiers when no
    element is [None]; otherwise the list itself when it has a single
    element, and [TypeError] when it has more. *)
Lemma sorted_platforms_spec l :
  sorted_platforms l
  = match all_platforms l with
    | Some ps => Returns (map Some (sort_strings ps))
    | None => if (List.length l <=? 1)%nat then Returns l else Raises TypeError
    end.
Proof.
  induction l as [|x rest IH]; [reflexivity|].
  cbn [sorted_platforms]. rewrite IH.
  destruct (all_platforms rest) as [r0|] eqn:Er.
  - cbn [obind]. destruct x as [a|]; cbn [all_platforms]; rewrite ?Er; cbn [option_map].
    + apply insert_platform_somes.
    + apply all_platforms_Some in Er. subst rest.
      destruct r0 as [|b r0]; [reflexivity|].
      destruct (sort_strings (b :: r0)) as [|z s] eqn:Es.
      * apply (f_equal (@List.length string)) in Es.
        rewrite sort_strings_length in Es. discriminate Es.
      * reflexivity.
  - assert (Ha : all_platforms (x :: rest) = None).
    { destruct x; cbn [all_platforms]; rewrite ?Er; reflexivity. }
    rewrite Ha.
    destruct rest as [|y [|y' rest']].
    + discriminate Er.
    + destruct y as [b|]; [discriminate Er|]. cbn. reflexivity.
    + cbn [List.length Nat.leb obind]. reflexivity.
Qed.

Lemma sorted_platforms_permutation l l' :
  Permutation l l' -> sorted_platforms l = sorted_platforms l'.
Proof.
  intros Hp. rewrite !sorted_platforms_spec.
  destruct (all_platforms l) as [ps|] eqn:E.
  - apply all_platforms_Some in E. subst l.
    apply Permutation_sym, Permutation_map_inv in Hp as (ps' & -> & Hp).
    rewrite (proj2 (all_platforms_Some _ ps') eq_refl).
    rewrite (sort_strings_permutation _ _ Hp). reflexivity.
  - assert (E' : all_platforms l' = None).
    { apply all_platforms_None, (Permutation_in _ Hp), all_platforms_None, E. }
    rewrite E', <- (Permutation_length Hp).
    destruct l as [|x [|y l0]].
    + discriminate E.
    + apply Permutation_length_1_inv in Hp. subst l'. reflexivity.
    + reflexivity.
Qed.

(** X19.  The environment marker does not depend on the order in which the
    platforms are given. *)
Theorem X19_marker_ignores_platform_order
    (PEP508_MARKERS : odict marker_key string) l l' :
  Permutation l l' ->
  build_pep508_environment_marker PEP508_MARKERS l
  = build_pep508_environment_marker PEP508_MARKERS l'.
Proof.
  intros Hp. unfold build_pep508_environment_marker.
  rewrite (sorted_platforms_permutation _ _ Hp). reflexivity.
Qed.

(** X19, on two platforms given in both orders. *)
Lemma X19_marker_ignores_platform_order_witness :
  build_pep508_environment_marker
    [(Single "osx-64", "sys_platform == 'darwin'")] [Some "win-64"; Some "osx-64"]
  = build_pep508_environment_marker
      [(Single "osx-64", "sys_platform == 'darwin'")] [Some "osx-64"; Some "win-64"].
Proof.
  apply (X19_marker_ignores_platform_order
           [(Single "osx-64", "sys_platform == 'darwin'")]
           [Some "win-64"; Some "osx-64"] [Some "osx-64"; Some "win-64"]).
  apply perm_swap.
Defined.

Lemma sorted_platforms_again l s :
  sorted_platforms l = Returns s -> exists s', sorted_platforms s = Returns s'.
Proof.
  rewrite sorted_platforms_spec.
  destruct (all_platforms l) as [ps|] eqn:E.
  - intros [= <-]. rewrite sorted_platforms_spec.
    replace (all_platforms (map Some (sort_strings ps))) with (Some (sort_strings ps))
      by (symmetry; apply all_platforms_Some; reflexivity).
    eauto.
  - destruct (List.length l <=? 1)%nat eqn:El; [|discriminate].
    intros [= <-]. rewrite sorted_platforms_spec, E, El. eauto.
Qed.

(** X20.  The marker builder raises nothing but the [TypeError] of sorting,
    and raises it exactly on a list of two or more elements that holds
    [None]; in particular it returns on every list of platform
    identifiers and on every single-element list. *)
Theorem X20_marker_raises_iff_none_among_several
    (PEP508_MARKERS : odict marker_key string) l :
  ((exists e, build_pep508_environment_marker PEP508_MARKERS l = Raises e)
   <-> In None l /\ (2 <= List.length l)%nat)
  /\ (forall e, build_pep508_environment_marker PEP508_MARKERS l = Raises e ->
                e = TypeError).
Proof.
  unfold build_pep508_environment_marker.
  pose proof (sorted_platforms_spec l) as Hs.
  destruct (sorted_platforms l) as [s|e] eqn:Es.
  - destruct (sorted_platforms_again l s Es) as [s' Es'].
    cbn [obind]. rewrite Es'. cbn [obind].
    split; [split|].
    + intros [e H]. destruct (tuple_marker PEP508_MARKERS s); discriminate H.
    + intros [Hn Hl]. apply all_platforms_None in Hn. rewrite Hn in Hs.
      apply Nat.leb_gt in Hl. rewrite Hl in Hs. discriminate Hs.
    + intros e H. destruct (tuple_marker PEP508_MARKERS s); discriminate H.
  - cbn [obind]. destruct (all_platforms l) as [ps|] eqn:E; [discriminate Hs|].
    destruct (List.length l <=? 1)%nat eqn:El; [discriminate Hs|].
    injection Hs as ->.
    split; [split|].
    + intros _. split; [apply all_platforms_None, E | apply Nat.leb_gt in El; lia].
    + intros _. eauto.
    + intros e [= <-]. reflexivity.
Qed.

End UtilsFacts.

(** ** The pip dependencies of a resolution *)

Section SetuptoolsFacts.
Variable PEP508_MARKERS : odict marker_key string.
Variable name_with_pin : Meta -> string.

Lemma set_In {K V : Type} `{EqDec K} (d : odict K V) k v k' v' :
  In (k, v) (set d k' v') -> (k = k' /\ v = v') \/ In (k, v) d.
Proof.
  induction d as [|[k0 v0] d IH]; simpl.
  - intros [[= <- <-] | []]. auto.
  - destruct (eq_dec k0 k') as [->|N]; simpl.
    + intros [[= <- <-] | Hin]; auto.
    + intros [E | Hin]; [auto|]. destruct (IH Hin); auto.
Qed.

Lemma collect_pip_In platform_data : forall acc p m,
  In (p, m) (collect_pip platform_data acc) ->
  In (p, m) acc
  \/ exists sources, In (p, sources) platform_data /\ get sources pip = Some m.
Proof.
  induction platform_data as [|[q sources] rest IH]; intros acc p m H; simpl in H.
  - auto.
  - destruct (get sources pip) as [spec|] eqn:Eg.
    + destruct (IH _ _ _ H) as [Hs | (so & Hin & Hg)].
      * apply set_In in Hs as [[-> ->] | Hacc]; [|auto].
        right. exists sources. split; [left; reflexivity | exact Eg].
      * right. exists so. split; [right; exact Hin | exact Hg].
    + destruct (IH _ _ _ H) as [Hacc | (so & Hin & Hg)]; [auto|].
      right. exists so. split; [right; exact Hin | exact Hg].
Qed.

Lemma collect_pip_wf platform_data : forall acc,
  wf acc -> wf (collect_pip platform_data acc).
Proof.
  induction platform_data as [|[q sources] rest IH]; intros acc Hwf; simpl; [exact Hwf|].
  destruct (get sources pip); [apply IH, wf_set, Hwf | apply IH, Hwf].
Qed.

Lemma collect_pip_none platform_data : forall acc,
  (forall p sources, In (p, sources) platform_data -> get sources pip = None) ->
  collect_pip platform_data acc = acc.
Proof.
  induction platform_data as [|[q sources] rest IH]; intros acc H; simpl; [reflexivity|].
  rewrite (H q sources (or_introl eq_refl)). apply IH.
  intros p so Hin. apply (H p so). right. exact Hin.
Qed.

(** The marker builder returns when [None] is not among several
    elements. *)
Lemma build_returns l :
  (In None l -> (List.length l <= 1)%nat) ->
  exists marker, build_pep508_environment_marker PEP508_MARKERS l = Returns marker.
Proof.
  intros H. unfold build_pep508_environment_marker.
  assert (Hs : exists s, sorted_platforms l = Returns s).
  { rewrite sorted_platforms_spec. destruct (all_platforms l) eqn:E; [eauto|].
    apply all_platforms_None, H, Nat.leb_le in E. rewrite E. eauto. }
  destruct Hs as [s Es]. rewrite Es. cbn [obind].
  destruct (tuple_marker PEP508_MARKERS s); [eauto|].
  destruct (sorted_platforms_again l s Es) as [s' Es']. rewrite Es'. cbn [obind]. eauto.
Qed.

Lemma per_platform_spec to_process :
  exists deps,
    per_platform PEP508_MARKERS name_with_pin to_process = Returns deps
    /\ forall dep, In dep deps -> exists p m, In (p, m) to_process /\ renders name_with_pin m dep.
Proof.
  induction to_process as [|[p m] rest (deps & E & H)].
  - exists []. split; [reflexivity | intros dep []].
  - cbn [per_platform]. rewrite E.
    destruct p as [q|].
    + destruct (build_returns [Some q]) as [sel Es]; [simpl; lia|].
      rewrite Es. cbn [obind]. eexists. split; [reflexivity|].
      intros dep [<- | Hd].
      * exists (Some q), m. split; [left; reflexivity | right; eauto].
      * destruct (H dep Hd) as (p' & m' & Hin & Hr). exists p', m'. split; [right|]; auto.
    + cbn [obind]. eexists. split; [reflexivity|].
      intros dep [<- | Hd].
      * exists None, m. split; [left; reflexivity | left; reflexivity].
      * destruct (H dep Hd) as (p' & m' & Hin & Hr). exists p', m'. split; [right|]; auto.
Qed.

Lemma package_deps_In platform_data deps dep :
  package_deps PEP508_MARKERS name_with_pin platform_data = Returns deps -> In dep deps ->
  exists p sources m,
    In (p, sources) platform_data /\ get sources pip = Some m /\ renders name_with_pin m dep.
Proof.
  unfold package_deps. intros E Hd.
  assert (Hfrom : forall p m, In (p, m) (collect_pip platform_data []) ->
            exists sources, In (p, sources) platform_data /\ get sources pip = Some m).
  { intros p m Hin. destruct (collect_pip_In _ _ _ _ Hin) as [[] | H]. exact H. }
  destruct (collect_pip platform_data []) as [|[p0 first_spec] rest] eqn:Ec.
  - injection E as <-. destruct Hd.
  - destruct (forallb _ ((p0, first_spec) :: rest)).
    + destruct (Hfrom p0 first_spec (or_introl eq_refl)) as (so & Hin & Hg).
      exists p0, so, first_spec. split; [exact Hin|]. split; [exact Hg|].
      destruct (last_platform platform_data).
      * destruct (build_pep508_environment_marker _ _) as [sel|e]; [|discriminate E].
        injection E as <-. destruct Hd as [<- | []]. right. eauto.
      * injection E as <-. destruct Hd as [<- | []]. left. reflexivity.
    + destruct (per_platform_spec ((p0, first_spec) :: rest)) as (deps' & E' & H').
      rewrite E' in E. injection E as <-.
      destruct (H' dep Hd) as (p & m & Hin & Hr).
      destruct (Hfrom p m Hin) as (so & Hs & Hg). eauto 6.
Qed.

Lemma all_deps_In packages deps dep :
  all_deps PEP508_MARKERS name_with_pin packages = Returns deps -> In dep deps ->
  exists platform_data p sources m,
    In platform_data packages /\ In (p, sources) platform_data
    /\ get sources pip = Some m /\ renders name_with_pin m dep.
Proof.
  revert deps. induction packages as [|pd rest IH]; intros deps E Hd; simpl in E.
  - injection E as <-. destruct Hd.
  - destruct (package_deps PEP508_MARKERS name_with_pin pd) as [d1|e] eqn:E1; [|discriminate E]. cbn [obind] in E.
    destruct (all_deps _ _ rest) as [d2|e] eqn:E2; [|discriminate E].
    injection E as <-. apply in_app_or in Hd as [Hd | Hd].
    + destruct (package_deps_In pd d1 dep E1 Hd) as (p & so & m & H).
      exists pd, p, so, m. split; [left; reflexivity | exact H].
    + destruct (IH d2 eq_refl Hd) as (pd' & p & so & m & Hin & H).
      exists pd', p, so, m. split; [right; exact Hin | exact H].
Qed.

(** The packages without a pip entry contribute nothing. *)
Lemma all_deps_none packages :
  (forall platform_data p sources,
     In platform_data packages -> In (p, sources) platform_data ->
     get sources pip = None) ->
  all_deps PEP508_MARKERS name_with_pin packages = Returns [].
Proof.
  induction packages as [|pd rest IH]; intros H; simpl; [reflexivity|].
  unfold package_deps. rewrite collect_pip_none.
  - cbn [obind]. rewrite IH; [reflexivity|].
    intros pd' p so Hin. apply (H pd' p so). right. exact Hin.
  - intros p so Hin. apply (H pd p so (or_introl eq_refl) Hin).
Qed.

Lemma NoDup_all_None (l : list (option Platform)) :
  NoDup l -> (forall x, In x l -> x = None) -> (List.length l <= 1)%nat.
Proof.
  intros Hnd Hall. apply (NoDup_incl_length Hnd (l' := [None])).
  intros x Hx. left. symmetry. apply Hall, Hx.
Qed.

Lemma package_deps_returns platform_data :
  well_placed platform_data ->
  exists deps, package_deps PEP508_MARKERS name_with_pin platform_data = Returns deps.
Proof.
  intros Hwp. unfold package_deps.
  pose proof (collect_pip_wf platform_data [] ltac:(constructor)) as Hwf.
  assert (Hfrom : forall p m, In (p, m) (collect_pip platform_data []) ->
            In p (platforms_or_null m)).
  { intros p m Hin. destruct (collect_pip_In _ _ _ _ Hin) as [[] | (so & Hs & Hg)].
    apply (Hwp p so m Hs Hg). }
  destruct (collect_pip platform_data []) as [|[p0 first_spec] rest] eqn:Ec; [eauto|].
  destruct (forallb _ ((p0, first_spec) :: rest)) eqn:Ef.
  - destruct (last_platform platform_data); [|eauto].
    destruct (build_returns (keys ((p0, first_spec) :: rest))) as [sel Es].
    + intros Hnone.
      assert (Hkeys : forall x, In x (keys ((p0, first_spec) :: rest)) ->
                In x (platforms_or_null first_spec)).
      { intros x Hx. unfold keys in Hx. apply in_map_iff in Hx as [[q m] [<- Hqm]].
        rewrite forallb_forall in Ef. specialize (Ef _ Hqm). simpl in Ef.
        destruct (eq_dec m first_spec) as [->|]; [|discriminate Ef].
        apply (Hfrom q first_spec Hqm). }
      unfold platforms_or_null in Hkeys.
      destruct (platforms first_spec) as [ps|].
      * pose proof (Hkeys _ Hnone) as Hn.
        apply in_map_iff in Hn as [q [Hq _]]. discriminate Hq.
      * apply (NoDup_all_None _ Hwf). intros x Hx.
        destruct (Hkeys x Hx) as [<- | []]. reflexivity.
    + rewrite Es. cbn [obind]. eauto.
  - destruct (per_platform_spec ((p0, first_spec) :: rest)) as (deps & E & _). eauto.
Qed.

Lemma all_deps_returns packages :
  (forall platform_data, In platform_data packages -> well_placed platform_data) ->
  exists deps, all_deps PEP508_MARKERS name_with_pin packages = Returns deps.
Proof.
  induction packages as [|pd rest IH]; intros H; simpl; [eauto|].
  destruct (package_deps_returns pd (H pd (or_introl eq_refl))) as [d1 E1].
  destruct IH as [d2 E2]; [intros pd' Hin; apply H; right; exact Hin|].
  rewrite E1. cbn [obind]. rewrite E2. cbn [obind]. eauto.
Qed.

End SetuptoolsFacts.

Section DependenciesOfResolution.

Lemma In_related {K A B : Type} (R : A -> B -> Prop) (d : odict K A) (d' : odict K B) k b :
  Forall2 (fun x y => fst x = fst y /\ R (snd x) (snd y)) d d' ->
  In (k, b) d' -> exists a, In (k, a) d /\ R a b.
Proof.
  induction 1 as [|[k0 a0] [k1 b0] d d' [E HR] _ IH]; simpl; [intros []|].
  simpl in E, HR. subst k1. intros [[= -> ->] | Hin].
  - exists a0. auto.
  - destruct (IH Hin) as (a & Ha & HRa). eauto.
Qed.

(** The output of the resolver is a dictionary of dictionaries: distinct
    package names, and distinct platforms under each. *)
Lemma resolve_output_wf (requirements : odict string (list Meta)) out ws :
  wf requirements ->
  resolve_conflicts requirements = (Ok out, ws) ->
  wf out /\ forall pkg ro, In (pkg, ro) out -> wf ro.
Proof.
  intros Hwf E.
  destruct (resolve_conflicts_stages requirements Hwf)
    as (resolved & out' & rws & E' & Hpick & Hrec & _).
  rewrite E in E'. injection E' as <- _.
  split.
  - unfold wf. rewrite (keys_related _ _ _ Hrec), (keys_related _ _ _ Hpick).
    unfold keys. rewrite map_map. exact Hwf.
  - intros pkg ro Hin.
    destruct (In_related _ _ _ pkg ro Hrec Hin) as (r & Hr & Hrr).
    destruct (In_related _ _ _ pkg r Hpick Hr) as (g & Hg & Hgr).
    apply in_map_iff in Hg as [[pkg' metas] [[= _ <-] _]].
    unfold wf. rewrite (keys_related _ _ _ Hrr), (keys_related _ _ _ Hgr).
    apply (grouped_inv_group_metas metas).
Qed.

(** Every entry of the output is a requirement of its package, of its
    source and for its platform. *)
Lemma resolve_entry_origin (requirements : odict string (list Meta))
    out ws pkg ro p so w m :
  wf requirements ->
  resolve_conflicts requirements = (Ok out, ws) ->
  In (pkg, ro) out -> In (p, so) ro -> get so w = Some m ->
  exists metas,
    In (pkg, metas) requirements
    /\ In m metas /\ which m = w /\ In p (platforms_or_null m).
Proof.
  intros Hwf E Hro Hso Hm.
  destruct (resolve_output_wf requirements out ws Hwf E) as [Hwo Hwr].
  pose proof (In_get _ _ _ Hwo Hro) as Eo.
  pose proof (In_get _ _ _ (Hwr pkg ro Hro) Hso) as Ep.
  destruct (resolve_trace requirements out ws pkg ro p so Hwf E Eo Ep)
    as (metas & sources & rs & Hin & Hg & Hpk & Hrc).
  exists metas. split; [exact Hin|].
  pose proof (reconciled_get rs so w m Hrc Hm) as Hrs.
  destruct (get_related (fun a b => pick a = Some b) _ _ w m Hpk Hrs)
    as (b & Hb & Hpick).
  apply pick_In in Hpick.
  apply (In_bucket_group_metas metas p w m).
  unfold bucket. rewrite Hg, Hb. exact Hpick.
Qed.

Lemma In_values {K V : Type} (d : odict K V) v :
  In v (values d) -> exists k, In (k, v) d.
Proof.
  unfold values. intros H. apply in_map_iff in H as [[k v'] [E Hin]].
  simpl in E. subst v'. eauto.
Qed.

(** X21.  Whatever [filter_python_dependencies] returns is in ascending
    order, and every string of it renders a pip entry of the argument: the
    name and pin of the entry found under [pip] for some package and
    platform, alone or followed by [; ] and a selector.  Conda entries never
    reach the result. *)
Theorem X21_dependencies_are_sorted_pip_entries
    (PEP508_MARKERS : odict marker_key string) (name_with_pin : Meta -> string)
    (resolved : odict string Reduced) deps :
  filter_python_dependencies PEP508_MARKERS name_with_pin resolved = Returns deps ->
  ascending deps
  /\ forall dep, In dep deps ->
       exists pkg platform_data p sources m,
         In (pkg, platform_data) resolved /\ In (p, sources) platform_data
         /\ get sources pip = Some m /\ renders name_with_pin m dep.
Proof.
  unfold filter_python_dependencies. intros E.
  destruct (all_deps _ _ (values resolved)) as [d|e] eqn:Ed; [|discriminate E].
  injection E as <-. split; [apply sort_strings_sorted|].
  intros dep Hd.
  apply (Permutation_in _ (sort_strings_perm d)) in Hd.
  destruct (all_deps_In _ _ _ d dep Ed Hd) as (pd & p & so & m & Hpd & Hso & Hg & Hr).
  destruct (In_values _ _ Hpd) as [pkg Hpkg].
  exists pkg, pd, p, so, m. auto.
Qed.

(** X21, on a package with different pip entries on two platforms and a
    conda entry. *)
Lemma X21_dependencies_are_sorted_pip_entries_witness :
  ascending ["scipy >=1.0; sys_platform == 'linux' and platform_machine == 'x86_64'";
             "scipy; sys_platform == 'darwin' and platform_machine == 'x86_64'"]
  /\ forall dep,
       In dep ["scipy >=1.0; sys_platform == 'linux' and platform_machine == 'x86_64'";
               "scipy; sys_platform == 'darwin' and platform_machine == 'x86_64'"] ->
       exists pkg platform_data p sources m,
         In (pkg, platform_data)
            [("scipy", [(Some "osx-64", [(conda, scipy_conda); (pip, scipy_pip)]);
                        (Some "linux-64", [(pip, scipy_pip_linux)])])]
         /\ In (p, sources) platform_data
         /\ get sources pip = Some m /\ renders example_name_with_pin m dep.
Proof.
  apply (X21_dependencies_are_sorted_pip_entries example_markers example_name_with_pin
           [("scipy", [(Some "osx-64", [(conda, scipy_conda); (pip, scipy_pip)]);
                       (Some "linux-64", [(pip, scipy_pip_linux)])])]).
  vm_compute. reflexivity.
Defined.

(** X22.  Without a pip entry anywhere in the argument,
    [filter_python_dependencies] returns the empty list, whatever the
    platforms and the conda entries are. *)
Theorem X22_no_pip_entry_no_dependency
    (PEP508_MARKERS : odict marker_key string) (name_with_pin : Meta -> string)
    (resolved : odict string Reduced) :
  (forall pkg platform_data p sources,
     In (pkg, platform_data) resolved -> In (p, sources) platform_data ->
     get sources pip = None) ->
  filter_python_dependencies PEP508_MARKERS name_with_pin resolved = Returns [].
Proof.
  intros H. unfold filter_python_dependencies.
  rewrite all_deps_none; [reflexivity|].
  intros pd p so Hpd Hso. destruct (In_values _ _ Hpd) as [pkg Hpkg].
  apply (H pkg pd p so Hpkg Hso).
Qed.

(** X22, on a package with conda entries on two platforms. *)
Lemma X22_no_pip_entry_no_dependency_witness :
  filter_python_dependencies example_markers example_name_with_pin
    [("scipy", [(Some "linux-64", [(conda, scipy_conda_linux)]);
                (None, [(conda, scipy_conda)])])]
  = Returns [].
Proof.
  apply (X22_no_pip_entry_no_dependency example_markers example_name_with_pin).
  intros pkg pd p so Hpd Hso.
  destruct Hpd as [[= <- <-] | []].
  destruct Hso as [[= <- <-] | [[= <- <-] | []]]; reflexivity.
Defined.

(** X23.  [filter_python_dependencies] never raises on what
    [resolve_conflicts] returns: for requirements with distinct package
    names it returns a list in ascending order, and every string of it renders
    a requirement of source pip listed in the input, whatever the marker
    table is. *)
Theorem X23_dependencies_of_a_resolution
    (PEP508_MARKERS : odict marker_key string) (name_with_pin : Meta -> string)
    (requirements : odict string (list Meta)) out ws :
  wf requirements ->
  resolve_conflicts requirements = (Ok out, ws) ->
  exists deps,
    filter_python_dependencies PEP508_MARKERS name_with_pin out = Returns deps
    /\ ascending deps
    /\ forall dep, In dep deps ->
         exists pkg metas m,
           In (pkg, metas) requirements /\ In m metas /\ which m = pip
           /\ renders name_with_pin m dep.
Proof.
  intros Hwf E.
  destruct (all_deps_returns PEP508_MARKERS name_with_pin (values out)) as [d Ed].
  { intros pd Hpd p so m Hso Hg. destruct (In_values _ _ Hpd) as [pkg Hpkg].
    destruct (resolve_entry_origin requirements out ws pkg pd p so pip m
                Hwf E Hpkg Hso Hg) as (metas & _ & _ & _ & Hp).
    exact Hp. }
  exists (sort_strings d). unfold filter_python_dependencies. rewrite Ed.
  split; [reflexivity|]. split; [apply sort_strings_sorted|].
  intros dep Hd.
  apply (Permutation_in _ (sort_strings_perm d)) in Hd.
  destruct (all_deps_In _ _ _ d dep Ed Hd) as (pd & p & so & m & Hpd & Hso & Hg & Hr).
  destruct (In_values _ _ Hpd) as [pkg Hpkg].
  destruct (resolve_entry_origin requirements out ws pkg pd p so pip m
              Hwf E Hpkg Hso Hg) as (metas & Hin & Hm & Hw & _).
  exists pkg, metas, m. auto.
Qed.

(** X23, on [numpy_requirements]. *)
Lemma X23_dependencies_of_a_resolution_witness :
  exists deps,
    filter_python_dependencies example_markers example_name_with_pin
      [("numpy", [(Some "linux-64", [(conda, numpy_pinned)]);
                  (Some "osx-64", [(conda, numpy_pinned)]);
                  (None, [(pip, numpy_pip)])])]
    = Returns deps
    /\ ascending deps
    /\ forall dep, In dep deps ->
         exists pkg metas m,
           In (pkg, metas) numpy_requirements /\ In m metas /\ which m = pip
           /\ renders example_name_with_pin m dep.
Proof.
  apply (X23_dependencies_of_a_resolution example_markers example_name_with_pin
           numpy_requirements
           [("numpy", [(Some "linux-64", [(conda, numpy_pinned)]);
                       (Some "osx-64", [(conda, numpy_pinned)]);
                       (None, [(pip, numpy_pip)])])]
           [PlatformConflict (Some "linux-64") numpy_pinned conda
              [numpy_unpinned; numpy_unpinned]]).
  - constructor; [intros [] | constructor].
  - vm_compute. reflexivity.
Defined.

End DependenciesOfResolution.

(** ** The loop variable read after its loop *)

Section LeakedPlatform.

Lemma eq_dec_refl {A : Type} `{EqDec A} {B : Type} (x : A) (a b : B) :
  (if eq_dec x x then a else b) = a.
Proof. destruct (eq_dec x x); congruence. Qed.

(** A package with one pip entry: the platform read after the loop decides
    between the bare rendering and the one with a selector. *)
Lemma filter_single PEP508_MARKERS name_with_pin pkg platform_data p m :
  collect_pip platform_data [] = [(p, m)] ->
  filter_python_dependencies PEP508_MARKERS name_with_pin [(pkg, platform_data)]
  = match last_platform platform_data with
    | Some _ =>
        obind (build_pep508_environment_marker PEP508_MARKERS [p])
              (fun selector => Returns [with_selector (name_with_pin m) selector])
    | None => Returns [name_with_pin m]
    end.
Proof.
  intros E. unfold filter_python_dependencies, values.
  cbn [map snd all_deps]. unfold package_deps. rewrite E.
  cbn [forallb snd andb keys map fst]. rewrite eq_dec_refl.
  destruct (last_platform platform_data); [|reflexivity].
  destruct (build_pep508_environment_marker PEP508_MARKERS [p]); reflexivity.
Qed.

(** The marker of the null platform alone is the empty string. *)
Lemma build_null PEP508_MARKERS :
  build_pep508_environment_marker PEP508_MARKERS [None] = Returns "".
Proof. reflexivity. Qed.

(** X24.  For a package with a pip requirement of one platform and a conda
    requirement of all platforms, the order of the two in the input decides
    the dependency string: with the pip requirement first the platforms of
    the resolution end with the null platform and the string carries no
    selector; with the conda requirement first it carries the selector of
    the platform. *)
Theorem X24_order_decides_selector
    (PEP508_MARKERS : odict marker_key string) (name_with_pin : Meta -> string)
    pkg q (m_pip m_conda : Meta) :
  which m_pip = pip -> which m_conda = conda ->
  platforms m_pip = Some [q] -> platforms m_conda = None ->
  (exists out ws,
     resolve_conflicts [(pkg, [m_pip; m_conda])] = (Ok out, ws)
     /\ filter_python_dependencies PEP508_MARKERS name_with_pin out
        = Returns [name_with_pin m_pip])
  /\ (exists out ws selector,
        resolve_conflicts [(pkg, [m_conda; m_pip])] = (Ok out, ws)
        /\ build_pep508_environment_marker PEP508_MARKERS [Some q] = Returns selector
        /\ filter_python_dependencies PEP508_MARKERS name_with_pin out
           = Returns [with_selector (name_with_pin m_pip) selector]).
Proof.
  destruct m_pip as [n1 p1 w1 pl1 pp1], m_conda as [n2 p2 w2 pl2 pp2]. simpl.
  intros -> -> -> ->. split.
  - eexists. eexists. split; [cbn; reflexivity|].
    rewrite (filter_single _ _ _ _ (Some q) (mkMeta n1 p1 pip (Some [q]) pp1)) by reflexivity.
    reflexivity.
  - destruct (build_returns PEP508_MARKERS [Some q]) as [sel Es]; [simpl; lia|].
    eexists. eexists. exists sel. split; [cbn; reflexivity|]. split; [exact Es|].
    rewrite (filter_single _ _ _ _ (Some q) (mkMeta n1 p1 pip (Some [q]) pp1)) by reflexivity.
    cbn [last_platform rev app]. rewrite Es. reflexivity.
Qed.

(** X24, on [scipy_pip_linux] and [scipy_conda]. *)
Lemma X24_order_decides_selector_witness :
  (exists out ws,
     resolve_conflicts [("scipy", [scipy_pip_linux; scipy_conda])] = (Ok out, ws)
     /\ filter_python_dependencies example_markers example_name_with_pin out
        = Returns [example_name_with_pin scipy_pip_linux])
  /\ (exists out ws selector,
        resolve_conflicts [("scipy", [scipy_conda; scipy_pip_linux])] = (Ok out, ws)
        /\ build_pep508_environment_marker example_markers [Some "linux-64"]
           = Returns selector
        /\ filter_python_dependencies example_markers example_name_with_pin out
           = Returns [with_selector (example_name_with_pin scipy_pip_linux) selector]).
Proof.
  apply (X24_order_decides_selector example_markers example_name_with_pin
           "scipy" "linux-64" scipy_pip_linux scipy_conda); reflexivity.
Defined.

(** X25.  For a package with a pip requirement of all platforms and a conda
    requirement of one platform, the order decides as well: with the pip
    requirement first the platforms of the resolution end with the platform
    of the conda requirement, and the string ends with [; ] and an empty
    selector; with the conda requirement first the string is the bare
    rendering. *)
Theorem X25_order_decides_empty_selector
    (PEP508_MARKERS : odict marker_key string) (name_with_pin : Meta -> string)
    pkg q (m_pip m_conda : Meta) :
  which m_pip = pip -> which m_conda = conda ->
  platforms m_pip = None -> platforms m_conda = Some [q] ->
  (exists out ws,
     resolve_conflicts [(pkg, [m_pip; m_conda])] = (Ok out, ws)
     /\ filter_python_dependencies PEP508_MARKERS name_with_pin out
        = Returns [name_with_pin m_pip ++ "; "])
  /\ (exists out ws,
        resolve_conflicts [(pkg, [m_conda; m_pip])] = (Ok out, ws)
        /\ filter_python_dependencies PEP508_MARKERS name_with_pin out
           = Returns [name_with_pin m_pip]).
Proof.
  destruct m_pip as [n1 p1 w1 pl1 pp1], m_conda as [n2 p2 w2 pl2 pp2]. simpl.
  intros -> -> -> ->. split.
  - eexists. eexists. split; [cbn; reflexivity|].
    rewrite (filter_single _ _ _ _ None (mkMeta n1 p1 pip None pp1)) by reflexivity.
    cbn [last_platform rev app]. rewrite build_null. reflexivity.
  - eexists. eexists. split; [cbn; reflexivity|].
    rewrite (filter_single _ _ _ _ None (mkMeta n1 p1 pip None pp1)) by reflexivity.
    reflexivity.
Qed.

(** X25, on [scipy_pip] and [scipy_conda_linux]. *)
Lemma X25_order_decides_empty_selector_witness :
  (exists out ws,
     resolve_conflicts [("scipy", [scipy_pip; scipy_conda_linux])] = (Ok out, ws)
     /\ filter_python_dependencies example_markers example_name_with_pin out
        = Returns [example_name_with_pin scipy_pip ++ "; "])
  /\ (exists out ws,
        resolve_conflicts [("scipy", [scipy_conda_linux; scipy_pip])] = (Ok out, ws)
        /\ filter_python_dependencies example_markers example_name_with_pin out
           = Returns [example_name_with_pin scipy_pip]).
Proof.
  apply (X25_order_decides_empty_selector example_markers example_name_with_pin
           "scipy" "linux-64" scipy_pip scipy_conda_linux); reflexivity.
Defined.

End LeakedPlatform.
